(** * Character-level sequence-to-sequence notebook (lstm_seq2seq.ipynb)

    A shallow embedding of the notebook's own code: the loader of the
    tab-separated sentence pairs, the construction of the two vocabularies
    and of the three one-hot tensors, the inference sub-graphs rebuilt from
    the layers of the saved model, and the greedy sampling loop of
    [decode_sequence].

    The deep-learning framework is not part of the notebook.  Its trained
    layers enter as section variables (a recurrent cell is a function from an
    input row and a state to a state, the dense layer a function on rows),
    and numbers are an abstract scalar type with the two constants the
    notebook writes into its arrays and the comparison [np.argmax] needs. *)

From Stdlib Require Import ZArith QArith String Ascii.
From stdpp Require Import base decidable option numbers list sorting gmap.

#[local] Open Scope nat_scope.

(** ** Characters, strings and exceptions *)

(** A Python [str] is a sequence of Unicode code points; a character is its
    code point, so that [sorted] orders characters as Python does. *)
Abbreviation char := N (only parsing).
Abbreviation text := (list N) (only parsing).

Definition TAB : char := 9%N.
Definition NL : char := 10%N.
Definition SPACE : char := 32%N.

(** ASCII literals, for the examples. *)
Definition str (s : string) : text := N_of_ascii <$> list_ascii_of_string s.

Inductive exn : Set := ValueError | KeyError | NameError | IndexError.

Inductive result (A : Type) : Type :=
| Ok (a : A)
| Raise (e : exn).
Arguments Ok {A} a.
Arguments Raise {A} e.

#[global] Instance result_ret : MRet result := λ A a, Ok a.
#[global] Instance result_bind : MBind result := λ A B f m,
  match m with
  | Ok a => f a
  | Raise e => Raise e
  end.

(** [d[k]] on a [dict]. *)
Definition getitem `{Countable K} {V} (d : gmap K V) (k : K) : result V :=
  match d !! k with
  | Some v => Ok v
  | None => Raise KeyError
  end.

(** [s.split(sep)] with a one-character separator. *)
Fixpoint split (sep : char) (s : text) : list text :=
  match s with
  | [] => [[]]
  | c :: s' =>
      if N.eqb c sep then [] :: split sep s'
      else match split sep s' with
           | field :: fields => (c :: field) :: fields
           | [] => [[c]]
           end
  end.

(** [l[:k]], where a negative [k] counts from the end. *)
Definition slice_to {A} (l : list A) (k : Z) : list A :=
  if (0 <=? k)%Z then take (Z.to_nat k) l
  else take (Z.to_nat (Z.of_nat (length l) + k)) l.

(** [max(l)] on a list of lengths. *)
Definition py_max (l : list nat) : result nat :=
  match l with
  | [] => Raise ValueError
  | x :: l' => Ok (foldl Nat.max x l')
  end.

(** ** Configuration cell *)

Definition batch_size : Z := 64.
Definition epochs : Z := 100.
Definition latent_dim : nat := 256.
Definition num_samples : Z := 10000.

(** ** Loading the sentence pairs *)

(** [for char in txt: if char not in chars: chars.add(char)] *)
Definition add_characters (txt : text) (chars : gset char) : gset char :=
  foldl (λ chars c, if decide (c ∈ chars) then chars else {[c]} ∪ chars) chars txt.

(** What the loading loop has bound so far: [input_texts], [target_texts]
    and the two character sets (the notebook calls them [input_characters]
    and [target_characters] until it rebinds these names to the sorted
    lists). *)
Record corpus : Type := Corpus {
  input_texts : list text;
  target_texts : list text;
  input_character_set : gset char;
  target_character_set : gset char
}.

Definition empty_corpus : corpus := Corpus [] [] ∅ ∅.

(** The body of [for line in lines[...]]. *)
Definition read_line (line : text) (st : corpus) : result corpus :=
  match split TAB line with
  | [input_text; target_text; _] =>
      let target_text := [TAB] ++ target_text ++ [NL] in
      Ok {| input_texts := input_texts st ++ [input_text];
            target_texts := target_texts st ++ [target_text];
            input_character_set := add_characters input_text (input_character_set st);
            target_character_set := add_characters target_text (target_character_set st) |}
  | _ => Raise ValueError
  end.

Fixpoint read_lines (lines : list text) (st : corpus) : result corpus :=
  match lines with
  | [] => Ok st
  | line :: lines' => st' ← read_line line st; read_lines lines' st'
  end.

(** The lines the loop visits: [lines[: min(num_samples, len(lines) - 1)]]. *)
Definition processed_lines (nsamples : Z) (lines : list text) : list text :=
  slice_to lines (Z.min nsamples (Z.of_nat (length lines) - 1)).

(** [f.read().split("\n")] followed by the loading loop; [content] is the
    decoded text of the data file. *)
Definition load_corpus (nsamples : Z) (content : text) : result corpus :=
  let lines := split NL content in
  read_lines (processed_lines nsamples lines) empty_corpus.

(** ** Vocabularies and token indices *)

(** [sorted(list(chars))]: the elements of the set in increasing code-point
    order. *)
Definition sorted (chars : gset char) : list char :=
  merge_sort N.le (elements chars).

(** [enumerate(l)] *)
Definition enumerate {A} (l : list A) : list (nat * A) := imap pair l.

(** [dict(pairs)]: pairs are inserted from left to right, a later pair
    replaces an earlier one with the same key. *)
Definition dict `{Countable K} {V} (pairs : list (K * V)) : gmap K V :=
  foldl (λ d kv, <[kv.1 := kv.2]> d) ∅ pairs.

(** [dict([(char, i) for i, char in enumerate(characters)])] *)
Definition token_index (characters : list char) : gmap char nat :=
  dict ((λ ic : nat * char, (ic.2, ic.1)) <$> enumerate characters).

(** [dict((i, char) for char, i in index.items())] *)
Definition reverse_char_index (index : gmap char nat) : gmap nat char :=
  dict ((λ ci : char * nat, (ci.2, ci.1)) <$> map_to_list index).

(** ** Scalars and arrays *)

(** The numbers of the arrays: [0.0], [1.0] and the strict comparison used
    to locate a maximum. *)
Class Scalar (F : Type) : Type := {
  fzero : F;
  fone : F;
  fgtb : F → F → bool
}.

Section Arrays.
Context {F : Type} `{!Scalar F}.

(** A three-axis array: its [shape] and its entries as nested rows. *)
Record ndarray3 : Type := NdArray3 {
  shape : nat * nat * nat;
  cells : list (list (list F))
}.

(** [np.zeros((n, T, V))] *)
Definition np_zeros (shp : nat * nat * nat) : ndarray3 :=
  let '(n, T, V) := shp in
  {| shape := shp; cells := replicate n (replicate T (replicate V fzero)) |}.

(** [a[i, t, k] = v]; an index outside the shape raises. *)
Definition setitem3 (a : ndarray3) (i t k : nat) (v : F) : result ndarray3 :=
  let '(n, T, V) := shape a in
  if (i <? n) && (t <? T) && (k <? V)
  then Ok {| shape := shape a;
             cells := alter (alter (<[k := v]>) t) i (cells a) |}
  else Raise IndexError.

(** [a[i, from:, k] = v]; the slice may be empty, the two integer indices
    are checked against the shape. *)
Definition setslice3 (a : ndarray3) (i from k : nat) (v : F) : result ndarray3 :=
  let '(n, T, V) := shape a in
  if (i <? n) && (k <? V)
  then Ok {| shape := shape a;
             cells := alter (λ rows, take from rows ++ (<[k := v]> <$> drop from rows))
                            i (cells a) |}
  else Raise IndexError.

(** [a[i : i + 1]], the batch holding example [i] alone. *)
Definition slice_example (a : ndarray3) (i : nat) : ndarray3 :=
  let '(_, T, V) := shape a in
  let batch := take 1 (drop i (cells a)) in
  {| shape := (length batch, T, V); cells := batch |}.

(** The row with [1.0] at position [k] and [0.0] elsewhere. *)
Definition one_hot (V k : nat) : list F := <[k := fone]> (replicate V fzero).

(** [a[i, t]] *)
Definition slice2 (a : ndarray3) (i t : nat) : option (list F) :=
  cells a !! i ≫= (.!! t).

(** Reading a variable that a loop may not have bound. *)
Definition read_var {A} (x : option A) : result A :=
  match x with
  | Some v => Ok v
  | None => Raise NameError
  end.

(** [for t, char in enumerate(txt): acc = body(t, char, acc)], together
    with the value the loop leaves in [t]: the last position, or what [t]
    was bound to before when [txt] is empty. *)
Fixpoint for_enumerate {A} (body : nat → char → A → result A)
    (start : nat) (txt : text) (acc : A) (t : option nat)
    : result (A * option nat) :=
  match txt with
  | [] => Ok (acc, t)
  | c :: txt' =>
      acc' ← body start c acc;
      for_enumerate body (S start) txt' acc' (Some start)
  end.

(** ** One-hot encoding of the corpus *)

(** The arrays under construction and the loop variable [t], which
    outlives the inner loops. *)
Record vstate : Type := VState {
  enc : ndarray3;
  dec_in : ndarray3;
  dec_tgt : ndarray3;
  t_var : option nat
}.

Section Vectorize.
Variables input_token_index target_token_index : gmap char nat.

(** The body of
    [for i, (input_text, target_text) in enumerate(zip(...))]. *)
Definition vectorize_pair (i : nat) (input_text target_text : text)
    (st : vstate) : result vstate :=
  '(enc, t) ← for_enumerate
      (λ t char enc,
         k ← getitem input_token_index char;
         setitem3 enc i t k fone)
      0 input_text (enc st) (t_var st);
  t1 ← read_var t;
  sp ← getitem input_token_index SPACE;
  enc ← setslice3 enc i (t1 + 1) sp fone;
  '(dec, t) ← for_enumerate
      (λ t char (dec : ndarray3 * ndarray3),
         k ← getitem target_token_index char;
         dec_in ← setitem3 dec.1 i t k fone;
         if 0 <? t
         then k' ← getitem target_token_index char;
              dec_tgt ← setitem3 dec.2 i (t - 1) k' fone;
              Ok (dec_in, dec_tgt)
         else Ok (dec_in, dec.2))
      0 target_text (dec_in st, dec_tgt st) t;
  t2 ← read_var t;
  sp ← getitem target_token_index SPACE;
  dec_in ← setslice3 dec.1 i (t2 + 1) sp fone;
  t3 ← read_var t;
  sp' ← getitem target_token_index SPACE;
  dec_tgt ← setslice3 dec.2 i t3 sp' fone;
  Ok {| enc := enc; dec_in := dec_in; dec_tgt := dec_tgt; t_var := t |}.

Fixpoint vectorize_loop (i : nat) (pairs : list (text * text))
    (st : vstate) : result vstate :=
  match pairs with
  | [] => Ok st
  | (input_text, target_text) :: pairs' =>
      st' ← vectorize_pair i input_text target_text st;
      vectorize_loop (S i) pairs' st'
  end.
End Vectorize.

(** Everything the data-preparation cell leaves bound. *)
Record dataset : Type := Dataset {
  texts : corpus;
  input_characters : list char;
  target_characters : list char;
  num_encoder_tokens : nat;
  num_decoder_tokens : nat;
  max_encoder_seq_length : nat;
  max_decoder_seq_length : nat;
  input_token_index : gmap char nat;
  target_token_index : gmap char nat;
  encoder_input_data : ndarray3;
  decoder_input_data : ndarray3;
  decoder_target_data : ndarray3
}.

(** The cell from [input_characters = sorted(...)] to its end. *)
Definition vectorize (c : corpus) : result dataset :=
  let input_characters := sorted (input_character_set c) in
  let target_characters := sorted (target_character_set c) in
  let num_encoder_tokens := length input_characters in
  let num_decoder_tokens := length target_characters in
  max_encoder_seq_length ← py_max (length <$> input_texts c);
  max_decoder_seq_length ← py_max (length <$> target_texts c);
  let input_token_index := token_index input_characters in
  let target_token_index := token_index target_characters in
  let n := length (input_texts c) in
  st ← vectorize_loop input_token_index target_token_index 0
        (zip (input_texts c) (target_texts c))
        {| enc := np_zeros (n, max_encoder_seq_length, num_encoder_tokens);
           dec_in := np_zeros (n, max_decoder_seq_length, num_decoder_tokens);
           dec_tgt := np_zeros (n, max_decoder_seq_length, num_decoder_tokens);
           t_var := None |};
  Ok {| texts := c;
        input_characters := input_characters;
        target_characters := target_characters;
        num_encoder_tokens := num_encoder_tokens;
        num_decoder_tokens := num_decoder_tokens;
        max_encoder_seq_length := max_encoder_seq_length;
        max_decoder_seq_length := max_decoder_seq_length;
        input_token_index := input_token_index;
        target_token_index := target_token_index;
        encoder_input_data := enc st;
        decoder_input_data := dec_in st;
        decoder_target_data := dec_tgt st |}.

(** The whole data-preparation cell. *)
Definition prepare_data (nsamples : Z) (content : text) : result dataset :=
  c ← load_corpus nsamples content;
  vectorize c.
End Arrays.

Arguments ndarray3 : clear implicits.
Arguments vstate : clear implicits.
Arguments dataset : clear implicits.

(** ** The model and its inference sub-graphs *)

Section Model.
Context {F : Type} `{!Scalar F}.

(** The state of a recurrent layer: the hidden vector [h] and the cell
    vector [c]. *)
Definition lstm_state : Type := list F * list F.

(** The layers of the notebook's model.  A trained recurrent layer is its
    cell, one timestep from an input row and a state to the next state; a
    trained dense layer is the function it applies to a row. *)
Inductive layer : Type :=
| InputLayer (width : nat)
| LSTM (units : nat) (cell : list F → lstm_state → lstm_state)
| Dense (units : nat) (f : list F → list F).

(** Calling a recurrent layer on a sequence: the cell is applied timestep
    by timestep; the layer's output at a timestep is the hidden vector
    after it, and the returned state is the state after the last one. *)
Fixpoint lstm_call (cell : list F → lstm_state → lstm_state)
    (initial_state : lstm_state) (inputs : list (list F))
    : list (list F) * lstm_state :=
  match inputs with
  | [] => ([], initial_state)
  | x :: inputs' =>
      let st := cell x initial_state in
      let '(outputs, final) := lstm_call cell st inputs' in
      (st.1 :: outputs, final)
  end.

(** The state a recurrent layer starts from when none is given. *)
Definition zero_state (units : nat) : lstm_state :=
  (replicate units fzero, replicate units fzero).

Section Graph.
Variables num_encoder_tokens num_decoder_tokens : nat.
Variables encoder_cell decoder_cell : list F → lstm_state → lstm_state.
Variable dense_fn : list F → list F.

(** [model.layers] of the model built in the "Build the model" cell, in
    the order the inference cell indexes them. *)
Definition model_layers : list layer :=
  [ InputLayer num_encoder_tokens;
    InputLayer num_decoder_tokens;
    LSTM latent_dim encoder_cell;
    LSTM latent_dim decoder_cell;
    Dense num_decoder_tokens dense_fn ].

(** The training-time graph: [model([encoder_inputs, decoder_inputs])]. *)
Definition model (encoder_inputs decoder_inputs : list (list F))
    : list (list F) :=
  let '(_, encoder_states) :=
    lstm_call encoder_cell (zero_state latent_dim) encoder_inputs in
  let '(decoder_outputs, _) :=
    lstm_call decoder_cell encoder_states decoder_inputs in
  dense_fn <$> decoder_outputs.
End Graph.

(** [encoder_model]: from the input sequence to [encoder_states]. *)
Definition encoder_model_t : Type := list (list F) → lstm_state.
(** [decoder_model]: from [decoder_inputs] and the two state inputs to
    [decoder_outputs] and the two new states. *)
Definition decoder_model_t : Type :=
  list (list F) → lstm_state → list (list F) * lstm_state.

(** The "Define sampling models" cell: the two inference models are
    assembled from [layers[2]], [layers[3]] and [layers[4]] of the loaded
    model. *)
Definition sampling_models (layers : list layer)
    : result (encoder_model_t * decoder_model_t) :=
  match layers !! 2, layers !! 3, layers !! 4 with
  | Some (LSTM units encoder), Some (LSTM _ decoder_lstm), Some (Dense _ decoder_dense) =>
      Ok (λ encoder_inputs,
            (lstm_call encoder (zero_state units) encoder_inputs).2,
          λ decoder_inputs decoder_states_inputs,
            let '(decoder_outputs, decoder_states) :=
              lstm_call decoder_lstm decoder_states_inputs decoder_inputs in
            (decoder_dense <$> decoder_outputs, decoder_states))
  | _, _, _ => Raise ValueError
  end.

(** ** Greedy decoding *)

(** [np.argmax(row)]: the first position of a maximal entry. *)
Fixpoint argmax_from (best_i : nat) (best : F) (i : nat) (row : list F) : nat :=
  match row with
  | [] => best_i
  | x :: row' =>
      if fgtb x best then argmax_from i x (S i) row'
      else argmax_from best_i best (S i) row'
  end.

Definition np_argmax (row : list F) : result nat :=
  match row with
  | [] => Raise ValueError
  | x :: row' => Ok (argmax_from 0 x 1 row')
  end.

(** The sequence of the single example of a batch of size one. *)
Definition batch_rows (a : ndarray3 F) : list (list F) :=
  default [] (cells a !! 0).

(** One call of [decoder_model.predict]: what went in and what came out. *)
Record predict_call : Type := PredictCall {
  call_target_seq : list (list F);
  call_states_in : lstm_state;
  call_output_tokens : list (list F);
  call_states_out : lstm_state
}.

(** The variables of the sampling loop, and the history of the calls it
    made to [decoder_model.predict] (the loop never reads [calls]). *)
Record loop_state : Type := LoopState {
  target_seq : ndarray3 F;
  states_value : lstm_state;
  stop_condition : bool;
  decoded_sentence : text;
  calls : list predict_call
}.

Section Decode.
Variable d : dataset F.
Variable encoder_model : encoder_model_t.
Variable decoder_model : decoder_model_t.

Definition reverse_input_char_index : gmap nat char :=
  reverse_char_index (input_token_index d).
Definition reverse_target_char_index : gmap nat char :=
  reverse_char_index (target_token_index d).

(** The body of [while not stop_condition]. *)
Definition sampling_step (st : loop_state) : result loop_state :=
  let '(output_tokens, hc) :=
    decoder_model (batch_rows (target_seq st)) (states_value st) in
  row ← match last output_tokens with
        | Some row => Ok row
        | None => Raise IndexError
        end;
  sampled_token_index ← np_argmax row;
  sampled_char ← getitem reverse_target_char_index sampled_token_index;
  let decoded_sentence := decoded_sentence st ++ [sampled_char] in
  let stop_condition :=
    if N.eqb sampled_char NL
       || (max_decoder_seq_length d <? length decoded_sentence)
    then true else stop_condition st in
  new_target_seq ← setitem3 (np_zeros (1, 1, num_decoder_tokens d))
                            0 0 sampled_token_index fone;
  Ok {| target_seq := new_target_seq;
        states_value := hc;
        stop_condition := stop_condition;
        decoded_sentence := decoded_sentence;
        calls := calls st ++
          [ {| call_target_seq := batch_rows (target_seq st);
               call_states_in := states_value st;
               call_output_tokens := output_tokens;
               call_states_out := hc |} ] |}.

(** [while not stop_condition: ...], with [fuel] bounding the number of
    tests of the condition; [None] when [fuel] does not suffice. *)
Fixpoint sampling_loop (fuel : nat) (st : loop_state)
    : option (result loop_state) :=
  match fuel with
  | 0 => None
  | S fuel' =>
      if stop_condition st then Some (Ok st)
      else match sampling_step st with
           | Ok st' => sampling_loop fuel' st'
           | Raise e => Some (Raise e)
           end
  end.

(** The variables as the loop is entered.  The two models work on
    batches.  [encoder_model.predict] raises on an empty batch.
    [target_seq] holds one example, so the states of a larger batch do
    not fit it: the first call of [decoder_model.predict], which the loop
    always makes, raises on them. *)
Definition sampling_init (input_seq : ndarray3 F) : result loop_state :=
  match cells input_seq with
  | [] => Raise ValueError
  | rows :: others =>
      let states_value := encoder_model rows in
      start ← getitem (target_token_index d) TAB;
      start_seq ← setitem3 (np_zeros (1, 1, num_decoder_tokens d)) 0 0 start fone;
      match others with
      | [] =>
          Ok {| target_seq := start_seq;
                states_value := states_value;
                stop_condition := false;
                decoded_sentence := [];
                calls := [] |}
      | _ :: _ => Raise ValueError
      end
  end.

(** [decode_sequence(input_seq)] up to the end of its loop. *)
Definition decode_sequence_run (fuel : nat) (input_seq : ndarray3 F)
    : option (result loop_state) :=
  match sampling_init input_seq with
  | Ok st => sampling_loop fuel st
  | Raise e => Some (Raise e)
  end.

(** [decode_sequence(input_seq)] *)
Definition decode_sequence (fuel : nat) (input_seq : ndarray3 F)
    : option (result text) :=
  match decode_sequence_run fuel input_seq with
  | Some (Ok st) => Some (Ok (decoded_sentence st))
  | Some (Raise e) => Some (Raise e)
  | None => None
  end.
End Decode.
End Model.

Arguments lstm_state : clear implicits.
Arguments layer : clear implicits.
Arguments loop_state : clear implicits.
Arguments predict_call : clear implicits.
Arguments encoder_model_t : clear implicits.
Arguments decoder_model_t : clear implicits.

(** ** Definitions used to state the properties *)

(** The [k]-th tab-separated field of a line. *)
Definition field (k : nat) (line : text) : text := default [] (split TAB line !! k).

(** The target text the loader makes of a line. *)
Definition marked_target (line : text) : text := [TAB] ++ field 1 line ++ [NL].

(** What the loading loop guarantees about the corpus it returns. *)
Record loaded (c : corpus) : Prop := Loaded {
  loaded_length : length (input_texts c) = length (target_texts c);
  loaded_marks :
    Forall (λ txt, ∃ body, txt = [TAB] ++ body ++ [NL]) (target_texts c);
  loaded_input_set : input_character_set c = list_to_set (mjoin (input_texts c));
  loaded_target_set : target_character_set c = list_to_set (mjoin (target_texts c))
}.

(** The token of a character under an index. *)
Definition tok (index : gmap char nat) (c : char) : nat := default 0 (index !! c).

Section Helpers.
Context {F : Type} `{!Scalar F}.

Definition dim0 (a : ndarray3 F) : nat := (shape a).1.1.
Definition dim1 (a : ndarray3 F) : nat := (shape a).1.2.
Definition dim2 (a : ndarray3 F) : nat := (shape a).2.

(** The entries of an array fit its shape. *)
Definition well_shaped (a : ndarray3 F) : Prop :=
  length (cells a) = dim0 a
  ∧ Forall (λ m, length m = dim1 a ∧ Forall (λ row : list F, length row = dim2 a) m)
           (cells a).

(** A row is exactly one-hot: [1.0] at one position, [0.0] at the others. *)
Definition is_one_hot (V : nat) (row : list F) : Prop :=
  ∃ k, k < V ∧ row = one_hot V k.

(** The effect of a character loop that always succeeds. *)
Section Fold.
Context {A : Type}.
Variable okb : nat → char → bool.
Variable step : nat → char → A → A.

Fixpoint all_ok (start : nat) (txt : text) : bool :=
  match txt with
  | [] => true
  | c :: txt' => okb start c && all_ok (S start) txt'
  end.

Fixpoint fold_enumerate (start : nat) (txt : text) (acc : A) : A :=
  match txt with
  | [] => acc
  | c :: txt' => fold_enumerate (S start) txt' (step start c acc)
  end.
End Fold.

Definition last_index (start : nat) (txt : text) (t : option nat) : option nat :=
  match txt with
  | [] => t
  | _ :: _ => Some (start + length txt - 1)
  end.

(** The checks one assignment [a[i, t, index[c]] = 1.0] has to pass on an
    array of shape [shp]. *)
Definition index_ok (index : gmap char nat) (shp : nat * nat * nat) (i t : nat)
    (c : char) : bool :=
  match index !! c with
  | Some k => (i <? shp.1.1) && (t <? shp.1.2) && (k <? shp.2)
  | None => false
  end.

(** On the rows of one example: the rows [start ..] receive the tokens of
    [txt], one character per row. *)
Fixpoint paint (index : gmap char nat) (start : nat) (txt : text)
    (m : list (list F)) : list (list F) :=
  match txt with
  | [] => m
  | c :: txt' => paint index (S start) txt' (alter (<[tok index c := fone]>) start m)
  end.

(** On the rows of one example: the rows [from ..] receive token [k]. *)
Definition fill (from k : nat) (m : list (list F)) : list (list F) :=
  take from m ++ (<[k := fone]> <$> drop from m).

(** What lets the encoding of one sentence pair go through: the indices
    are inside the arrays, the characters and the space have tokens, and
    [t] is bound when the padding of the input text reads it. *)
Definition pair_ok (input_token_index target_token_index : gmap char nat)
    (i : nat) (input_text target_text : text) (st : vstate F) : Prop :=
  (i < dim0 (enc st) ∧ length input_text ≤ dim1 (enc st)
   ∧ Forall (λ c, ∃ k, input_token_index !! c = Some k ∧ k < dim2 (enc st))
            (SPACE :: input_text))
  ∧ is_Some (last_index 0 input_text (t_var st))
  ∧ (i < dim0 (dec_in st) ∧ length target_text ≤ dim1 (dec_in st)
     ∧ Forall (λ c, ∃ k, target_token_index !! c = Some k ∧ k < dim2 (dec_in st))
              (SPACE :: target_text)).

(** The rows of one example after its input text, its target text, and
    its target text without the start character were encoded. *)
Definition encoder_rows (index : gmap char nat) (txt : text)
    (m : list (list F)) : list (list F) :=
  fill (length txt - 1 + 1) (tok index SPACE) (paint index 0 txt m).
Definition decoder_input_rows (index : gmap char nat) (txt : text)
    (m : list (list F)) : list (list F) :=
  fill (length txt) (tok index SPACE) (paint index 0 txt m).
Definition decoder_target_rows (index : gmap char nat) (txt : text)
    (m : list (list F)) : list (list F) :=
  fill (length txt - 1) (tok index SPACE) (paint index 0 (tail txt) m).

(** Example [j] of an array whose examples [i ..] were rewritten by [f],
    one item of [items] each. *)
Definition rewritten {A} (f : A → list (list F) → list (list F)) (i : nat)
    (items : list A) (cells0 : list (list (list F))) (j : nat)
    : option (list (list F)) :=
  match (if decide (i ≤ j) then items !! (j - i) else None) with
  | Some x => f x <$> cells0 !! j
  | None => cells0 !! j
  end.

(** What lets the encoding of all sentence pairs from example [i] on go
    through. *)
Definition loop_ok (input_token_index target_token_index : gmap char nat)
    (i : nat) (pairs : list (text * text)) (st : vstate F) : Prop :=
  i + length pairs ≤ dim0 (enc st) ∧ i + length pairs ≤ dim0 (dec_in st)
  ∧ Forall (λ p : text * text,
      p.1 ≠ [] ∧ length p.1 ≤ dim1 (enc st)
      ∧ Forall (λ c, ∃ k, input_token_index !! c = Some k ∧ k < dim2 (enc st))
               (SPACE :: p.1)
      ∧ length p.2 ≤ dim1 (dec_in st)
      ∧ Forall (λ c, ∃ k, target_token_index !! c = Some k ∧ k < dim2 (dec_in st))
               (SPACE :: p.2)) pairs.

(** The one-hot row for timestep [t] of a text padded with spaces. *)
Definition padded_row (index : gmap char nat) (V : nat) (txt : text) (t : nat)
    : list F :=
  one_hot V (tok index (default SPACE (txt !! t))).

(** The row is the one-hot vector of the token of character [ch]. *)
Definition encodes (index : gmap char nat) (V : nat) (ch : char) (row : list F)
    : Prop :=
  ∃ k, index !! ch = Some k ∧ k < V ∧ row = one_hot V k.

(** How the bindings of the data-preparation cell relate to the corpus. *)
Record prepared (c : corpus) (d : dataset F) : Prop := Prepared {
  prep_texts : texts d = c;
  prep_input_characters : input_characters d = sorted (input_character_set c);
  prep_target_characters : target_characters d = sorted (target_character_set c);
  prep_num_encoder_tokens : num_encoder_tokens d = length (input_characters d);
  prep_num_decoder_tokens : num_decoder_tokens d = length (target_characters d);
  prep_max_encoder :
    py_max (length <$> input_texts c) = Ok (max_encoder_seq_length d);
  prep_max_decoder :
    py_max (length <$> target_texts c) = Ok (max_decoder_seq_length d);
  prep_input_index : input_token_index d = token_index (input_characters d);
  prep_target_index : target_token_index d = token_index (target_characters d);
  prep_encoder_shape :
    shape (encoder_input_data d)
    = (length (input_texts c), max_encoder_seq_length d, num_encoder_tokens d);
  prep_decoder_input_shape :
    shape (decoder_input_data d)
    = (length (input_texts c), max_decoder_seq_length d, num_decoder_tokens d);
  prep_decoder_target_shape :
    shape (decoder_target_data d)
    = (length (input_texts c), max_decoder_seq_length d, num_decoder_tokens d);
  prep_encoder_well_shaped : well_shaped (encoder_input_data d);
  prep_decoder_input_well_shaped : well_shaped (decoder_input_data d);
  prep_decoder_target_well_shaped : well_shaped (decoder_target_data d);
  prep_input_space : is_Some (input_token_index d !! SPACE);
  prep_target_space : is_Some (target_token_index d !! SPACE);
  prep_decoder_input :
    ∀ i txt t, target_texts c !! i = Some txt → t < max_decoder_seq_length d →
      slice2 (decoder_input_data d) i t
      = Some (padded_row (target_token_index d) (num_decoder_tokens d) txt t);
  prep_decoder_target :
    ∀ i txt t, target_texts c !! i = Some txt → t < max_decoder_seq_length d →
      slice2 (decoder_target_data d) i t
      = Some (padded_row (target_token_index d) (num_decoder_tokens d) (tail txt) t);
  prep_encoder :
    Forall (λ txt, txt ≠ []) (input_texts c) →
    ∀ i txt t, input_texts c !! i = Some txt → t < max_encoder_seq_length d →
      slice2 (encoder_input_data d) i t
      = Some (padded_row (input_token_index d) (num_encoder_tokens d) txt t)
}.
End Helpers.

(** The comparison of the scalars is a strict weak order (as [>] is on
    numbers that are not NaN): irreflexive, transitive, and whatever is not
    below [a] is above everything [a] is above. *)
Definition strict_weak_order (F : Type) `{!Scalar F} : Prop :=
  (∀ a : F, fgtb a a = false)
  ∧ (∀ a b c : F, fgtb a b = true → fgtb b c = true → fgtb a c = true)
  ∧ (∀ a b c : F, fgtb a b = true → fgtb a c = true ∨ fgtb c b = true).

(** ** Greedy decoding as the specification describes it *)

(** The position of the first occurrence of a character in a list. *)
Fixpoint position (ch : char) (chars : list char) : nat :=
  match chars with
  | [] => 0
  | c :: chars' => if N.eqb c ch then 0 else S (position ch chars')
  end.

Section GreedySpec.
Context {F : Type} `{!Scalar F} {St : Type}.

(** One decoder step: from the token fed in and the state to the output
    distribution and the updated state. *)
Variable decoder_step : nat → St → list F * St.
(** The character of a token. *)
Variable char_of_token : nat → char.

(** No entry of the distribution is greater than [x]. *)
Definition highest (dist : list F) (x : F) : bool :=
  forallb (λ y, negb (fgtb y x)) dist.

(** The first position, counting from [i], at which [rest] holds an entry
    that is highest in [dist]. *)
Fixpoint first_highest (dist : list F) (i : nat) (rest : list F) : option nat :=
  match rest with
  | [] => None
  | x :: rest' =>
      if highest dist x then Some i else first_highest dist (S i) rest'
  end.

(** The arg-max of a distribution: the first position of a highest entry. *)
Definition arg_max (dist : list F) : nat :=
  default 0 (first_highest dist 0 dist).

(** Starting from a token and a state: run one decoder step, take the
    arg-max of the output distribution, append its character, and go on
    from that token and the updated state, until the end marker was
    appended or [cap] characters were. *)
Fixpoint greedy_decode (cap : nat) (token : nat) (state : St) : text :=
  match cap with
  | 0 => []
  | S cap' =>
      let '(dist, state') := decoder_step token state in
      let next := arg_max dist in
      let ch := char_of_token next in
      if N.eqb ch NL then [ch] else ch :: greedy_decode cap' next state'
  end.
End GreedySpec.

Section GreedyInstance.
Context {F : Type} `{!Scalar F}.
Variable d : dataset F.
Variable decoder_model : decoder_model_t F.

(** The decoder step of the notebook: [decoder_model] on the one-token
    sequence holding the one-hot vector of the token. *)
Definition one_token_step (token : nat) (state : lstm_state F)
    : list F * lstm_state F :=
  let '(output_tokens, state') :=
    decoder_model [one_hot (num_decoder_tokens d) token] state in
  (default [] (last output_tokens), state').

(** The character of a token: the one at that position of the sorted
    target vocabulary. *)
Definition vocabulary_char (token : nat) : char :=
  default 0%N (target_characters d !! token).

(** The token of the start character: its position in the sorted target
    vocabulary. *)
Definition start_token : nat := position TAB (target_characters d).

(** The array [np.zeros((1, 1, num_decoder_tokens))] with a one at [token]. *)
Definition one_token_seq (token : nat) : ndarray3 F :=
  {| shape := (1, 1, num_decoder_tokens d);
     cells := [[one_hot (num_decoder_tokens d) token]] |}.

(** The calls made so far thread the state: the first receives [s0], each
    later one what the call before returned, and [s] is what the last
    returned; each call is one application of [decoder_model]. *)
Inductive threaded (s0 : lstm_state F) : list (predict_call F) → lstm_state F → Prop :=
| threaded_nil : threaded s0 [] s0
| threaded_snoc cs s c :
    threaded s0 cs s →
    call_states_in c = s →
    decoder_model (call_target_seq c) (call_states_in c)
    = (call_output_tokens c, call_states_out c) →
    threaded s0 (cs ++ [c]) (call_states_out c).
End GreedyInstance.

(** The lengths the sampling loop maintains: one character per call made;
    while the loop runs the sentence is within the cap; once it stopped the
    sentence ends with the end marker or has just passed the cap. *)
Definition loop_lengths {F} `{!Scalar F} (d : dataset F) (st : loop_state F) : Prop :=
  length (decoded_sentence st) = length (calls st)
  ∧ (stop_condition st = false →
       length (decoded_sentence st) ≤ max_decoder_seq_length d)
  ∧ (stop_condition st = true →
       decoded_sentence st ≠ []
       ∧ length (decoded_sentence st) ≤ max_decoder_seq_length d + 1
       ∧ (last (decoded_sentence st) = Some NL
          ∨ length (decoded_sentence st) = max_decoder_seq_length d + 1)).

(** The two vectors of a state have the size of the latent space. *)
Definition state_sized {F} (units : nat) (st : lstm_state F) : Prop :=
  length st.1 = units ∧ length st.2 = units.

(** ** A sample corpus and stand-in layers *)

Definition Q_scalar : Scalar Q :=
  {| fzero := 0%Q; fone := 1%Q; fgtb := λ x y, negb (Qle_bool x y) |}.

Definition tsv (fields : list string) : text :=
  match fields with
  | [] => []
  | f :: fs => str f ++ foldr (λ g acc, TAB :: str g ++ acc) [NL] fs
  end.

Definition sample_file : text :=
  tsv ["Go."; "Va !"; "cc"]%string ++ tsv ["Hi."; "Salut !"; "cc"]%string
  ++ tsv ["I am."; "Je suis."; "cc"]%string.

Section Sample.
#[local] Existing Instance Q_scalar.

(** Stand-ins for trained layers: the cells swap the two state vectors, the
    dense layer always prefers token [3] of [V]. *)
Definition toy_cell : list Q → lstm_state Q → lstm_state Q := λ _ st, (st.2, st.1).
Definition toy_dense (V : nat) : list Q → list Q := λ _, one_hot V 3.

(** The inference models the sampling cell builds from these layers. *)
Definition toy_encoder_model : encoder_model_t Q :=
  λ encoder_inputs, (lstm_call toy_cell (zero_state latent_dim) encoder_inputs).2.
Definition toy_decoder_model (V : nat) : decoder_model_t Q :=
  λ decoder_inputs decoder_states_inputs,
    let '(decoder_outputs, decoder_states) :=
      lstm_call toy_cell decoder_states_inputs decoder_inputs in
    (toy_dense V <$> decoder_outputs, decoder_states).

(** What the data-preparation cell binds on the sample file. *)
Definition no_dataset : dataset Q :=
  {| texts := empty_corpus;
     input_characters := []; target_characters := [];
     num_encoder_tokens := 0; num_decoder_tokens := 0;
     max_encoder_seq_length := 0; max_decoder_seq_length := 0;
     input_token_index := ∅; target_token_index := ∅;
     encoder_input_data := np_zeros (0, 0, 0);
     decoder_input_data := np_zeros (0, 0, 0);
     decoder_target_data := np_zeros (0, 0, 0) |}.
Definition sample_dataset : dataset Q :=
  Eval vm_compute in
    match prepare_data num_samples sample_file with
    | Ok d => d
    | Raise _ => no_dataset
    end.
Definition sample_corpus : corpus := Eval vm_compute in texts sample_dataset.

(** Decoding the first sentence of the sample file with the stand-ins. *)
Definition sample_input_seq : ndarray3 Q :=
  Eval vm_compute in slice_example (encoder_input_data sample_dataset) 0.
Definition toy_decode_run (fuel : nat) : option (result (loop_state Q)) :=
  decode_sequence_run sample_dataset toy_encoder_model
    (toy_decoder_model (num_decoder_tokens sample_dataset)) fuel sample_input_seq.
Definition toy_decode (fuel : nat) : option (result text) :=
  decode_sequence sample_dataset toy_encoder_model
    (toy_decoder_model (num_decoder_tokens sample_dataset)) fuel sample_input_seq.
Definition toy_final_state : loop_state Q :=
  Eval vm_compute in
    match toy_decode_run 12 with
    | Some (Ok st) => st
    | _ => {| target_seq := np_zeros (0, 0, 0); states_value := ([], []);
              stop_condition := true; decoded_sentence := []; calls := [] |}
    end.
End Sample.

(** ** Further definitions used to state properties *)

(** [sep.join(fields)] *)
Fixpoint join (sep : char) (fields : list text) : text :=
  match fields with
  | [] => []
  | [f] => f
  | f :: fields' => f ++ sep :: join sep fields'
  end.

(** The number of occurrences of a character in a text. *)
Definition occurrences (c : char) (s : text) : nat :=
  length (filter (λ x, x = c) s).

Section FurtherHelpers.
Context {F : Type} `{!Scalar F}.

(** The assignments made for text [txt] of example [i] stay inside array
    [a]: the example and the timesteps exist, and the tokens of the
    characters, and of the space if it has one, are below the last axis. *)
Definition fits (index : gmap char nat) (i : nat) (txt : text) (a : ndarray3 F)
    : Prop :=
  i < dim0 a ∧ length txt ≤ dim1 a
  ∧ Forall (λ c, ∃ k, index !! c = Some k ∧ k < dim2 a) txt
  ∧ (∀ k, index !! SPACE = Some k → k < dim2 a).

(** The value of [t] on entry to each input text: what it was before the
    first, and after each pair the last position of its target text. *)
Fixpoint entering (t : option nat) (pairs : list (text * text))
    : list (option nat * text) :=
  match pairs with
  | [] => []
  | (input_text, target_text) :: pairs' =>
      (t, input_text) :: entering (Some (length target_text - 1)) pairs'
  end.

(** The rows of one example after its input text was encoded, [t] having
    value [t0] on entry. *)
Definition encoder_rows_from (index : gmap char nat) (t0 : option nat) (txt : text)
    (m : list (list F)) : list (list F) :=
  fill (default 0 (last_index 0 txt t0) + 1) (tok index SPACE) (paint index 0 txt m).

(** [reverse[np.argmax(row)]]: the character a row stands for. *)
Definition row_char (reverse : gmap nat char) (row : list F) : result char :=
  k ← np_argmax row; getitem reverse k.
End FurtherHelpers.

Section Reaches.
Context {F : Type} `{!Scalar F}.
Variable d : dataset F.
Variable decoder_model : decoder_model_t F.

(** The states the sampling loop goes through from [st0]: [st0] itself,
    and the state after one more iteration from a state in which the loop
    has not stopped. *)
Inductive reaches (st0 : loop_state F) : loop_state F → Prop :=
| reaches_start : reaches st0 st0
| reaches_next st st' :
    reaches st0 st →
    stop_condition st = false →
    sampling_step d decoder_model st = Ok st' →
    reaches st0 st'.
End Reaches.

(** A corpus whose second input text is empty. *)
Definition stale_file : text :=
  tsv ["Run fast!"; "Va !"; "cc"]%string ++ tsv [EmptyString; "Salut !"; "cc"]%string.

(** The first two lines of the sample file with other third fields, followed
    by a line without tabs. *)
Definition annotated_file : text :=
  tsv ["Go."; "Va !"; "zz"]%string ++ tsv ["Hi."; "Salut !"; EmptyString]%string
  ++ tsv ["no tabs here"]%string.

(** A corpus whose input vocabulary starts below the space (with the control
    character U+0001) and whose second input text is empty. *)
Definition control_file : text :=
  [1%N] ++ str " a" ++ [TAB] ++ str "b c" ++ [TAB] ++ str "x" ++ [NL]
  ++ [TAB] ++ str "d" ++ [TAB] ++ str "x" ++ [NL].

Section FurtherSample.
#[local] Existing Instance Q_scalar.

Definition stale_dataset : dataset Q :=
  Eval vm_compute in
    match prepare_data num_samples stale_file with
    | Ok d => d
    | Raise _ => no_dataset
    end.

Definition control_dataset : dataset Q :=
  Eval vm_compute in
    match prepare_data num_samples control_file with
    | Ok d => d
    | Raise _ => no_dataset
    end.

(** Stand-ins for layers that fit the first sentence pair of the sample
    file: the decoder cell hands its input row on as the hidden vector,
    and the dense layer prefers the token that follows, in the first
    target text, the token its input row prefers. *)
Definition copy_cell : list Q → lstm_state Q → lstm_state Q := λ x st, (x, st.2).
Definition next_token (k : nat) : nat :=
  match k with
  | 0 => 7
  | 7 => 8
  | 8 => 2
  | 2 => 3
  | _ => 1
  end.
Definition next_dense (V : nat) : list Q → list Q :=
  λ row, one_hot V (next_token (arg_max row)).
Definition fitted_decoder_model : decoder_model_t Q :=
  λ decoder_inputs decoder_states_inputs,
    let '(decoder_outputs, decoder_states) :=
      lstm_call copy_cell decoder_states_inputs decoder_inputs in
    (next_dense 15 <$> decoder_outputs, decoder_states).

(** A decoder whose output rows are wider than the target vocabulary. *)
Definition wide_decoder_model : decoder_model_t Q :=
  λ _ decoder_states_inputs, ([one_hot 20 17], decoder_states_inputs).
End FurtherSample.
(** * Properties *)

Example split_three :
  split TAB (str "Go." ++ [TAB] ++ str "Va !" ++ [TAB] ++ str "CC-BY")
  = [str "Go."; str "Va !"; str "CC-BY"].
Proof. reflexivity. Qed.

(** ** The exception monad *)

Lemma getitem_Ok `{Countable K} {V} (d : gmap K V) (k : K) (v : V) :
  getitem d k = Ok v ↔ d !! k = Some v.
Proof. unfold getitem. destruct (d !! k); split; congruence. Qed.

Lemma getitem_Some `{Countable K} {V} (d : gmap K V) (k : K) (v : V) :
  d !! k = Some v → getitem d k = Ok v.
Proof. by intros ?%getitem_Ok. Qed.

Lemma getitem_None `{Countable K} {V} (d : gmap K V) (k : K) :
  d !! k = None → getitem d k = Raise KeyError.
Proof. unfold getitem. by intros ->. Qed.

(** ** Loading *)

Lemma split_nonempty sep s : split sep s ≠ [].
Proof.
  destruct s as [|c s]; simpl; [done|].
  destruct (N.eqb c sep); [done|]. by destruct (split sep s).
Qed.

Lemma slice_to_nonneg {A} (l : list A) (k : Z) :
  (0 ≤ k)%Z → slice_to l k = take (Z.to_nat k) l.
Proof. intros Hk. unfold slice_to. destruct (Z.leb_spec 0 k); [done | lia]. Qed.

Lemma add_characters_union txt chars :
  add_characters txt chars = chars ∪ list_to_set txt.
Proof.
  unfold add_characters. revert chars.
  induction txt as [|c txt IH]; intros chars; simpl.
  - set_solver.
  - rewrite IH. case_decide; set_solver.
Qed.

Lemma read_line_spec line st :
  match read_line line st with
  | Ok st' =>
      length (split TAB line) = 3
      ∧ input_texts st' = input_texts st ++ [field 0 line]
      ∧ target_texts st' = target_texts st ++ [marked_target line]
      ∧ input_character_set st' = input_character_set st ∪ list_to_set (field 0 line)
      ∧ target_character_set st'
        = target_character_set st ∪ list_to_set (marked_target line)
  | Raise e => e = ValueError ∧ length (split TAB line) ≠ 3
  end.
Proof.
  unfold read_line, marked_target, field.
  destruct (split TAB line) as [|a [|b [|c [|? ?]]]];
    cbn -[add_characters app]; try (split; [done|lia]).
  by rewrite !add_characters_union.
Qed.

Lemma read_lines_spec lines st :
  match read_lines lines st with
  | Ok st' =>
      Forall (λ line, length (split TAB line) = 3) lines
      ∧ input_texts st' = input_texts st ++ (field 0 <$> lines)
      ∧ target_texts st' = target_texts st ++ (marked_target <$> lines)
      ∧ input_character_set st'
        = input_character_set st ∪ list_to_set (mjoin (field 0 <$> lines))
      ∧ target_character_set st'
        = target_character_set st ∪ list_to_set (mjoin (marked_target <$> lines))
  | Raise e => e = ValueError ∧ Exists (λ line, length (split TAB line) ≠ 3) lines
  end.
Proof.
  revert st. induction lines as [|line lines IH]; intros st; simpl.
  - rewrite !app_nil_r. split; [done|]. set_solver.
  - pose proof (read_line_spec line st) as Hl.
    destruct (read_line line st) as [st1|e]; simpl.
    + destruct Hl as (H3 & Hi & Ht & Hic & Htc).
      specialize (IH st1). destruct (read_lines lines st1) as [st2|e].
      * destruct IH as (Hall & Hi2 & Ht2 & Hic2 & Htc2).
        split; [by constructor|].
        rewrite Hi2, Ht2, Hic2, Htc2, Hi, Ht, Hic, Htc, <- !(assoc_L (++)).
        repeat split; try done; rewrite list_to_set_app_L; set_solver.
      * destruct IH as [-> Hex]. split; [done|]. by apply Exists_cons_tl.
    + destruct Hl as [-> Hne]. split; [done|]. by apply Exists_cons_hd.
Qed.

Lemma load_corpus_spec nsamples content :
  let lines := processed_lines nsamples (split NL content) in
  match load_corpus nsamples content with
  | Ok c =>
      Forall (λ line, length (split TAB line) = 3) lines
      ∧ input_texts c = field 0 <$> lines
      ∧ target_texts c = marked_target <$> lines
      ∧ input_character_set c = list_to_set (mjoin (input_texts c))
      ∧ target_character_set c = list_to_set (mjoin (target_texts c))
  | Raise e => e = ValueError ∧ Exists (λ line, length (split TAB line) ≠ 3) lines
  end.
Proof.
  intros lines. unfold load_corpus. fold lines.
  pose proof (read_lines_spec lines empty_corpus) as Hspec.
  destruct (read_lines lines empty_corpus) as [c|e]; [|done].
  destruct Hspec as (Hall & Hi & Ht & Hic & Htc). simpl in *.
  rewrite Hi, Ht. repeat split; try done; set_solver.
Qed.

Lemma load_corpus_loaded nsamples content c :
  load_corpus nsamples content = Ok c → loaded c.
Proof.
  intros Hload. pose proof (load_corpus_spec nsamples content) as Hspec.
  rewrite Hload in Hspec. simpl in Hspec.
  destruct Hspec as (_ & Hi & Ht & Hic & Htc).
  split; try done.
  - by rewrite Hi, Ht, !length_fmap.
  - rewrite Ht. apply Forall_fmap, Forall_true. intros line.
    by exists (field 1 line).
Qed.

Lemma foldl_max_ge (l : list nat) (x : nat) :
  x ≤ foldl Nat.max x l ∧ Forall (λ y, y ≤ foldl Nat.max x l) l.
Proof.
  revert x. induction l as [|y l IH]; intros x; simpl; [done|].
  destruct (IH (x `max` y)) as [Hx Hall].
  split; [lia|]. constructor; [lia|done].
Qed.

Lemma py_max_spec (l : list nat) :
  match py_max l with
  | Ok m => l ≠ [] ∧ Forall (λ x, x ≤ m) l
  | Raise _ => l = []
  end.
Proof.
  destruct l as [|x l]; simpl; [done|]. split; [done|].
  destruct (foldl_max_ge l x). by constructor.
Qed.

(** ** Vocabularies *)

Lemma sorted_elem_of chars c : c ∈ sorted chars ↔ c ∈ chars.
Proof. unfold sorted. by rewrite merge_sort_Permutation, elem_of_elements. Qed.

Lemma sorted_NoDup chars : NoDup (sorted chars).
Proof. unfold sorted. rewrite merge_sort_Permutation. apply NoDup_elements. Qed.

Lemma sorted_increasing chars : StronglySorted N.lt (sorted chars).
Proof.
  pose proof (sorted_NoDup chars) as Hnd.
  assert (StronglySorted N.le (sorted chars)) as Hle
    by apply (StronglySorted_merge_sort N.le).
  induction Hle as [|c l Hl IH Hall]; [constructor|].
  apply NoDup_cons in Hnd as [Hc Hnd].
  constructor; [by apply IH|].
  rewrite Forall_forall in Hall |- *. intros c' Hc'.
  specialize (Hall _ Hc'). assert (c ≠ c') by (intros ->; done). lia.
Qed.

Lemma dict_snoc `{Countable K} {V} (pairs : list (K * V)) k v :
  dict (pairs ++ [(k, v)]) = <[k := v]> (dict pairs).
Proof. unfold dict. by rewrite foldl_app. Qed.

Lemma dict_lookup `{Countable K} {V} (pairs : list (K * V)) k v :
  NoDup pairs.*1 → dict pairs !! k = Some v ↔ (k, v) ∈ pairs.
Proof.
  induction pairs as [|[k' v'] pairs IH] using rev_ind; intros Hnd.
  - unfold dict. simpl. rewrite lookup_empty. set_solver.
  - rewrite fmap_app in Hnd. apply NoDup_app in Hnd as (Hnd & Hdisj & _).
    rewrite dict_snoc, elem_of_app, list_elem_of_singleton.
    destruct (decide (k' = k)) as [->|Hne].
    + rewrite lookup_insert_eq. split.
      * intros [= ->]. by right.
      * intros [Hin|[= ->]]; [|done].
        exfalso. apply (Hdisj k); [|set_solver].
        apply list_elem_of_fmap. by exists (k, v).
    + rewrite lookup_insert_ne by done. rewrite IH by done.
      split; [by left|]. intros [?|[= ? ?]]; [done|congruence].
Qed.

Lemma token_index_lookup characters c i :
  NoDup characters →
  token_index characters !! c = Some i ↔ characters !! i = Some c.
Proof.
  intros Hnd. unfold token_index, enumerate. rewrite dict_lookup.
  - rewrite list_elem_of_fmap. split.
    + intros ([i' c'] & [= -> ->] & Hin).
      apply elem_of_lookup_imap in Hin as (j & y & [= -> ->] & Hj). done.
    + intros Hi. exists (i, c). split; [done|].
      apply elem_of_lookup_imap. eauto.
  - rewrite <- list_fmap_compose, fmap_imap.
    replace (imap _ characters) with characters; [done|].
    clear. transitivity (id <$> characters); [by rewrite list_fmap_id|].
    rewrite <- imap_const. by apply imap_ext.
Qed.

Lemma token_index_inj characters c1 c2 i :
  NoDup characters →
  token_index characters !! c1 = Some i →
  token_index characters !! c2 = Some i → c1 = c2.
Proof. intros Hnd. rewrite !token_index_lookup by done. congruence. Qed.

(** Every character of the set has a token below the vocabulary size. *)
Lemma vocabulary_token (chars : gset char) c :
  c ∈ chars →
  ∃ k, token_index (sorted chars) !! c = Some k ∧ k < length (sorted chars).
Proof.
  intros Hc. apply sorted_elem_of, list_elem_of_lookup in Hc as [k Hk].
  exists k. split; [|by eapply lookup_lt_Some].
  apply token_index_lookup; [apply sorted_NoDup|done].
Qed.

Lemma reverse_char_index_lookup (index : gmap char nat) i c :
  (∀ c1 c2 j, index !! c1 = Some j → index !! c2 = Some j → c1 = c2) →
  reverse_char_index index !! i = Some c ↔ index !! c = Some i.
Proof.
  intros Hinj. unfold reverse_char_index. rewrite dict_lookup.
  - rewrite list_elem_of_fmap. split.
    + intros ([c' i'] & [= -> ->] & Hin). by apply elem_of_map_to_list.
    + intros Hc. exists (c, i). split; [done|]. by apply elem_of_map_to_list.
  - rewrite <- list_fmap_compose. apply NoDup_fmap_2_strong; [|apply NoDup_map_to_list].
    intros [c1 j1] [c2 j2] H1 H2. simpl. intros <-.
    apply elem_of_map_to_list in H1, H2. f_equal. eauto.
Qed.

(** ** Arrays *)

Section ArrayFacts.
Context {F : Type} `{!Scalar F}.
Implicit Types (a : ndarray3 F) (m : list (list F)) (row : list F).

Lemma setitem3_eq a i t k v :
  setitem3 a i t k v =
    if (i <? dim0 a) && (t <? dim1 a) && (k <? dim2 a)
    then Ok {| shape := shape a; cells := alter (alter (<[k := v]>) t) i (cells a) |}
    else Raise IndexError.
Proof. unfold setitem3, dim0, dim1, dim2. by destruct (shape a) as [[n T] V]. Qed.

Lemma setslice3_eq a i from k v :
  setslice3 a i from k v =
    if (i <? dim0 a) && (k <? dim2 a)
    then Ok {| shape := shape a;
               cells := alter (λ m, take from m ++ (<[k := v]> <$> drop from m))
                              i (cells a) |}
    else Raise IndexError.
Proof. unfold setslice3, dim0, dim2. by destruct (shape a) as [[n T] V]. Qed.

Lemma np_zeros_well_shaped n T V : well_shaped (np_zeros (n, T, V)).
Proof.
  unfold well_shaped, dim0, dim1, dim2. simpl. split; [by rewrite length_replicate|].
  apply Forall_replicate. split; [by rewrite length_replicate|].
  apply Forall_replicate. by rewrite length_replicate.
Qed.

Lemma one_hot_length V k : length (one_hot V k) = V.
Proof. unfold one_hot. by rewrite length_insert, length_replicate. Qed.

(** ** The loops over the characters of a text *)

Section ForEnumerate.
Context {A : Type} (Inv : A → Prop).
Variable body : nat → char → A → result A.
Variable okb : nat → char → bool.
Variable step : nat → char → A → A.
Hypothesis body_ok :
  ∀ t c acc, Inv acc → okb t c = true →
    body t c acc = Ok (step t c acc) ∧ Inv (step t c acc).
Hypothesis body_fail :
  ∀ t c acc, Inv acc → okb t c = false → ∃ e, body t c acc = Raise e.

Lemma for_enumerate_spec txt start acc t :
  Inv acc →
  match for_enumerate body start txt acc t with
  | Ok (acc', t') =>
      all_ok okb start txt = true
      ∧ acc' = fold_enumerate step start txt acc
      ∧ t' = last_index start txt t
      ∧ Inv acc'
  | Raise _ => all_ok okb start txt = false
  end.
Proof.
  revert start acc t. induction txt as [|c txt IH]; intros start acc t Hinv; simpl.
  - done.
  - destruct (okb start c) eqn:Hok.
    + destruct (body_ok start c acc Hinv Hok) as [-> Hinv']. simpl.
      specialize (IH (S start) (step start c acc) (Some start) Hinv').
      destruct (for_enumerate _ _ _ _ _) as [[acc' t']|e]; [|done].
      destruct IH as (? & ? & -> & ?). repeat split; try done.
      destruct txt; simpl; f_equal; lia.
    + destruct (body_fail start c acc Hinv Hok) as [e ->]. done.
Qed.
End ForEnumerate.
End ArrayFacts.

(** ** One-hot encoding *)

Section VectorizeFacts.
Context {F : Type} `{!Scalar F}.
Implicit Types (a : ndarray3 F) (m : list (list F)) (row : list F).
Implicit Types (index : gmap char nat) (txt : text).

Lemma paint_length index txt start m : length (paint index start txt m) = length m.
Proof.
  revert start m. induction txt as [|c txt IH]; intros start m; simpl; [done|].
  by rewrite IH, length_alter.
Qed.

Lemma paint_lookup index txt start m t :
  paint index start txt m !! t =
    if decide (start ≤ t) then
      match txt !! (t - start) with
      | Some c => <[tok index c := fone]> <$> m !! t
      | None => m !! t
      end
    else m !! t.
Proof.
  revert start m. induction txt as [|c txt IH]; intros start m; simpl.
  - by case_decide.
  - rewrite IH. destruct (decide (start = t)) as [->|Hne].
    + rewrite decide_False, decide_True by lia.
      replace (t - t) with 0 by lia. simpl. apply list_lookup_alter_eq.
    + rewrite list_lookup_alter_ne by done.
      repeat case_decide; try lia; [|done].
      replace (t - start) with (S (t - S start)) by lia. done.
Qed.

Lemma fill_length from k m : length (fill from k m) = length m.
Proof.
  unfold fill. rewrite length_app, length_fmap, length_take, length_drop. lia.
Qed.

Lemma fill_lookup from k m t :
  fill from k m !! t =
    if decide (from ≤ t) then <[k := fone]> <$> m !! t else m !! t.
Proof.
  unfold fill. rewrite lookup_app, lookup_take.
  repeat case_decide; try lia.
  - destruct (m !! t) eqn:Hm; [done|]. apply lookup_ge_None in Hm.
    apply lookup_ge_None_2. rewrite length_fmap, length_drop. lia.
  - rewrite list_lookup_fmap, lookup_drop, length_take.
    destruct (decide (from ≤ length m)).
    + rewrite Nat.min_l by done. by replace (from + (t - from)) with t by lia.
    + rewrite !lookup_ge_None_2 by lia. done.
Qed.

(** The rows of one example once its text is encoded and padded. *)
Lemma encoded_rows_lookup index V T txt t :
  t < T → length txt ≤ T →
  fill (length txt) (tok index SPACE)
       (paint index 0 txt (replicate T (replicate V fzero))) !! t
  = Some (padded_row index V txt t).
Proof.
  intros Ht Hlen. rewrite fill_lookup, paint_lookup.
  rewrite (decide_True (P := 0 ≤ t)) by lia.
  replace (t - 0) with t by lia. unfold padded_row, one_hot.
  rewrite lookup_replicate_2 by done.
  destruct (txt !! t) as [c|] eqn:Hc.
  - apply lookup_lt_Some in Hc. by rewrite decide_False by lia.
  - apply lookup_ge_None in Hc. by rewrite decide_True by lia.
Qed.

Lemma fold_paint index i txt start a :
  fold_enumerate
    (λ t c a, {| shape := shape a;
                 cells := alter (alter (<[tok index c := fone]>) t) i (cells a) |})
    start txt a
  = {| shape := shape a; cells := alter (paint index start txt) i (cells a) |}.
Proof.
  revert start a. induction txt as [|c txt IH]; intros start a; simpl.
  - rewrite list_alter_id by done. by destruct a.
  - rewrite IH. simpl. by rewrite list_alter_alter_eq.
Qed.

Lemma index_ok_true index shp i t c :
  index_ok index shp i t c = true ↔
  ∃ k, index !! c = Some k ∧ i < shp.1.1 ∧ t < shp.1.2 ∧ k < shp.2.
Proof.
  unfold index_ok. destruct (index !! c) as [k|].
  - rewrite !andb_true_iff, !Nat.ltb_lt. naive_solver.
  - naive_solver.
Qed.

Lemma all_ok_true index shp i txt start :
  i < shp.1.1 → start + length txt ≤ shp.1.2 →
  Forall (λ c, ∃ k, index !! c = Some k ∧ k < shp.2) txt →
  all_ok (index_ok index shp i) start txt = true.
Proof.
  intros Hi. revert start. induction txt as [|c txt IH]; intros start Hlen Hall; simpl.
  - done.
  - apply Forall_cons in Hall as [(k & Hk & HkV) Hall]. simpl in Hlen.
    rewrite IH by (done || lia). rewrite andb_true_r.
    apply index_ok_true. exists k. repeat split; done || lia.
Qed.

Lemma setitem3_ok index shp i t c a :
  shape a = shp → index_ok index shp i t c = true →
  setitem3 a i t (tok index c) fone =
    Ok {| shape := shape a;
          cells := alter (alter (<[tok index c := fone]>) t) i (cells a) |}
  ∧ getitem index c = Ok (tok index c).
Proof.
  intros Hshape (k & Hk & ? & ? & ?)%index_ok_true.
  unfold getitem, tok. rewrite Hk. simpl.
  rewrite setitem3_eq. unfold dim0, dim1, dim2. rewrite Hshape.
  by rewrite !(proj2 (Nat.ltb_lt _ _)) by done.
Qed.

Lemma setitem3_fail index shp i t c a :
  shape a = shp → index_ok index shp i t c = false →
  ∃ e, (k ← getitem index c; setitem3 a i t k fone) = Raise e.
Proof.
  intros Hshape Hno. unfold index_ok in Hno. unfold getitem.
  destruct (index !! c) as [k|]; simpl; [|eauto].
  rewrite setitem3_eq. unfold dim0, dim1, dim2. rewrite Hshape, Hno. eauto.
Qed.

(** The loop over the input text. *)
Lemma encoder_loop_spec index i txt start a t :
  match for_enumerate
          (λ t char enc, k ← getitem index char; setitem3 enc i t k fone)
          start txt a t with
  | Ok (a', t') =>
      all_ok (index_ok index (shape a) i) start txt = true
      ∧ a' = {| shape := shape a; cells := alter (paint index start txt) i (cells a) |}
      ∧ t' = last_index start txt t
  | Raise _ => all_ok (index_ok index (shape a) i) start txt = false
  end.
Proof.
  pose proof (for_enumerate_spec (λ a', shape a' = shape a)
    (λ t char enc, k ← getitem index char; setitem3 enc i t k fone)
    (index_ok index (shape a) i)
    (λ t c a, {| shape := shape a;
                 cells := alter (alter (<[tok index c := fone]>) t) i (cells a) |}))
    as Hspec.
  specialize (Hspec) with (txt := txt) (start := start) (acc := a) (t := t).
  lapply Hspec; clear Hspec; [intros Hspec; lapply Hspec; clear Hspec|].
  - intros Hspec. specialize (Hspec eq_refl).
    destruct (for_enumerate _ _ _ _ _) as [[a' t']|e]; [|done].
    destruct Hspec as (Hok & -> & -> & _). by rewrite fold_paint.
  - intros t0 c acc Hshape Hno. by eapply setitem3_fail.
  - intros t0 c acc Hshape Hok.
    destruct (setitem3_ok index _ i t0 c acc Hshape Hok) as [Hset ->]. simpl.
    rewrite Hset. split; [done|]. by rewrite <- Hshape.
Qed.

Lemma fold_paint_pair index i txt s (di dt : ndarray3 F) :
  fold_enumerate
    (λ t c (dec : ndarray3 F * ndarray3 F),
       ({| shape := shape dec.1;
           cells := alter (alter (<[tok index c := fone]>) t) i (cells dec.1) |},
        if 0 <? t
        then {| shape := shape dec.2;
                cells := alter (alter (<[tok index c := fone]>) (t - 1)) i
                               (cells dec.2) |}
        else dec.2))
    (S s) txt (di, dt)
  = ({| shape := shape di; cells := alter (paint index (S s) txt) i (cells di) |},
     {| shape := shape dt; cells := alter (paint index s txt) i (cells dt) |}).
Proof.
  revert s di dt. induction txt as [|c txt IH]; intros s di dt; simpl.
  - rewrite !list_alter_id by done. by destruct di, dt.
  - rewrite IH. simpl. rewrite !list_alter_alter_eq.
    by replace (s - 0) with s by lia.
Qed.

(** The loop over the target text. *)
Lemma decoder_loop_spec index i txt (di dt : ndarray3 F) t :
  shape dt = shape di →
  match for_enumerate
          (λ t char (dec : ndarray3 F * ndarray3 F),
             k ← getitem index char;
             dec_in ← setitem3 dec.1 i t k fone;
             if 0 <? t
             then k' ← getitem index char;
                  dec_tgt ← setitem3 dec.2 i (t - 1) k' fone;
                  Ok (dec_in, dec_tgt)
             else Ok (dec_in, dec.2))
          0 txt (di, dt) t with
  | Ok (dec', t') =>
      all_ok (index_ok index (shape di) i) 0 txt = true
      ∧ dec'.1 = {| shape := shape di;
                    cells := alter (paint index 0 txt) i (cells di) |}
      ∧ dec'.2 = {| shape := shape dt;
                    cells := alter (paint index 0 (tail txt)) i (cells dt) |}
      ∧ t' = last_index 0 txt t
  | Raise _ => all_ok (index_ok index (shape di) i) 0 txt = false
  end.
Proof.
  intros Hdt.
  pose proof (for_enumerate_spec
    (λ dec : ndarray3 F * ndarray3 F, shape dec.1 = shape di ∧ shape dec.2 = shape di)
    (λ t char (dec : ndarray3 F * ndarray3 F),
       k ← getitem index char;
       dec_in ← setitem3 dec.1 i t k fone;
       if 0 <? t
       then k' ← getitem index char;
            dec_tgt ← setitem3 dec.2 i (t - 1) k' fone;
            Ok (dec_in, dec_tgt)
       else Ok (dec_in, dec.2))
    (index_ok index (shape di) i)
    (λ t c (dec : ndarray3 F * ndarray3 F),
       ({| shape := shape dec.1;
           cells := alter (alter (<[tok index c := fone]>) t) i (cells dec.1) |},
        if 0 <? t
        then {| shape := shape dec.2;
                cells := alter (alter (<[tok index c := fone]>) (t - 1)) i
                               (cells dec.2) |}
        else dec.2)))
    as Hspec.
  specialize (Hspec) with (txt := txt) (start := 0) (acc := (di, dt)) (t := t).
  lapply Hspec; clear Hspec; [intros Hspec; lapply Hspec; clear Hspec|].
  - intros Hspec. specialize (Hspec (conj eq_refl Hdt)).
    destruct (for_enumerate _ _ _ _ _) as [[dec' t']|e]; [|done].
    destruct Hspec as (Hok & -> & -> & _). split; [done|].
    destruct txt as [|c txt]; simpl.
    + rewrite !list_alter_id by done. by destruct di, dt.
    + rewrite fold_paint_pair. simpl. by rewrite !list_alter_alter_eq.
  - intros t0 c [di0 dt0] [Hs1 Hs2] Hno. simpl in *.
    destruct (setitem3_fail index _ i t0 c di0 Hs1 Hno) as [e He].
    unfold getitem in *. destruct (index !! c); simpl in *; [|eauto].
    rewrite He. eauto.
  - intros t0 c [di0 dt0] [Hs1 Hs2] Hok. simpl in *.
    destruct (setitem3_ok index _ i t0 c di0 Hs1 Hok) as [Hset ->]. simpl.
    rewrite Hset. simpl. destruct (0 <? t0) eqn:Ht0; [|done].
    assert (index_ok index (shape di) i (t0 - 1) c = true) as Hok'.
    { apply index_ok_true in Hok as (k & ? & ? & ? & ?).
      apply index_ok_true. exists k. repeat split; done || lia. }
    destruct (setitem3_ok index _ i (t0 - 1) c dt0 Hs2 Hok') as [Hset' _].
    simpl. by rewrite Hset'.
Qed.
(** One sentence pair. *)
Lemma vectorize_pair_spec in_idx tgt_idx i inp tgt (st : vstate F) :
  shape (dec_tgt st) = shape (dec_in st) → tgt ≠ [] →
  match vectorize_pair in_idx tgt_idx i inp tgt st with
  | Ok st' =>
      ∃ t1, last_index 0 inp (t_var st) = Some t1
      ∧ is_Some (in_idx !! SPACE) ∧ is_Some (tgt_idx !! SPACE)
      ∧ enc st' = {| shape := shape (enc st);
                     cells := alter (λ m, fill (t1 + 1) (tok in_idx SPACE)
                                               (paint in_idx 0 inp m))
                                    i (cells (enc st)) |}
      ∧ dec_in st' = {| shape := shape (dec_in st);
                        cells := alter (λ m, fill (length tgt) (tok tgt_idx SPACE)
                                                  (paint tgt_idx 0 tgt m))
                                       i (cells (dec_in st)) |}
      ∧ dec_tgt st' = {| shape := shape (dec_tgt st);
                         cells := alter (λ m, fill (length tgt - 1) (tok tgt_idx SPACE)
                                                   (paint tgt_idx 0 (tail tgt) m))
                                        i (cells (dec_tgt st)) |}
      ∧ t_var st' = Some (length tgt - 1)
  | Raise _ => ¬ pair_ok in_idx tgt_idx i inp tgt st
  end.
Proof.
  intros Hshape Htgt. unfold vectorize_pair, pair_ok, dim0, dim1, dim2, not.
  pose proof (encoder_loop_spec in_idx i inp 0 (enc st) (t_var st)) as He.
  destruct (for_enumerate _ 0 inp _ _) as [[e1 t1o]|err]; simpl.
  2: { intros ((? & ? & Hf) & _). apply Forall_cons in Hf as [_ ?].
       rewrite all_ok_true in He; done. }
  destruct He as (_ & -> & ->).
  destruct (last_index 0 inp (t_var st)) as [t1|] eqn:Hlast; simpl.
  2: { intros Hc. destruct Hc as (_ & Hs & _). by destruct Hs. }
  destruct (in_idx !! SPACE) as [sp|] eqn:Hsp;
    [rewrite (getitem_Some _ _ _ Hsp)|rewrite (getitem_None _ _ Hsp)]; simpl.
  2: { intros ((_ & _ & Hf) & _). apply Forall_cons in Hf as [(k & ? & _) _].
       congruence. }
  rewrite setslice3_eq. unfold dim0, dim2. simpl.
  destruct ((i <? _) && (sp <? _)) eqn:Hb; simpl.
  2: { intros ((? & _ & Hf) & _). apply Forall_cons in Hf as [(k & ? & ?) _].
       assert (k = sp) as -> by congruence.
       apply andb_false_iff in Hb as [Hb|Hb]; apply Nat.ltb_ge in Hb; lia. }
  pose proof (decoder_loop_spec tgt_idx i tgt (dec_in st) (dec_tgt st) (Some t1) Hshape)
    as Hd.
  destruct (for_enumerate _ 0 tgt _ _) as [[dec' t2o]|err]; simpl.
  2: { intros (_ & _ & (? & ? & Hf)). apply Forall_cons in Hf as [_ ?].
       rewrite all_ok_true in Hd; done. }
  destruct Hd as (_ & Hdi & Hdt & ->).
  assert (last_index 0 tgt (Some t1) = Some (length tgt - 1)) as ->
    by (by destruct tgt).
  simpl. destruct (tgt_idx !! SPACE) as [sp'|] eqn:Hsp';
    [rewrite (getitem_Some _ _ _ Hsp')|rewrite (getitem_None _ _ Hsp')]; simpl.
  2: { intros (_ & _ & (_ & _ & Hf)). apply Forall_cons in Hf as [(k & ? & _) _].
       congruence. }
  rewrite !setslice3_eq. unfold dim0, dim2. rewrite Hdi, Hdt, Hshape. simpl.
  destruct ((i <? _) && (sp' <? _)) eqn:Hb'; simpl.
  2: { intros (_ & _ & (? & _ & Hf)). apply Forall_cons in Hf as [(k & ? & ?) _].
       assert (k = sp') as -> by congruence.
       apply andb_false_iff in Hb' as [Hb'|Hb']; apply Nat.ltb_ge in Hb'; lia. }
  exists t1. unfold tok. rewrite Hsp, Hsp'. simpl.
  rewrite !list_alter_alter_eq.
  replace (length tgt - 1 + 1) with (length tgt)
    by (destruct tgt; [done|simpl; lia]).
  repeat split; eauto.
Qed.
Lemma rewritten_cons {A} (f : A → list (list F) → list (list F)) i x items
    (cells0 : list (list (list F))) j :
  rewritten f (S i) items (alter (f x) i cells0) j
  = rewritten f i (x :: items) cells0 j.
Proof.
  unfold rewritten. destruct (decide (i = j)) as [->|Hne].
  - rewrite decide_False, decide_True by lia.
    replace (j - j) with 0 by lia. simpl. apply list_lookup_alter_eq.
  - rewrite list_lookup_alter_ne by done.
    repeat case_decide; try lia; [|done].
    by replace (j - i) with (S (j - S i)) by lia.
Qed.

(** All sentence pairs. *)
Lemma vectorize_loop_spec in_idx tgt_idx pairs i (st : vstate F) :
  shape (dec_tgt st) = shape (dec_in st) →
  Forall (λ p : text * text, p.2 ≠ []) pairs →
  match vectorize_loop in_idx tgt_idx i pairs st with
  | Ok st' =>
      shape (enc st') = shape (enc st)
      ∧ shape (dec_in st') = shape (dec_in st)
      ∧ shape (dec_tgt st') = shape (dec_tgt st)
      ∧ (pairs ≠ [] → is_Some (in_idx !! SPACE) ∧ is_Some (tgt_idx !! SPACE))
      ∧ (∀ j, cells (dec_in st') !! j
              = rewritten (λ p, decoder_input_rows tgt_idx p.2) i pairs
                          (cells (dec_in st)) j)
      ∧ (∀ j, cells (dec_tgt st') !! j
              = rewritten (λ p, decoder_target_rows tgt_idx p.2) i pairs
                          (cells (dec_tgt st)) j)
      ∧ (Forall (λ p : text * text, p.1 ≠ []) pairs →
         ∀ j, cells (enc st') !! j
              = rewritten (λ p, encoder_rows in_idx p.1) i pairs (cells (enc st)) j)
  | Raise _ => ¬ loop_ok in_idx tgt_idx i pairs st
  end.
Proof.
  revert i st. induction pairs as [|[inp tgt] pairs IH]; intros i st Hshape Hne; simpl.
  - repeat split; try done; intros; unfold rewritten; by case_decide.
  - apply Forall_cons in Hne as [Htgt Hne]. simpl in Htgt.
    pose proof (vectorize_pair_spec in_idx tgt_idx i inp tgt st Hshape Htgt) as Hp.
    destruct (vectorize_pair in_idx tgt_idx i inp tgt st) as [st1|e]; simpl.
    2: { intros (Hn1 & Hn2 & Hall). apply Hp. simpl in Hn1, Hn2.
         apply Forall_cons in Hall as [(Hinp & ? & ? & ? & ?) _]. simpl in *.
         unfold pair_ok. repeat split; try done; try lia.
         destruct inp; [done|]. simpl. eauto. }
    destruct Hp as (t1 & Ht1 & Hsp1 & Hsp2 & He & Hdi & Hdt & Htv).
    assert (shape (dec_tgt st1) = shape (dec_in st1)) as Hshape1
      by (by rewrite Hdi, Hdt).
    specialize (IH (S i) st1 Hshape1 Hne).
    destruct (vectorize_loop in_idx tgt_idx (S i) pairs st1) as [st2|e].
    2: { intros (Hn1 & Hn2 & Hall). apply IH. simpl in Hn1, Hn2.
         apply Forall_cons in Hall as [_ Hall].
         unfold loop_ok, dim0, dim1, dim2 in *. rewrite He, Hdi. simpl.
         repeat split; try done; lia. }
    destruct IH as (Hs1 & Hs2 & Hs3 & _ & Hci & Hct & Hce).
    rewrite Hs1, Hs2, Hs3, He, Hdi, Hdt. simpl.
    repeat split; try done.
    + intros j. rewrite Hci, Hdi. simpl.
      apply (rewritten_cons (λ p, decoder_input_rows tgt_idx p.2) i (inp, tgt)).
    + intros j. rewrite Hct, Hdt. simpl.
      apply (rewritten_cons (λ p, decoder_target_rows tgt_idx p.2) i (inp, tgt)).
    + intros [Hinp Hall]%Forall_cons j. simpl in Hinp.
      rewrite (Hce Hall), He. simpl.
      assert (t1 = length inp - 1) as ->.
      { destruct inp; [done|]. simpl in Ht1. injection Ht1 as <-. simpl. lia. }
      apply (rewritten_cons (λ p, encoder_rows in_idx p.1) i (inp, tgt)).
Qed.
Lemma well_shaped_alter a f i :
  well_shaped a →
  (∀ m, length (f m) = length m) →
  (∀ m, Forall (λ row, length row = dim2 a) m → Forall (λ row, length row = dim2 a) (f m)) →
  well_shaped {| shape := shape a; cells := alter f i (cells a) |}.
Proof.
  intros [Hlen Hall] Hf1 Hf2. unfold well_shaped, dim0, dim1, dim2 in *. simpl.
  split; [by rewrite length_alter|].
  rewrite Forall_lookup in Hall |- *. intros j m Hj.
  rewrite list_lookup_alter in Hj. case_decide; [subst|by eapply Hall].
  destruct (cells a !! j) as [m0|] eqn:Hm0; [|done]. injection Hj as <-.
  destruct (Hall _ _ Hm0) as [? ?]. split; [by rewrite Hf1|by apply Hf2].
Qed.

Lemma paint_rows index txt start m V :
  Forall (λ row, length row = V) m →
  Forall (λ row, length row = V) (paint index start txt m).
Proof.
  intros Hm. rewrite Forall_lookup in Hm |- *. intros t row.
  rewrite paint_lookup. case_decide; [|by apply Hm].
  destruct (txt !! _); [|by apply Hm].
  destruct (m !! t) as [row0|] eqn:Hrow0; [|done]. intros [= <-].
  rewrite length_insert. by eapply Hm.
Qed.

Lemma fill_rows from k m V :
  Forall (λ row, length row = V) m →
  Forall (λ row, length row = V) (fill from k m).
Proof.
  intros Hm. rewrite Forall_lookup in Hm |- *. intros t row.
  rewrite fill_lookup. case_decide; [|by apply Hm].
  destruct (m !! t) as [row0|] eqn:Hrow0; [|done]. intros [= <-].
  rewrite length_insert. by eapply Hm.
Qed.
Lemma vectorize_loop_well_shaped in_idx tgt_idx pairs i (st st' : vstate F) :
  shape (dec_tgt st) = shape (dec_in st) →
  Forall (λ p : text * text, p.2 ≠ []) pairs →
  vectorize_loop in_idx tgt_idx i pairs st = Ok st' →
  well_shaped (enc st) ∧ well_shaped (dec_in st) ∧ well_shaped (dec_tgt st) →
  well_shaped (enc st') ∧ well_shaped (dec_in st') ∧ well_shaped (dec_tgt st').
Proof.
  revert i st. induction pairs as [|[inp tgt] pairs IH]; intros i st Hshape Hne; simpl.
  - by intros [= ->].
  - apply Forall_cons in Hne as [Htgt Hne]. simpl in Htgt.
    pose proof (vectorize_pair_spec in_idx tgt_idx i inp tgt st Hshape Htgt) as Hp.
    destruct (vectorize_pair in_idx tgt_idx i inp tgt st) as [st1|e]; simpl; [|done].
    destruct Hp as (t1 & _ & _ & _ & He & Hdi & Hdt & _).
    intros Hloop (Hw1 & Hw2 & Hw3).
    apply (IH (S i) st1); [by rewrite Hdi, Hdt|done|done|].
    rewrite He, Hdi, Hdt.
    repeat split; apply well_shaped_alter; try done; intros m;
      rewrite ?fill_length, ?paint_length; try done;
      intros Hm; by apply fill_rows, paint_rows.
Qed.

Lemma slice2_rewritten {A} (f : A → list (list F) → list (list F)) items x
    (a : ndarray3 F) n T V i t row :
  (∀ j, cells a !! j = rewritten f 0 items (replicate n (replicate T (replicate V fzero))) j) →
  items !! i = Some x → i < n →
  f x (replicate T (replicate V fzero)) !! t = Some row →
  slice2 a i t = Some row.
Proof.
  intros Hcells Hx Hi Hrow. unfold slice2. rewrite Hcells. unfold rewritten.
  rewrite decide_True by lia. replace (i - 0) with i by lia. rewrite Hx.
  rewrite lookup_replicate_2 by done. done.
Qed.

(** The cell after the loading loop. *)
Lemma vectorize_spec (c : corpus) :
  loaded c →
  match vectorize (F:=F) c with
  | Ok d => prepared c d
  | Raise _ =>
      ¬ (Forall (λ txt, txt ≠ []) (input_texts c)
         ∧ SPACE ∈ input_character_set c ∧ SPACE ∈ target_character_set c)
  end.
Proof.
  intros [Hlen Hmarks Hic Htc]. unfold vectorize, not.
  pose proof (py_max_spec (length <$> input_texts c)) as Hme.
  destruct (py_max (length <$> input_texts c)) as [Te|e] eqn:HTe;
    cbn [mbind result_bind].
  2: { intros (_ & Hsp & _). apply fmap_nil_inv in Hme.
       rewrite Hic, Hme in Hsp. set_solver. }
  pose proof (py_max_spec (length <$> target_texts c)) as Hmd.
  destruct (py_max (length <$> target_texts c)) as [Td|e] eqn:HTd;
    cbn [mbind result_bind].
  2: { intros _. apply fmap_nil_inv in Hmd. destruct Hme as [Hme _].
       apply Hme. rewrite Hmd in Hlen. by destruct (input_texts c). }
  destruct Hme as [Hne_i Hle_i], Hmd as [Hne_t Hle_t].
  rewrite Forall_fmap in Hle_i, Hle_t.
  set (ichars := sorted (input_character_set c)).
  set (tchars := sorted (target_character_set c)).
  set (n := length (input_texts c)).
  set (st0 := {| enc := np_zeros (n, Te, length ichars);
                 dec_in := np_zeros (n, Td, length tchars);
                 dec_tgt := np_zeros (n, Td, length tchars);
                 t_var := None |}).
  assert (Forall (λ p : text * text, p.2 ≠ []) (zip (input_texts c) (target_texts c)))
    as Hnonempty.
  { apply Forall_forall. intros [inp tgt] Hin. apply elem_of_zip_r in Hin.
    rewrite Forall_forall in Hmarks. destruct (Hmarks _ Hin) as [body ->]. done. }
  pose proof (vectorize_loop_spec (token_index ichars) (token_index tchars)
                (zip (input_texts c) (target_texts c)) 0 st0 eq_refl Hnonempty) as Hloop.
  pose proof (vectorize_loop_well_shaped (token_index ichars) (token_index tchars)
                (zip (input_texts c) (target_texts c)) 0 st0) as Hws.
  destruct (vectorize_loop _ _ 0 _ st0) as [st'|e]; simpl.
  2: { intros (Hall & Hsp_i & Hsp_t). apply Hloop.
       unfold loop_ok, dim0, dim1, dim2. simpl.
       rewrite length_zip. fold n. rewrite <- Hlen. fold n.
       repeat split; try lia.
       apply Forall_forall. intros [inp tgt] Hin.
       pose proof (elem_of_zip_l _ _ _ _ Hin) as Hinp.
       pose proof (elem_of_zip_r _ _ _ _ Hin) as Htgt.
       rewrite Forall_forall in Hall, Hle_i, Hle_t. simpl.
       repeat split; [intros Hnil; by apply (Hall inp)|by apply Hle_i| |by apply Hle_t|].
       - apply Forall_forall. intros ch Hch. apply vocabulary_token.
         apply elem_of_cons in Hch as [->|Hch]; [done|].
         rewrite Hic. apply elem_of_list_to_set, list_elem_of_join. eauto.
       - apply Forall_forall. intros ch Hch. apply vocabulary_token.
         apply elem_of_cons in Hch as [->|Hch]; [done|].
         rewrite Htc. apply elem_of_list_to_set, list_elem_of_join. eauto. }
  destruct Hloop as (Hs1 & Hs2 & Hs3 & Hspace & Hci & Hct & Hce).
  destruct (Hws st' eq_refl Hnonempty eq_refl) as (Hw1 & Hw2 & Hw3).
  { repeat split; apply np_zeros_well_shaped. }
  assert (zip (input_texts c) (target_texts c) ≠ []) as Hzip.
  { intros Hz. apply (f_equal length) in Hz.
    rewrite length_zip, <- Hlen, Nat.min_id in Hz.
    apply nil_length_inv in Hz. apply Hne_i. by rewrite Hz. }
  destruct (Hspace Hzip) as [Hsp_i Hsp_t].
  split; simpl; try done.
  - intros i txt t Htxt Ht.
    destruct (input_texts c !! i) as [inp|] eqn:Hinp.
    2: { apply lookup_ge_None in Hinp. apply lookup_lt_Some in Htxt. lia. }
    eapply (slice2_rewritten _ _ (inp, txt)); [apply Hci| | |].
    + by apply lookup_zip_Some.
    + by eapply lookup_lt_Some.
    + simpl. apply encoded_rows_lookup; [done|].
      rewrite Forall_forall in Hle_t. apply Hle_t. by eapply list_elem_of_lookup_2.
  - intros i txt t Htxt Ht.
    destruct (input_texts c !! i) as [inp|] eqn:Hinp.
    2: { apply lookup_ge_None in Hinp. apply lookup_lt_Some in Htxt. lia. }
    eapply (slice2_rewritten _ _ (inp, txt)); [apply Hct| | |].
    + by apply lookup_zip_Some.
    + by eapply lookup_lt_Some.
    + simpl. unfold decoder_target_rows.
      replace (length txt - 1) with (length (tail txt)) by (by destruct txt; simpl; lia).
      apply encoded_rows_lookup; [done|].
      rewrite Forall_forall in Hle_t.
      pose proof (Hle_t txt (list_elem_of_lookup_2 _ _ _ Htxt)).
      destruct txt; simpl in *; lia.
  - intros Hall i txt t Htxt Ht.
    destruct (target_texts c !! i) as [tgt|] eqn:Htgt.
    2: { apply lookup_ge_None in Htgt. apply lookup_lt_Some in Htxt. lia. }
    eapply (slice2_rewritten _ _ (txt, tgt)); [apply Hce| | |].
    + apply Forall_forall. intros [inp' tgt'] Hin. apply elem_of_zip_l in Hin.
      rewrite Forall_forall in Hall. by apply Hall.
    + by apply lookup_zip_Some.
    + by eapply lookup_lt_Some.
    + simpl. unfold encoder_rows.
      rewrite Forall_forall in Hall, Hle_i.
      pose proof (Hall txt (list_elem_of_lookup_2 _ _ _ Htxt)).
      replace (length txt - 1 + 1) with (length txt)
        by (destruct txt; [done|simpl; lia]).
      apply encoded_rows_lookup; [done|].
      apply Hle_i. by eapply list_elem_of_lookup_2.
Qed.
End VectorizeFacts.

(** ** The data-preparation cell as a whole *)

Section PrepareFacts.
Context {F : Type} `{!Scalar F}.

Lemma prepare_data_prepared nsamples content (d : dataset F) :
  prepare_data nsamples content = Ok d →
  ∃ c, load_corpus nsamples content = Ok c ∧ loaded c ∧ prepared c d.
Proof.
  unfold prepare_data. intros Hd.
  destruct (load_corpus nsamples content) as [c|e] eqn:Hload; [|done].
  simpl in Hd. exists c. pose proof (load_corpus_loaded _ _ _ Hload) as Hc.
  pose proof (vectorize_spec (F:=F) c Hc) as Hv. rewrite Hd in Hv. done.
Qed.

Lemma padded_row_encodes index V txt t (chars : gset char) :
  index = token_index (sorted chars) → V = length (sorted chars) →
  SPACE ∈ chars → (∀ ch, ch ∈ txt → ch ∈ chars) →
  encodes (F:=F) index V (default SPACE (txt !! t)) (padded_row index V txt t).
Proof.
  intros -> -> Hsp Htxt. unfold encodes, padded_row.
  assert (default SPACE (txt !! t) ∈ chars) as Hin.
  { destruct (txt !! t) as [ch|] eqn:Hch; simpl; [|done].
    apply Htxt. by eapply list_elem_of_lookup_2. }
  destruct (vocabulary_token chars _ Hin) as (k & Hk & HkV).
  exists k. unfold tok. rewrite Hk. done.
Qed.
End PrepareFacts.

(** ** The loader *)

(** Claim C6.  With a non-negative sample count, the loader visits exactly
    the first [min(num_samples, len(lines) - 1)] lines of the file.  When each
    of them splits on tab into exactly three fields, loading succeeds and
    keeps, line by line, the first field as the input text and the second
    (between the start and end markers) as the target text, the third being
    dropped; when one of them does not, loading raises [ValueError]. *)
Theorem loader_first_lines_three_fields (nsamples : Z) (content : text) :
  (0 ≤ nsamples)%Z →
  let lines := split NL content in
  let count := Z.to_nat (Z.min nsamples (Z.of_nat (length lines) - 1)) in
  processed_lines nsamples lines = take count lines
  ∧ length (processed_lines nsamples lines) = count
  ∧ (Forall (λ line, ∃ input output note, split TAB line = [input; output; note])
            (take count lines) →
     ∃ c, load_corpus nsamples content = Ok c
          ∧ input_texts c = field 0 <$> take count lines
          ∧ target_texts c = (λ line, [TAB] ++ field 1 line ++ [NL]) <$> take count lines)
  ∧ (Exists (λ line, length (split TAB line) ≠ 3) (take count lines) →
     load_corpus nsamples content = Raise ValueError).
Proof.
  intros Hn lines count.
  assert (1 ≤ length lines) as Hlines.
  { pose proof (split_nonempty NL content). subst lines.
    destruct (split NL content); [done|simpl; lia]. }
  assert (processed_lines nsamples lines = take count lines) as Hproc.
  { unfold processed_lines. apply slice_to_nonneg. lia. }
  split; [done|]. split.
  { rewrite Hproc, length_take. subst count. lia. }
  pose proof (load_corpus_spec nsamples content) as Hspec. simpl in Hspec.
  fold lines in Hspec. rewrite Hproc in Hspec.
  split.
  - intros Hall. destruct (load_corpus nsamples content) as [c|e].
    + exists c. destruct Hspec as (_ & Hi & Ht & _). done.
    + destruct Hspec as [_ Hex]. exfalso.
      apply Exists_exists in Hex as (line & Hin & Hne).
      rewrite Forall_forall in Hall.
      destruct (Hall _ Hin) as (a & b & n & Heq). by rewrite Heq in Hne.
  - intros Hex. destruct (load_corpus nsamples content) as [c|e].
    + destruct Hspec as (Hall & _). exfalso.
      apply Exists_exists in Hex as (line & Hin & Hne).
      rewrite Forall_forall in Hall. by apply Hne, Hall.
    + by destruct Hspec as [-> _].
Qed.

(** ** Vocabularies, indices and tensors *)

Section DataTheorems.
Context {F : Type} `{!Scalar F}.

(** Claim C4.  After the data-preparation cell, each vocabulary is the
    strictly increasing list of exactly the characters that occur in the
    texts of its side; each token index relates character [ch] to [k]
    exactly when [ch] is the [k]-th character of the vocabulary, so it is a
    bijection between the vocabulary and [0 .. n-1]; and the last axis of
    each tensor, and the length of each of its rows, is the vocabulary
    size of its side. *)
Theorem vocabularies_sorted_and_indexed nsamples content (d : dataset F) :
  prepare_data nsamples content = Ok d →
  let c := texts d in
  (StronglySorted N.lt (input_characters d)
   ∧ ∀ ch, ch ∈ input_characters d ↔ ∃ txt, txt ∈ input_texts c ∧ ch ∈ txt)
  ∧ (StronglySorted N.lt (target_characters d)
     ∧ ∀ ch, ch ∈ target_characters d ↔ ∃ txt, txt ∈ target_texts c ∧ ch ∈ txt)
  ∧ (num_encoder_tokens d = length (input_characters d)
     ∧ ∀ ch k, input_token_index d !! ch = Some k ↔ input_characters d !! k = Some ch)
  ∧ (num_decoder_tokens d = length (target_characters d)
     ∧ ∀ ch k, target_token_index d !! ch = Some k ↔ target_characters d !! k = Some ch)
  ∧ (dim2 (encoder_input_data d) = num_encoder_tokens d
     ∧ ∀ i t row, slice2 (encoder_input_data d) i t = Some row →
                  length row = num_encoder_tokens d)
  ∧ (dim2 (decoder_input_data d) = num_decoder_tokens d
     ∧ ∀ i t row, slice2 (decoder_input_data d) i t = Some row →
                  length row = num_decoder_tokens d)
  ∧ (dim2 (decoder_target_data d) = num_decoder_tokens d
     ∧ ∀ i t row, slice2 (decoder_target_data d) i t = Some row →
                  length row = num_decoder_tokens d).
Proof.
  intros (c & Hload & Hc & Hd)%prepare_data_prepared. destruct Hd, Hc.
  rewrite prep_texts0. simpl.
  assert (∀ (a : ndarray3 F) V, well_shaped a → dim2 a = V →
            ∀ i t row, slice2 a i t = Some row → length row = V) as Hrows.
  { intros a V [_ Hall] HV i t row. unfold slice2.
    destruct (cells a !! i) as [m|] eqn:Hm; [|done]. simpl. intros Hrow.
    rewrite Forall_lookup in Hall. destruct (Hall _ _ Hm) as [_ Hm'].
    rewrite Forall_lookup in Hm'. rewrite <- HV. by eapply Hm'. }
  repeat split.
  - rewrite prep_input_characters0. apply sorted_increasing.
  - rewrite prep_input_characters0, sorted_elem_of, loaded_input_set0.
    rewrite elem_of_list_to_set, list_elem_of_join. naive_solver.
  - rewrite prep_input_characters0, sorted_elem_of, loaded_input_set0.
    rewrite elem_of_list_to_set, list_elem_of_join. naive_solver.
  - rewrite prep_target_characters0. apply sorted_increasing.
  - rewrite prep_target_characters0, sorted_elem_of, loaded_target_set0.
    rewrite elem_of_list_to_set, list_elem_of_join. naive_solver.
  - rewrite prep_target_characters0, sorted_elem_of, loaded_target_set0.
    rewrite elem_of_list_to_set, list_elem_of_join. naive_solver.
  - done.
  - rewrite prep_input_index0, prep_input_characters0.
    apply token_index_lookup, sorted_NoDup.
  - rewrite prep_input_index0, prep_input_characters0.
    apply token_index_lookup, sorted_NoDup.
  - done.
  - rewrite prep_target_index0, prep_target_characters0.
    apply token_index_lookup, sorted_NoDup.
  - rewrite prep_target_index0, prep_target_characters0.
    apply token_index_lookup, sorted_NoDup.
  - unfold dim2. by rewrite prep_encoder_shape0.
  - apply Hrows; [done|]. unfold dim2. by rewrite prep_encoder_shape0.
  - unfold dim2. by rewrite prep_decoder_input_shape0.
  - apply Hrows; [done|]. unfold dim2. by rewrite prep_decoder_input_shape0.
  - unfold dim2. by rewrite prep_decoder_target_shape0.
  - apply Hrows; [done|]. unfold dim2. by rewrite prep_decoder_target_shape0.
Qed.
Lemma padded_row_tail index V txt t :
  padded_row (F:=F) index V (tail txt) t = padded_row index V txt (S t).
Proof. unfold padded_row. by rewrite lookup_tail. Qed.

(** Claim C3.  After the data-preparation cell, for every example [i] and
    every timestep [t] with [t <= max_decoder_seq_length - 2], the slice
    [decoder_target_data[i, t]] is the slice [decoder_input_data[i, t + 1]]:
    the decoder-input rows encode the target text padded with spaces, the
    target rows encode the same text without its start character, and the
    last target row is the one-hot vector of the space. *)
Theorem teacher_forcing_offset nsamples content (d : dataset F) :
  prepare_data nsamples content = Ok d →
  ∀ i txt, target_texts (texts d) !! i = Some txt →
    (∀ t, t + 2 ≤ max_decoder_seq_length d →
       is_Some (slice2 (decoder_target_data d) i t)
       ∧ slice2 (decoder_target_data d) i t = slice2 (decoder_input_data d) i (t + 1))
    ∧ (∀ t, t < max_decoder_seq_length d →
         slice2 (decoder_input_data d) i t
         = Some (padded_row (target_token_index d) (num_decoder_tokens d) txt t)
         ∧ slice2 (decoder_target_data d) i t
           = Some (padded_row (target_token_index d) (num_decoder_tokens d) (tail txt) t))
    ∧ slice2 (decoder_target_data d) i (max_decoder_seq_length d - 1)
      = Some (one_hot (num_decoder_tokens d) (tok (target_token_index d) SPACE)).
Proof.
  intros (c & Hload & Hc & Hd)%prepare_data_prepared. destruct Hd, Hc.
  rewrite prep_texts0. intros i txt Htxt.
  pose proof (py_max_spec (length <$> target_texts c)) as Hmax.
  rewrite prep_max_decoder0 in Hmax. destruct Hmax as [_ Hmax].
  rewrite Forall_fmap, Forall_forall in Hmax.
  pose proof (Hmax txt (list_elem_of_lookup_2 _ _ _ Htxt)) as Hlen. simpl in Hlen.
  rewrite Forall_forall in loaded_marks0.
  destruct (loaded_marks0 txt (list_elem_of_lookup_2 _ _ _ Htxt)) as [body Hbody].
  assert (2 ≤ length txt) as Hlen2.
  { rewrite Hbody. simpl. rewrite length_app. simpl. lia. }
  repeat split.
  - rewrite (prep_decoder_target0 i txt t) by (done || lia). done.
  - rewrite (prep_decoder_target0 i txt t), (prep_decoder_input0 i txt (t + 1))
      by (done || lia).
    by rewrite padded_row_tail, Nat.add_1_r.
  - by apply prep_decoder_input0.
  - by apply prep_decoder_target0.
  - rewrite (prep_decoder_target0 i txt) by (done || lia).
    unfold padded_row. rewrite lookup_tail, lookup_ge_None_2 by lia. done.
Qed.

(** Claim C5.  When loading succeeds, no text is empty and the space
    occurs in both vocabularies, the data-preparation cell completes, and
    each of the three tensors is an (example, timestep, vocabulary) array
    whose entries fit its shape and whose every (example, timestep) slice is
    exactly one-hot: at a timestep inside the text it is the one-hot vector
    of the token of the character there, at a later timestep that of the
    space.  For [decoder_target_data] the text is the target text without
    its start character. *)
Theorem tensors_are_one_hot nsamples content (c : corpus) :
  load_corpus nsamples content = Ok c →
  Forall (λ txt, txt ≠ []) (input_texts c) →
  Forall (λ txt, txt ≠ []) (target_texts c) →
  SPACE ∈ sorted (input_character_set c) →
  SPACE ∈ sorted (target_character_set c) →
  ∃ d : dataset F,
    prepare_data nsamples content = Ok d
    ∧ (well_shaped (encoder_input_data d)
       ∧ shape (encoder_input_data d)
         = (length (input_texts c), max_encoder_seq_length d, num_encoder_tokens d))
    ∧ (well_shaped (decoder_input_data d)
       ∧ shape (decoder_input_data d)
         = (length (input_texts c), max_decoder_seq_length d, num_decoder_tokens d))
    ∧ (well_shaped (decoder_target_data d)
       ∧ shape (decoder_target_data d)
         = (length (input_texts c), max_decoder_seq_length d, num_decoder_tokens d))
    ∧ (∀ i txt t, input_texts c !! i = Some txt → t < max_encoder_seq_length d →
         ∃ row, slice2 (encoder_input_data d) i t = Some row
                ∧ is_one_hot (num_encoder_tokens d) row
                ∧ encodes (input_token_index d) (num_encoder_tokens d)
                          (default SPACE (txt !! t)) row)
    ∧ (∀ i txt t, target_texts c !! i = Some txt → t < max_decoder_seq_length d →
         ∃ row, slice2 (decoder_input_data d) i t = Some row
                ∧ is_one_hot (num_decoder_tokens d) row
                ∧ encodes (target_token_index d) (num_decoder_tokens d)
                          (default SPACE (txt !! t)) row)
    ∧ (∀ i txt t, target_texts c !! i = Some txt → t < max_decoder_seq_length d →
         ∃ row, slice2 (decoder_target_data d) i t = Some row
                ∧ is_one_hot (num_decoder_tokens d) row
                ∧ encodes (target_token_index d) (num_decoder_tokens d)
                          (default SPACE (tail txt !! t)) row).
Proof.
  intros Hload Hin Htg Hsp_i Hsp_t. apply sorted_elem_of in Hsp_i, Hsp_t.
  pose proof (load_corpus_loaded _ _ _ Hload) as Hc.
  pose proof (vectorize_spec (F:=F) c Hc) as Hv.
  unfold prepare_data. rewrite Hload. simpl.
  destruct (vectorize c) as [d|e]; [|by destruct Hv].
  exists d. split; [done|]. destruct Hv, Hc.
  assert (∀ index V ch (row : list F), encodes index V ch row → is_one_hot V row)
    as Hone by (intros ???? (k & ? & ? & ?); by exists k).
  assert (∀ txt ch, txt ∈ input_texts c → ch ∈ txt → ch ∈ input_character_set c)
    as Hchars_i.
  { intros txt ch ? ?. rewrite loaded_input_set0.
    apply elem_of_list_to_set, list_elem_of_join. eauto. }
  assert (∀ txt ch, txt ∈ target_texts c → ch ∈ txt → ch ∈ target_character_set c)
    as Hchars_t.
  { intros txt ch ? ?. rewrite loaded_target_set0.
    apply elem_of_list_to_set, list_elem_of_join. eauto. }
  do 3 (split; [by split|]). split; [|split].
  - intros i txt t Htxt Ht. eexists. split; [by apply prep_encoder0|].
    assert (encodes (F:=F) (input_token_index d) (num_encoder_tokens d)
              (default SPACE (txt !! t))
              (padded_row (input_token_index d) (num_encoder_tokens d) txt t)) as He.
    { apply (padded_row_encodes _ _ _ _ (input_character_set c)); try done.
      - by rewrite prep_input_index0, prep_input_characters0.
      - by rewrite prep_num_encoder_tokens0, prep_input_characters0.
      - intros ch. apply Hchars_i. by eapply list_elem_of_lookup_2. }
    split; [by eapply Hone|done].
  - intros i txt t Htxt Ht. eexists. split; [by apply prep_decoder_input0|].
    assert (encodes (F:=F) (target_token_index d) (num_decoder_tokens d)
              (default SPACE (txt !! t))
              (padded_row (target_token_index d) (num_decoder_tokens d) txt t)) as He.
    { apply (padded_row_encodes _ _ _ _ (target_character_set c)); try done.
      - by rewrite prep_target_index0, prep_target_characters0.
      - by rewrite prep_num_decoder_tokens0, prep_target_characters0.
      - intros ch. apply Hchars_t. by eapply list_elem_of_lookup_2. }
    split; [by eapply Hone|done].
  - intros i txt t Htxt Ht. eexists. split; [by apply prep_decoder_target0|].
    assert (encodes (F:=F) (target_token_index d) (num_decoder_tokens d)
              (default SPACE (tail txt !! t))
              (padded_row (target_token_index d) (num_decoder_tokens d) (tail txt) t))
      as He.
    { apply (padded_row_encodes _ _ _ _ (target_character_set c)); try done.
      - by rewrite prep_target_index0, prep_target_characters0.
      - by rewrite prep_num_decoder_tokens0, prep_target_characters0.
      - intros ch Hch. apply (Hchars_t txt); [by eapply list_elem_of_lookup_2|].
        destruct txt; [done|]. simpl in Hch. by apply elem_of_cons; right. }
    split; [by eapply Hone|done].
Qed.
End DataTheorems.

(** ** Greedy decoding *)

Section DecodeFacts.
Context {F : Type} `{!Scalar F}.
Variable d : dataset F.
Variable encoder_model : encoder_model_t F.
Variable decoder_model : decoder_model_t F.

Notation V := (num_decoder_tokens d).
Notation step := (sampling_step d decoder_model).
Notation loop := (sampling_loop d decoder_model).

Lemma argmax_from_bound (row : list F) best_i best i :
  best_i < i → argmax_from best_i best i row < i + length row.
Proof.
  revert best_i best i. induction row as [|x row IH]; intros best_i best i Hlt; simpl.
  - lia.
  - destruct (fgtb x best).
    + specialize (IH i x (S i)). lia.
    + specialize (IH best_i best (S i)). lia.
Qed.

Lemma np_argmax_bound (row : list F) k : np_argmax row = Ok k → k < length row.
Proof.
  destruct row as [|x row]; simpl; [done|]. intros [= <-].
  pose proof (argmax_from_bound row 0 x 1). lia.
Qed.

Lemma np_argmax_nonempty (row : list F) :
  0 < length row → ∃ k, np_argmax row = Ok k ∧ k < length row.
Proof.
  intros Hlen. destruct (np_argmax row) as [k|e] eqn:Hk.
  - exists k. split; [done|]. by apply np_argmax_bound.
  - destruct row; [simpl in Hlen; lia|done].
Qed.

Lemma setitem3_one_token k :
  setitem3 (np_zeros (1, 1, V)) 0 0 k fone
  = if k <? V then Ok (one_token_seq d k) else Raise IndexError.
Proof. rewrite setitem3_eq. unfold dim0, dim1, dim2. simpl. by destruct (k <? V). Qed.

(** What one successful iteration of the sampling loop does. *)
Lemma sampling_step_Ok (st st' : loop_state F) :
  step st = Ok st' →
  ∃ row k ch,
    last (decoder_model (batch_rows (target_seq st)) (states_value st)).1 = Some row
    ∧ np_argmax row = Ok k
    ∧ reverse_target_char_index d !! k = Some ch
    ∧ k < V
    ∧ target_seq st' = one_token_seq d k
    ∧ states_value st'
      = (decoder_model (batch_rows (target_seq st)) (states_value st)).2
    ∧ stop_condition st'
      = (if N.eqb ch NL
            || (max_decoder_seq_length d <? length (decoded_sentence st ++ [ch]))
         then true else stop_condition st)
    ∧ decoded_sentence st' = decoded_sentence st ++ [ch]
    ∧ calls st' = calls st ++
        [ {| call_target_seq := batch_rows (target_seq st);
             call_states_in := states_value st;
             call_output_tokens :=
               (decoder_model (batch_rows (target_seq st)) (states_value st)).1;
             call_states_out :=
               (decoder_model (batch_rows (target_seq st)) (states_value st)).2 |} ].
Proof.
  unfold sampling_step.
  destruct (decoder_model _ _) as [output_tokens hc]. simpl.
  destruct (last output_tokens) as [row|]; simpl; [|done].
  destruct (np_argmax row) as [k|] eqn:Hk; simpl; [|done].
  destruct (reverse_target_char_index d !! k) as [ch|] eqn:Hch;
    [rewrite (getitem_Some _ _ _ Hch)|by rewrite (getitem_None _ _ Hch)]. simpl.
  rewrite setitem3_one_token. destruct (k <? V) eqn:HkV; simpl; [|done].
  apply Nat.ltb_lt in HkV. intros [= <-]. simpl.
  exists row, k, ch. repeat split; done.
Qed.

(** A property kept by every iteration holds when the loop ends. *)
Lemma sampling_loop_invariant (Inv : loop_state F → Prop) :
  (∀ st st', Inv st → stop_condition st = false → step st = Ok st' → Inv st') →
  ∀ fuel st st',
    Inv st → loop fuel st = Some (Ok st') →
    Inv st' ∧ stop_condition st' = true.
Proof.
  intros Hstep. induction fuel as [|fuel IH]; intros st st' Hinv; simpl; [done|].
  destruct (stop_condition st) eqn:Hstop.
  - by intros [= <-].
  - destruct (step st) as [st1|e] eqn:Hst; [|done].
    apply IH. by eapply Hstep.
Qed.

(** The loop ends within [max_decoder_seq_length + 1] iterations: more fuel
    than that always gives the same outcome. *)
Lemma sampling_loop_total (k : nat) (st : loop_state F) :
  (stop_condition st = false →
     length (decoded_sentence st) ≤ max_decoder_seq_length d
     ∧ max_decoder_seq_length d + 1 ≤ length (decoded_sentence st) + k) →
  ∃ r, ∀ extra, loop (S k + extra) st = Some r.
Proof.
  revert st. induction k as [|k IH]; intros st Hst; simpl.
  - destruct (stop_condition st); [by eexists|].
    destruct (Hst eq_refl). lia.
  - destruct (stop_condition st) eqn:Hstop; [by eexists|].
    destruct (Hst eq_refl) as [Hlen Hk].
    destruct (step st) as [st1|e] eqn:Hst1; [|by eexists].
    apply sampling_step_Ok in Hst1
      as (row & tk & ch & _ & _ & _ & _ & _ & _ & Hstop1 & Hdec1 & _).
    apply IH. intros Hstop1'. rewrite Hstop1' in Hstop1.
    rewrite Hdec1.
    destruct (N.eqb ch NL); [done|]. simpl in Hstop1.
    destruct (_ <? _) eqn:Hcap; [done|]. apply Nat.ltb_ge in Hcap.
    rewrite length_app in *. simpl in *. lia.
Qed.
(** On a batch of one example the initialisation is the start lookup and
    the start assignment. *)
Lemma sampling_init_one input_seq rows :
  cells input_seq = [rows] →
  sampling_init d encoder_model input_seq
  = (start ← getitem (target_token_index d) TAB;
     start_seq ← setitem3 (np_zeros (1, 1, V)) 0 0 start fone;
     Ok {| target_seq := start_seq;
           states_value := encoder_model rows;
           stop_condition := false;
           decoded_sentence := [];
           calls := [] |}).
Proof.
  intros Hcells. unfold sampling_init. rewrite Hcells.
  destruct (getitem (target_token_index d) TAB) as [start|e]; [|done].
  cbn [mbind result_bind]. by destruct (setitem3 _ 0 0 start fone).
Qed.

(** On any other batch it raises. *)
Lemma sampling_init_Raise input_seq e :
  sampling_init d encoder_model input_seq = Raise e →
  (e = ValueError ∧ ∀ rows, cells input_seq ≠ [rows])
  ∨ (e = KeyError ∧ target_token_index d !! TAB = None)
  ∨ (e = IndexError ∧ ∃ k, target_token_index d !! TAB = Some k ∧ V ≤ k).
Proof.
  unfold sampling_init.
  destruct (cells input_seq) as [|rows others]; [intros [= <-]; by left|].
  destruct (target_token_index d !! TAB) as [k|] eqn:Hk;
    [rewrite (getitem_Some _ _ _ Hk)|rewrite (getitem_None _ _ Hk)];
    cbn [mbind result_bind].
  2: { intros [= <-]. right; left. done. }
  rewrite setitem3_one_token. destruct (k <? V) eqn:HkV; cbn [mbind result_bind].
  - destruct others; [done|]. intros [= <-]. left. split; [done|]. by intros rows'.
  - apply Nat.ltb_ge in HkV. intros [= <-]. right; right. split; [done|]. eauto.
Qed.

Lemma sampling_init_Ok input_seq (st : loop_state F) :
  sampling_init d encoder_model input_seq = Ok st →
  stop_condition st = false ∧ decoded_sentence st = [] ∧ calls st = []
  ∧ states_value st = encoder_model (batch_rows input_seq)
  ∧ ∃ k, target_token_index d !! TAB = Some k ∧ k < V
         ∧ target_seq st = one_token_seq d k
         ∧ cells input_seq = [batch_rows input_seq].
Proof.
  unfold sampling_init, batch_rows.
  destruct (cells input_seq) as [|rows others]; [done|].
  destruct (target_token_index d !! TAB) as [k|] eqn:Hk;
    [rewrite (getitem_Some _ _ _ Hk)|by rewrite (getitem_None _ _ Hk)].
  cbn [mbind result_bind].
  rewrite setitem3_one_token. destruct (k <? V) eqn:HkV; cbn [mbind result_bind]; [|done].
  destruct others; [|done].
  apply Nat.ltb_lt in HkV. intros [= <-]. simpl. repeat split; eauto.
Qed.

Lemma loop_lengths_step (st st' : loop_state F) :
  loop_lengths d st → stop_condition st = false → step st = Ok st' →
  loop_lengths d st'.
Proof.
  intros (Hcalls & Hrun & _) Hstop
    (row & k & ch & _ & _ & _ & _ & _ & _ & Hstop' & Hdec & Hlog)%sampling_step_Ok.
  specialize (Hrun Hstop). unfold loop_lengths.
  rewrite Hstop', Hdec, Hlog, Hstop, !length_app, last_snoc. simpl.
  split; [lia|].
  destruct (N.eqb_spec ch NL) as [Heq|Hne]; simpl.
  - split; [done|]. intros _. split; [by destruct (decoded_sentence st)|].
    split; [lia|left; by rewrite Heq].
  - destruct (Nat.ltb_spec (max_decoder_seq_length d)
                           (length (decoded_sentence st) + 1)) as [Hcap|Hcap].
    + split; [done|]. intros _.
      split; [by destruct (decoded_sentence st)|]. split; [lia|right; lia].
    + split; [intros _; lia|done].
Qed.

Lemma loop_lengths_final fuel input_seq (st : loop_state F) :
  decode_sequence_run d encoder_model decoder_model fuel input_seq = Some (Ok st) →
  loop_lengths d st ∧ stop_condition st = true.
Proof.
  unfold decode_sequence_run.
  destruct (sampling_init d encoder_model input_seq) as [st0|e] eqn:Hinit; [|done].
  apply sampling_init_Ok in Hinit as (Hstop & Hdec & Hcalls & _).
  apply (sampling_loop_invariant (loop_lengths d)).
  - apply loop_lengths_step.
  - unfold loop_lengths. rewrite Hstop, Hdec, Hcalls. simpl.
    repeat split; try done; lia.
Qed.

(** Claim C9.  [decode_sequence] terminates on every input: given fuel for
    [max_decoder_seq_length + 2] tests of the loop condition or more, it
    returns, and always the same outcome.  Each iteration of the sampling
    loop appends exactly one character to [decoded_sentence] (and makes one
    call of the decoder), and a run that returns made at most
    [max_decoder_seq_length + 1] iterations. *)
Theorem decode_sequence_terminates input_seq :
  (∃ r,
     (∀ extra,
        decode_sequence_run d encoder_model decoder_model
          (max_decoder_seq_length d + 2 + extra) input_seq = Some r)
     ∧ (∀ extra,
          decode_sequence d encoder_model decoder_model
            (max_decoder_seq_length d + 2 + extra) input_seq
          = Some (match r with
                  | Ok st => Ok (decoded_sentence st)
                  | Raise e => Raise e
                  end))
     ∧ match r with
       | Ok st =>
           stop_condition st = true
           ∧ length (decoded_sentence st) = length (calls st)
           ∧ length (calls st) ≤ max_decoder_seq_length d + 1
       | Raise _ => True
       end)
  ∧ (∀ st st', step st = Ok st' →
       (∃ ch, decoded_sentence st' = decoded_sentence st ++ [ch])
       ∧ length (decoded_sentence st') = S (length (decoded_sentence st))
       ∧ length (calls st') = S (length (calls st))).
Proof.
  split.
  - assert (∃ r, ∀ extra,
              decode_sequence_run d encoder_model decoder_model
                (max_decoder_seq_length d + 2 + extra) input_seq = Some r)
      as [r Hr].
    { unfold decode_sequence_run.
      destruct (sampling_init d encoder_model input_seq) as [st0|e] eqn:Hinit;
        [|by eexists].
      apply sampling_init_Ok in Hinit as (Hstop & Hdec & _).
      destruct (sampling_loop_total (max_decoder_seq_length d + 1) st0) as [r Hr].
      { rewrite Hdec. simpl. intros _. lia. }
      exists r. intros extra.
      replace (max_decoder_seq_length d + 2 + extra)
        with (S (max_decoder_seq_length d + 1) + extra) by lia.
      apply Hr. }
    exists r. split; [done|]. split.
    + intros extra. unfold decode_sequence. rewrite Hr. by destruct r.
    + destruct r as [st|e]; [|done].
      destruct (loop_lengths_final _ _ _ (Hr 0)) as [(Hcalls & _ & Hend) Hstop].
      destruct (Hend Hstop) as (_ & Hle & _). repeat split; [done..|lia].
  - intros st st'
      (row & k & ch & _ & _ & _ & _ & _ & _ & _ & Hdec & Hlog)%sampling_step_Ok.
    rewrite Hdec, Hlog, !length_app. simpl. repeat split; eauto; lia.
Qed.
End DecodeFacts.

(** ** The lookups of the sampling loop *)

Section LookupFacts.
Context {F : Type} `{!Scalar F}.

Lemma prepared_lookups (c : corpus) (d : dataset F) :
  loaded c → prepared c d →
  TAB ∈ target_characters d ∧ NL ∈ target_characters d
  ∧ (∃ k, target_token_index d !! TAB = Some k ∧ k < num_decoder_tokens d)
  ∧ (∀ k, k < num_decoder_tokens d →
       ∃ ch, reverse_target_char_index d !! k = Some ch
             ∧ target_characters d !! k = Some ch).
Proof.
  intros Hc Hd. destruct Hc, Hd.
  pose proof (py_max_spec (length <$> target_texts c)) as Hmax.
  rewrite prep_max_decoder0 in Hmax. destruct Hmax as [Hne _].
  destruct (target_texts c) as [|txt txts] eqn:Htexts; [done|].
  apply Forall_cons in loaded_marks0 as [[body Hbody] _].
  assert (TAB ∈ target_character_set c ∧ NL ∈ target_character_set c) as [Htab Hnl].
  { rewrite loaded_target_set0.
    split; apply elem_of_list_to_set, list_elem_of_join; exists txt;
      (split; [rewrite Hbody; set_solver|by left]). }
  split; [by rewrite prep_target_characters0, sorted_elem_of|].
  split; [by rewrite prep_target_characters0, sorted_elem_of|].
  split.
  - rewrite prep_target_index0, prep_num_decoder_tokens0, prep_target_characters0.
    by apply vocabulary_token.
  - intros k Hk. rewrite prep_num_decoder_tokens0 in Hk.
    apply lookup_lt_is_Some in Hk as [ch Hch]. exists ch. split; [|done].
    unfold reverse_target_char_index. rewrite prep_target_index0.
    rewrite prep_target_characters0 in Hch |- *.
    apply reverse_char_index_lookup.
    + intros c1 c2 j. apply token_index_inj, sorted_NoDup.
    + apply token_index_lookup; [apply sorted_NoDup|done].
Qed.

Lemma prepared_reverse_sound (c : corpus) (d : dataset F) k ch :
  prepared c d →
  reverse_target_char_index d !! k = Some ch → target_token_index d !! ch = Some k.
Proof.
  intros Hd. unfold reverse_target_char_index.
  rewrite (prep_target_index _ _ Hd), (prep_target_characters _ _ Hd).
  apply reverse_char_index_lookup.
  intros c1 c2 j. apply token_index_inj, sorted_NoDup.
Qed.

(** Claim C10.  After the data-preparation cell, every target text starts
    with the start marker and ends with the end marker, both markers are in
    the target vocabulary, the lookup [target_token_index["\t"]] succeeds
    with a token below [num_decoder_tokens] (so on a batch of one example
    the sampling loop is entered without an exception, and on no input does
    the initialisation raise anything but the [ValueError] of [predict] on
    a batch that is not of one example), and [reverse_target_char_index] is
    defined at every index [0 .. num_decoder_tokens - 1], where it gives the
    character at that position of the vocabulary. *)
Theorem markers_and_lookups_defined nsamples content (d : dataset F) :
  prepare_data nsamples content = Ok d →
  Forall (λ txt, ∃ body, txt = [TAB] ++ body ++ [NL]) (target_texts (texts d))
  ∧ TAB ∈ target_characters d ∧ NL ∈ target_characters d
  ∧ (∃ k, getitem (target_token_index d) TAB = Ok k ∧ k < num_decoder_tokens d)
  ∧ (∀ encoder_model input_seq,
       (∀ rows, cells input_seq = [rows] →
          ∃ st, sampling_init d encoder_model input_seq = Ok st)
       ∧ (∀ e, sampling_init d encoder_model input_seq = Raise e →
            e = ValueError ∧ ∀ rows, cells input_seq ≠ [rows]))
  ∧ (∀ k, k < num_decoder_tokens d →
       ∃ ch, getitem (reverse_target_char_index d) k = Ok ch
             ∧ target_characters d !! k = Some ch).
Proof.
  intros (c & Hload & Hc & Hd)%prepare_data_prepared.
  destruct (prepared_lookups c d Hc Hd) as (Htab & Hnl & (k & Hk & HkV) & Hrev).
  split; [rewrite (prep_texts _ _ Hd); by destruct Hc|].
  split; [done|]. split; [done|]. split; [|split].
  - exists k. by rewrite (getitem_Some _ _ _ Hk).
  - intros em input_seq. split.
    + intros rows Hcells. rewrite (sampling_init_one _ _ _ _ Hcells).
      rewrite (getitem_Some _ _ _ Hk). cbn [mbind result_bind].
      rewrite setitem3_one_token.
      apply Nat.ltb_lt in HkV. rewrite HkV. simpl. by eexists.
    + intros e [Hbatch|[[_ Hnone]|(_ & k' & Hk' & Hle)]]%sampling_init_Raise.
      * done.
      * congruence.
      * assert (k' = k) as -> by congruence. lia.
  - intros j Hj. destruct (Hrev j Hj) as (ch & Hch & Hpos).
    exists ch. by rewrite (getitem_Some _ _ _ Hch).
Qed.
End LookupFacts.

(** ** The arg-max *)

Section ArgmaxSpec.
Context {F : Type} `{!Scalar F}.
Hypothesis order : strict_weak_order F.

Lemma argmax_from_spec (row pre : list F) best_i best :
  pre !! best_i = Some best →
  (∀ y, y ∈ pre → fgtb y best = false) →
  (∀ j y, j < best_i → pre !! j = Some y → fgtb best y = true) →
  ∃ x, (pre ++ row) !! argmax_from best_i best (length pre) row = Some x
       ∧ (∀ y, y ∈ pre ++ row → fgtb y x = false)
       ∧ (∀ j y, j < argmax_from best_i best (length pre) row →
                 (pre ++ row) !! j = Some y → fgtb x y = true).
Proof.
  destruct order as (Hirr & Htrans & Hco).
  revert pre best_i best. induction row as [|x row IH]; intros pre best_i best Hb Hmax Hfirst.
  - simpl. rewrite app_nil_r. eauto.
  - cbn [argmax_from].
    replace (pre ++ x :: row) with ((pre ++ [x]) ++ row) by (by rewrite <- (assoc_L (++))).
    replace (S (length pre)) with (length (pre ++ [x]))
      by (rewrite length_app; simpl; lia).
    destruct (fgtb x best) eqn:Hx.
    + apply IH.
      * by rewrite lookup_app_r, Nat.sub_diag by lia.
      * intros y [Hy|Hy%list_elem_of_singleton]%elem_of_app; [|by subst].
        destruct (fgtb y x) eqn:Hyx; [|done].
        rewrite <- (Hmax y Hy). symmetry. by eapply Htrans.
      * intros j y Hj Hy. rewrite lookup_app_l in Hy by done.
        destruct (Hco x best y Hx) as [?|Hyb]; [done|].
        rewrite Hmax in Hyb; [done|]. by eapply list_elem_of_lookup_2.
    + apply IH.
      * apply lookup_app_l_Some. done.
      * intros y [Hy|Hy%list_elem_of_singleton]%elem_of_app; [by apply Hmax|by subst].
      * intros j y Hj Hy. apply (Hfirst j); [done|].
        rewrite lookup_app_l in Hy; [done|].
        apply lookup_lt_Some in Hb. lia.
Qed.

Lemma np_argmax_spec (row : list F) k :
  np_argmax row = Ok k →
  ∃ x, row !! k = Some x
       ∧ (∀ y, y ∈ row → fgtb y x = false)
       ∧ (∀ j y, j < k → row !! j = Some y → fgtb x y = true).
Proof.
  destruct row as [|x0 row]; [done|]. simpl. intros [= <-].
  destruct order as (Hirr & _).
  apply (argmax_from_spec row [x0] 0 x0); [done| |intros; lia].
  intros y ->%list_elem_of_singleton. apply Hirr.
Qed.

Lemma first_highest_spec (dist rest : list F) i k x :
  rest !! k = Some x → highest dist x = true →
  (∀ j y, j < k → rest !! j = Some y → highest dist y = false) →
  first_highest dist i rest = Some (i + k).
Proof.
  revert i k. induction rest as [|z rest IH]; intros i k Hx Hhigh Hfirst; [done|].
  destruct k as [|k]; simpl in *.
  - injection Hx as ->. rewrite Hhigh. f_equal. lia.
  - rewrite (Hfirst 0 z) by (done || lia).
    rewrite (IH (S i) k); [f_equal; lia|done|done|].
    intros j y Hj Hy. apply (Hfirst (S j)); [lia|done].
Qed.

(** [np.argmax] finds the arg-max of a row that is not empty. *)
Lemma np_argmax_arg_max (row : list F) k : np_argmax row = Ok k → arg_max row = k.
Proof.
  intros (x & Hx & Hmax & Hfirst)%np_argmax_spec. unfold arg_max.
  rewrite (first_highest_spec row row 0 k x); [done|done| |].
  - apply forallb_forall. intros y Hy%list_elem_of_In. by rewrite Hmax.
  - intros j y Hj Hy. destruct (highest row y) eqn:Hhigh; [exfalso|done].
    unfold highest in Hhigh. rewrite forallb_forall in Hhigh.
    assert (In x row) as Hin by (apply list_elem_of_In; by eapply list_elem_of_lookup_2).
    specialize (Hhigh x Hin). by rewrite (Hfirst j y Hj Hy) in Hhigh.
Qed.
End ArgmaxSpec.

Lemma position_lookup (chars : list char) k ch :
  NoDup chars → chars !! k = Some ch → position ch chars = k.
Proof.
  intros Hnd. revert k. induction Hnd as [|c chars Hc Hnd IH]; intros k Hk; [done|].
  destruct k as [|k]; simpl in *.
  - injection Hk as ->. by rewrite N.eqb_refl.
  - destruct (N.eqb_spec c ch) as [->|Hne].
    + by apply list_elem_of_lookup_2 in Hk.
    + f_equal. by apply IH.
Qed.

(** ** The sampling loop against greedy decoding *)

Section GreedyFacts.
Context {F : Type} `{!Scalar F}.
Variable d : dataset F.
Variable encoder_model : encoder_model_t F.
Variable decoder_model : decoder_model_t F.

Notation V := (num_decoder_tokens d).

(** The decoder returns, for a one-token sequence, a last output row as
    wide as the target vocabulary. *)
Hypothesis decoder_width :
  ∀ x s, ∃ row, last (decoder_model [x] s).1 = Some row ∧ length row = V.
Hypothesis vocabulary_nonempty : 0 < V.
(** The reverse lookup gives every token the character at its position of
    the vocabulary. *)
Hypothesis reverse_defined :
  ∀ k, k < V →
    ∃ ch, reverse_target_char_index d !! k = Some ch
          ∧ target_characters d !! k = Some ch.

Lemma sampling_loop_S fuel (st : loop_state F) :
  sampling_loop d decoder_model (S fuel) st
  = if stop_condition st then Some (Ok st)
    else match sampling_step d decoder_model st with
         | Ok st' => sampling_loop d decoder_model fuel st'
         | Raise e => Some (Raise e)
         end.
Proof. done. Qed.

(** Under these conditions an iteration never raises. *)
Lemma sampling_step_defined (st : loop_state F) token :
  target_seq st = one_token_seq d token →
  ∃ outs hc row k ch,
    decoder_model [one_hot V token] (states_value st) = (outs, hc)
    ∧ last outs = Some row ∧ np_argmax row = Ok k ∧ k < V
    ∧ target_characters d !! k = Some ch
    ∧ sampling_step d decoder_model st
      = Ok {| target_seq := one_token_seq d k;
              states_value := hc;
              stop_condition :=
                if N.eqb ch NL
                   || (max_decoder_seq_length d <? length (decoded_sentence st ++ [ch]))
                then true else stop_condition st;
              decoded_sentence := decoded_sentence st ++ [ch];
              calls := calls st ++
                [ {| call_target_seq := [one_hot V token];
                     call_states_in := states_value st;
                     call_output_tokens := outs;
                     call_states_out := hc |} ] |}.
Proof.
  intros Hseq.
  destruct (decoder_width (one_hot V token) (states_value st)) as (row & Hrow & Hwidth).
  destruct (decoder_model [one_hot V token] (states_value st)) as [outs hc] eqn:Hdm.
  simpl in Hrow.
  destruct (np_argmax_nonempty row) as (k & Hk & HkV); [lia|].
  rewrite Hwidth in HkV. destruct (reverse_defined k HkV) as (ch & Hch & Hvoc).
  exists outs, hc, row, k, ch. repeat split; try done.
  unfold sampling_step. rewrite Hseq. unfold batch_rows, one_token_seq at 1 2.
  cbn [cells lookup list_lookup default]. unfold id. rewrite Hdm, Hrow.
  cbn [mbind result_bind]. rewrite Hk. cbn [mbind result_bind].
  rewrite (getitem_Some _ _ _ Hch). cbn [mbind result_bind].
  rewrite setitem3_one_token, (proj2 (Nat.ltb_lt _ _) HkV).
  cbn [mbind result_bind]. done.
Qed.

(** The loop returns, within the iterations the cap leaves. *)
Lemma sampling_loop_returns (cap : nat) :
  ∀ (st : loop_state F) token extra,
    stop_condition st = false →
    target_seq st = one_token_seq d token →
    length (decoded_sentence st) + S cap = max_decoder_seq_length d + 1 →
    ∃ st', sampling_loop d decoder_model (S (S cap) + extra) st = Some (Ok st').
Proof.
  induction cap as [|cap IH]; intros st token extra Hstop Hseq Hlen.
  all: destruct (sampling_step_defined st token Hseq)
         as (outs & hc & row & k & ch & Hdm & Hrow & Hk & HkV & Hch & Hstep).
  all: change (S (S ?n) + extra) with (S (S (n + extra))).
  all: rewrite sampling_loop_S, Hstop, Hstep.
  all: rewrite length_app; cbn [length].
  all: destruct (N.eqb ch NL) eqn:Hnl; cbn [orb].
  - rewrite sampling_loop_S. cbn [stop_condition]. by eexists.
  - rewrite sampling_loop_S. cbn [stop_condition].
    rewrite (proj2 (Nat.ltb_lt _ _)) by lia. by eexists.
  - rewrite sampling_loop_S. cbn [stop_condition]. by eexists.
  - match goal with
    | |- context [sampling_loop d decoder_model _ ?s] => set (st1 := s)
    end.
    apply (IH st1 k extra).
    + subst st1. cbn [stop_condition].
      rewrite (proj2 (Nat.ltb_ge _ _)) by lia. done.
    + done.
    + subst st1. cbn [decoded_sentence]. rewrite length_app. simpl. lia.
Qed.

Hypothesis order : strict_weak_order F.

Lemma sampling_loop_greedy (cap : nat) :
  ∀ (st : loop_state F) token extra,
    stop_condition st = false →
    target_seq st = one_token_seq d token →
    length (decoded_sentence st) + S cap = max_decoder_seq_length d + 1 →
    ∃ st',
      sampling_loop d decoder_model (S (S cap) + extra) st = Some (Ok st')
      ∧ decoded_sentence st'
        = decoded_sentence st
          ++ greedy_decode (one_token_step d decoder_model) (vocabulary_char d)
               (S cap) token (states_value st).
Proof.
  induction cap as [|cap IH]; intros st token extra Hstop Hseq Hlen.
  all: destruct (sampling_step_defined st token Hseq)
         as (outs & hc & row & k & ch & Hdm & Hrow & Hk & HkV & Hch & Hstep).
  all: change (S (S ?n) + extra) with (S (S (n + extra))).
  all: rewrite sampling_loop_S, Hstop, Hstep.
  all: cbn [greedy_decode]; unfold one_token_step; rewrite Hdm, Hrow.
  all: cbn [default]; unfold id; rewrite (np_argmax_arg_max order row k Hk).
  all: unfold vocabulary_char; rewrite Hch; cbn [default]; unfold id.
  all: rewrite length_app; cbn [length].
  all: destruct (N.eqb ch NL) eqn:Hnl; cbn [orb].
  - rewrite sampling_loop_S. cbn [stop_condition].
    eexists. split; [done|]. done.
  - rewrite sampling_loop_S. cbn [stop_condition].
    rewrite (proj2 (Nat.ltb_lt _ _)) by lia.
    eexists. split; [done|]. done.
  - rewrite sampling_loop_S. cbn [stop_condition].
    eexists. split; [done|]. done.
  - match goal with
    | |- context [sampling_loop d decoder_model _ ?s] => set (st1 := s)
    end.
    destruct (IH st1 k extra) as (st' & Hloop & Hdec).
    + subst st1. cbn [stop_condition].
      rewrite (proj2 (Nat.ltb_ge _ _)) by lia. done.
    + done.
    + subst st1. cbn [decoded_sentence]. rewrite length_app. simpl. lia.
    + exists st'. split; [done|]. rewrite Hdec. subst st1.
      cbn [decoded_sentence states_value]. by rewrite <- (assoc_L (++)).
Qed.
End GreedyFacts.

(** After the data-preparation cell, the token the index gives the start
    character is its position in the vocabulary. *)
Lemma prepared_start_token {F} `{!Scalar F} (c : corpus) (d : dataset F) :
  loaded c → prepared c d →
  target_token_index d !! TAB = Some (start_token d) ∧ start_token d < num_decoder_tokens d.
Proof.
  intros Hc Hd.
  destruct (prepared_lookups c d Hc Hd) as (_ & _ & (k0 & Hk0 & Hk0V) & _).
  assert (start_token d = k0) as ->; [|done].
  unfold start_token. apply position_lookup.
  - rewrite (prep_target_characters _ _ Hd). apply sorted_NoDup.
  - rewrite (prep_target_index _ _ Hd) in Hk0.
    apply token_index_lookup in Hk0; [done|].
    rewrite (prep_target_characters _ _ Hd). apply sorted_NoDup.
Qed.

(** After the data-preparation cell, with a decoder whose output rows are as
    wide as the target vocabulary and on a batch of one example, the run of
    [decode_sequence] returns without an exception. *)
Lemma decode_sequence_run_returns {F} `{!Scalar F} nsamples content (d : dataset F)
    (encoder_model : encoder_model_t F) (decoder_model : decoder_model_t F) :
  prepare_data nsamples content = Ok d →
  (∀ x s, ∃ row, last (decoder_model [x] s).1 = Some row
                 ∧ length row = num_decoder_tokens d) →
  ∀ input_seq rows extra,
    cells input_seq = [rows] →
    ∃ st,
      decode_sequence_run d encoder_model decoder_model
        (max_decoder_seq_length d + 2 + extra) input_seq = Some (Ok st).
Proof.
  intros (c & Hload & Hc & Hd)%prepare_data_prepared Hwidth input_seq rows extra Hcells.
  destruct (prepared_lookups c d Hc Hd) as (_ & _ & (k0 & Hk0 & Hk0V) & Hrev).
  unfold decode_sequence_run. rewrite (sampling_init_one _ _ _ _ Hcells).
  rewrite (getitem_Some _ _ _ Hk0). cbn [mbind result_bind].
  rewrite setitem3_one_token, (proj2 (Nat.ltb_lt _ _) Hk0V). cbn [mbind result_bind].
  match goal with
  | |- context [sampling_loop d decoder_model _ ?s] => set (st0 := s)
  end.
  assert (0 < num_decoder_tokens d) as Hpos by lia.
  assert (length (decoded_sentence st0) + S (max_decoder_seq_length d)
          = max_decoder_seq_length d + 1) as Hlen by (subst st0; simpl; lia).
  replace (max_decoder_seq_length d + 2 + extra)
    with (S (S (max_decoder_seq_length d)) + extra) by lia.
  by apply (sampling_loop_returns d decoder_model Hwidth Hpos Hrev
              (max_decoder_seq_length d) st0 k0 extra).
Qed.

(** Under the same conditions and with ordered scalars, what it returns is
    what greedy decoding gives. *)
Lemma decode_sequence_run_greedy {F} `{!Scalar F} nsamples content (d : dataset F)
    (encoder_model : encoder_model_t F) (decoder_model : decoder_model_t F) :
  strict_weak_order F →
  prepare_data nsamples content = Ok d →
  (∀ x s, ∃ row, last (decoder_model [x] s).1 = Some row
                 ∧ length row = num_decoder_tokens d) →
  ∀ input_seq rows extra,
    cells input_seq = [rows] →
    ∃ st,
      decode_sequence_run d encoder_model decoder_model
        (max_decoder_seq_length d + 2 + extra) input_seq = Some (Ok st)
      ∧ decoded_sentence st
        = greedy_decode (one_token_step d decoder_model) (vocabulary_char d)
            (max_decoder_seq_length d + 1) (start_token d) (encoder_model rows).
Proof.
  intros Horder (c & Hload & Hc & Hd)%prepare_data_prepared Hwidth
    input_seq rows extra Hcells.
  destruct (prepared_lookups c d Hc Hd) as (_ & _ & _ & Hrev).
  destruct (prepared_start_token c d Hc Hd) as [Hk0 Hk0V].
  unfold decode_sequence_run. rewrite (sampling_init_one _ _ _ _ Hcells).
  rewrite (getitem_Some _ _ _ Hk0). cbn [mbind result_bind].
  rewrite setitem3_one_token, (proj2 (Nat.ltb_lt _ _) Hk0V). cbn [mbind result_bind].
  match goal with
  | |- context [sampling_loop d decoder_model _ ?s] => set (st0 := s)
  end.
  assert (0 < num_decoder_tokens d) as Hpos by lia.
  assert (length (decoded_sentence st0) + S (max_decoder_seq_length d)
          = max_decoder_seq_length d + 1) as Hlen by (subst st0; simpl; lia).
  destruct (sampling_loop_greedy d decoder_model Hwidth Hpos Hrev Horder
              (max_decoder_seq_length d) st0 (start_token d) extra eq_refl eq_refl Hlen)
    as (st' & Hloop & Hdec).
  replace (max_decoder_seq_length d + 2 + extra)
    with (S (S (max_decoder_seq_length d)) + extra) by lia.
  exists st'. split; [done|]. rewrite Hdec. subst st0. simpl.
  by replace (max_decoder_seq_length d + 1) with (S (max_decoder_seq_length d)) by lia.
Qed.

(** Claim C2.  After the data-preparation cell, with scalars under a strict
    weak order, a decoder whose output rows are as wide as the target
    vocabulary, and an input that is a batch of one example,
    [decode_sequence] returns exactly what greedy autoregressive decoding
    gives: start from the token of the start character (its position in the
    vocabulary) and the state the encoder returns for the example; run one
    decoder step, take the arg-max of the output distribution (the first
    position of an entry that no entry exceeds), append the character at
    that position of the vocabulary, feed that token back with the updated
    state; stop on the end marker or when [max_decoder_seq_length + 1]
    characters were appended. *)
Theorem decode_sequence_is_greedy {F} `{!Scalar F} nsamples content (d : dataset F)
    (encoder_model : encoder_model_t F) (decoder_model : decoder_model_t F) :
  strict_weak_order F →
  prepare_data nsamples content = Ok d →
  (∀ x s, ∃ row, last (decoder_model [x] s).1 = Some row
                 ∧ length row = num_decoder_tokens d) →
  ∀ input_seq rows extra,
    cells input_seq = [rows] →
    decode_sequence d encoder_model decoder_model
      (max_decoder_seq_length d + 2 + extra) input_seq
    = Some (Ok (greedy_decode (one_token_step d decoder_model) (vocabulary_char d)
                  (max_decoder_seq_length d + 1) (start_token d)
                  (encoder_model rows))).
Proof.
  intros Horder Hd Hwidth input_seq rows extra Hcells.
  destruct (decode_sequence_run_greedy nsamples content d encoder_model decoder_model
              Horder Hd Hwidth input_seq rows extra Hcells) as (st & Hrun & Hdec).
  unfold decode_sequence. by rewrite Hrun, Hdec.
Qed.

(** Claim C1, as amended.  After the data-preparation cell and with a decoder
    whose output rows are as wide as the target vocabulary, [decode_sequence]
    returns, for every input sequence that is a batch of one example, a
    string; on an empty batch it raises [ValueError]; and a string it
    returns is not empty, has at most [max_decoder_seq_length + 1]
    characters, and either ends with the end marker or has exactly
    [max_decoder_seq_length + 1] characters: the loop stops on the end marker
    or as soon as the length exceeds [max_decoder_seq_length]. *)
Theorem decode_sequence_marker_or_cap {F} `{!Scalar F} nsamples content
    (d : dataset F) (encoder_model : encoder_model_t F)
    (decoder_model : decoder_model_t F) :
  prepare_data nsamples content = Ok d →
  (∀ x s, ∃ row, last (decoder_model [x] s).1 = Some row
                 ∧ length row = num_decoder_tokens d) →
  ∀ input_seq,
    (∀ rows, cells input_seq = [rows] →
       ∀ extra, ∃ s, decode_sequence d encoder_model decoder_model
                       (max_decoder_seq_length d + 2 + extra) input_seq = Some (Ok s))
    ∧ (cells input_seq = [] →
         ∀ fuel, decode_sequence d encoder_model decoder_model fuel input_seq
                 = Some (Raise ValueError))
    ∧ (∀ fuel s,
         decode_sequence d encoder_model decoder_model fuel input_seq = Some (Ok s) →
         s ≠ []
         ∧ length s ≤ max_decoder_seq_length d + 1
         ∧ (last s = Some NL ∨ length s = max_decoder_seq_length d + 1)).
Proof.
  intros Hd Hwidth input_seq. split; [|split].
  - intros rows Hcells extra.
    destruct (decode_sequence_run_returns nsamples content d encoder_model decoder_model
                Hd Hwidth input_seq rows extra Hcells) as (st & Hrun).
    exists (decoded_sentence st). unfold decode_sequence. by rewrite Hrun.
  - intros Hcells fuel. unfold decode_sequence, decode_sequence_run, sampling_init.
    by rewrite Hcells.
  - intros fuel s. unfold decode_sequence.
    destruct (decode_sequence_run _ _ _ _ _) as [[st|e]|] eqn:Hrun; [|done..].
    intros [= <-].
    destruct (loop_lengths_final d encoder_model decoder_model _ _ _ Hrun)
      as [(_ & _ & Hend) Hstop].
    by apply Hend.
Qed.

(** ** The state carried between decoder steps *)

Section StateFacts.
Context {F : Type} `{!Scalar F}.
Variable d : dataset F.
Variable encoder_model : encoder_model_t F.
Variable decoder_model : decoder_model_t F.

Lemma threaded_step (s0 : lstm_state F) (st st' : loop_state F) :
  threaded decoder_model s0 (calls st) (states_value st) →
  sampling_step d decoder_model st = Ok st' →
  threaded decoder_model s0 (calls st') (states_value st').
Proof.
  intros Hth
    (row & k & ch & _ & _ & _ & _ & _ & Hstate & _ & _ & Hlog)%sampling_step_Ok.
  rewrite Hlog, Hstate.
  apply (threaded_snoc decoder_model s0 (calls st) (states_value st)
           {| call_target_seq := batch_rows (target_seq st);
              call_states_in := states_value st;
              call_output_tokens :=
                (decoder_model (batch_rows (target_seq st)) (states_value st)).1;
              call_states_out :=
                (decoder_model (batch_rows (target_seq st)) (states_value st)).2 |});
    [done|done|]. simpl. by destruct (decoder_model _ _).
Qed.

Lemma threaded_final fuel input_seq (st : loop_state F) :
  decode_sequence_run d encoder_model decoder_model fuel input_seq = Some (Ok st) →
  threaded decoder_model (encoder_model (batch_rows input_seq))
           (calls st) (states_value st).
Proof.
  unfold decode_sequence_run.
  destruct (sampling_init d encoder_model input_seq) as [st0|e] eqn:Hinit; [|done].
  apply sampling_init_Ok in Hinit as (_ & _ & Hcalls & Hstate & _).
  intros Hloop.
  apply (sampling_loop_invariant d decoder_model
           (λ st, threaded decoder_model (encoder_model (batch_rows input_seq))
                           (calls st) (states_value st))) in Hloop as [? _]; [done| |].
  - intros st1 st2 Hth _ Hstep. by eapply threaded_step.
  - rewrite Hcalls, Hstate. constructor.
Qed.

(** The rows fed to the decoder so far, followed by the row it is fed
    next, are the one-hot vectors of the start character and of the
    characters decoded so far. *)
Lemma fed_rows_final fuel input_seq (st : loop_state F) :
  (∀ k ch, reverse_target_char_index d !! k = Some ch →
           target_token_index d !! ch = Some k) →
  decode_sequence_run d encoder_model decoder_model fuel input_seq = Some (Ok st) →
  mjoin (call_target_seq <$> calls st) ++ batch_rows (target_seq st)
  = (λ ch, one_hot (num_decoder_tokens d) (tok (target_token_index d) ch))
      <$> (TAB :: decoded_sentence st).
Proof.
  intros Hsound. unfold decode_sequence_run.
  destruct (sampling_init d encoder_model input_seq) as [st0|e] eqn:Hinit; [|done].
  apply sampling_init_Ok in Hinit
    as (_ & Hdec0 & Hcalls0 & _ & (k0 & Hk0 & _ & Hseq0 & _)).
  intros Hloop.
  apply (sampling_loop_invariant d decoder_model
           (λ st, mjoin (call_target_seq <$> calls st) ++ batch_rows (target_seq st)
                  = (λ ch, one_hot (num_decoder_tokens d)
                                   (tok (target_token_index d) ch))
                      <$> (TAB :: decoded_sentence st))) in Hloop as [? _]; [done| |].
  - intros st1 st2 Hinv _
      (row & k & ch & _ & _ & Hch & _ & Hseq & _ & _ & Hdec & Hlog)%sampling_step_Ok.
    rewrite Hlog, Hseq, Hdec, fmap_app, join_app. simpl. rewrite app_nil_r.
    rewrite Hinv, fmap_app. simpl. unfold batch_rows, tok. simpl.
    by rewrite (Hsound _ _ Hch).
  - rewrite Hcalls0, Hseq0, Hdec0. unfold batch_rows, tok. simpl. by rewrite Hk0.
Qed.

Lemma threaded_lookup (s0 s : lstm_state F) cs :
  threaded decoder_model s0 cs s →
  s = from_option call_states_out s0 (last cs)
  ∧ (∀ c, cs !! 0 = Some c → call_states_in c = s0)
  ∧ (∀ j c c', cs !! j = Some c → cs !! S j = Some c' →
       call_states_in c' = call_states_out c)
  ∧ (∀ c, c ∈ cs →
       decoder_model (call_target_seq c) (call_states_in c)
       = (call_output_tokens c, call_states_out c)).
Proof.
  induction 1 as [|cs s c Hth (IHlast & IH0 & IHnext & IHcall) Hin Hdm].
  - repeat split; try done. intros c Hc. by apply elem_of_nil in Hc.
  - rewrite last_snoc. simpl. split; [done|]. split; [|split].
    + intros c0. destruct cs as [|c1 cs]; simpl.
      * intros [= <-]. by rewrite Hin.
      * intros [= <-]. by apply IH0.
    + intros j c1 c2 H1 H2.
      destruct (decide (S j < length cs)) as [Hlt|Hge].
      * rewrite lookup_app_l in H1, H2 by lia. by eapply IHnext.
      * assert (S j = length cs) as Hj.
        { apply lookup_lt_Some in H2. rewrite length_app in H2. simpl in H2. lia. }
        rewrite lookup_app_l in H1 by lia.
        rewrite lookup_app_r, Hj, Nat.sub_diag in H2 by lia. injection H2 as <-.
        rewrite Hin, IHlast.
        assert (last cs = Some c1) as ->; [|done].
        rewrite last_lookup. rewrite <- H1. f_equal. lia.
    + intros c0 [Hc0|Hc0%list_elem_of_singleton]%elem_of_app; [by apply IHcall|].
      by subst.
Qed.

Lemma threaded_take (s0 s : lstm_state F) cs k :
  threaded decoder_model s0 cs s →
  ∃ s', threaded decoder_model s0 (take k cs) s'.
Proof.
  induction 1 as [|cs s c Hth [s' IH] Hin Hdm].
  - exists s0. rewrite take_nil. constructor.
  - destruct (decide (k ≤ length cs)) as [Hle|Hgt].
    + rewrite take_app_le by done. by exists s'.
    + rewrite take_ge by (rewrite length_app; simpl; lia).
      exists (call_states_out c). by eapply threaded_snoc.
Qed.
End StateFacts.

(** ** The inference models against the training graph *)

Section LayerFacts.
Context {F : Type} `{!Scalar F}.
Variables nE nD : nat.
Variables encoder_cell decoder_cell : list F → lstm_state F → lstm_state F.
Variable dense_fn : list F → list F.
Variable d : dataset F.

Notation layers := (model_layers nE nD encoder_cell decoder_cell dense_fn).
Notation training_model := (model encoder_cell decoder_cell dense_fn).

Lemma lstm_call_app cell (s : lstm_state F) xs ys :
  lstm_call cell s (xs ++ ys)
  = ((lstm_call cell s xs).1 ++ (lstm_call cell (lstm_call cell s xs).2 ys).1,
     (lstm_call cell (lstm_call cell s xs).2 ys).2).
Proof.
  revert s. induction xs as [|x xs IH]; intros s; simpl.
  - by destruct (lstm_call cell s ys).
  - rewrite IH. destruct (lstm_call cell (cell x s) xs) as [o1 s1]. simpl.
    by destruct (lstm_call cell s1 ys).
Qed.

Lemma lstm_call_length cell (s : lstm_state F) xs :
  length (lstm_call cell s xs).1 = length xs.
Proof.
  revert s. induction xs as [|x xs IH]; intros s; simpl; [done|].
  specialize (IH (cell x s)). destruct (lstm_call cell (cell x s) xs). simpl in *.
  by rewrite IH.
Qed.

Lemma lstm_call_sized cell units (s : lstm_state F) xs :
  (∀ x st, state_sized units st → state_sized units (cell x st)) →
  state_sized units s → state_sized units (lstm_call cell s xs).2.
Proof.
  intros Hcell. revert s. induction xs as [|x xs IH]; intros s Hs; simpl; [done|].
  specialize (IH (cell x s) (Hcell x s Hs)).
  by destruct (lstm_call cell (cell x s) xs).
Qed.

Lemma zero_state_sized units : state_sized units (zero_state (F:=F) units).
Proof. unfold state_sized, zero_state. simpl. by rewrite length_replicate. Qed.

(** What the inference cell takes out of the layers of the model. *)
Lemma sampling_models_layers em dm :
  sampling_models layers = Ok (em, dm) →
  (∀ encoder_inputs,
     em encoder_inputs
     = (lstm_call encoder_cell (zero_state latent_dim) encoder_inputs).2)
  ∧ (∀ decoder_inputs states,
       dm decoder_inputs states
       = ((dense_fn <$> (lstm_call decoder_cell states decoder_inputs).1),
          (lstm_call decoder_cell states decoder_inputs).2)).
Proof.
  unfold sampling_models, model_layers. simpl. intros [= <- <-]. split; [done|].
  intros xs s. by destruct (lstm_call _ _ _).
Qed.

Lemma model_eq encoder_inputs decoder_inputs :
  training_model encoder_inputs decoder_inputs
  = dense_fn <$>
      (lstm_call decoder_cell
         (lstm_call encoder_cell (zero_state latent_dim) encoder_inputs).2
         decoder_inputs).1.
Proof.
  unfold model. destruct (lstm_call encoder_cell _ _) as [? s]. simpl.
  by destruct (lstm_call decoder_cell _ _).
Qed.

(** Calls that thread the state compute, together, one run of the decoder
    layers over the rows they were fed. *)
Lemma threaded_model dm (s0 s : lstm_state F) cs :
  (∀ decoder_inputs states,
     dm decoder_inputs states
     = ((dense_fn <$> (lstm_call decoder_cell states decoder_inputs).1),
        (lstm_call decoder_cell states decoder_inputs).2)) →
  threaded dm s0 cs s →
  (lstm_call decoder_cell s0 (mjoin (call_target_seq <$> cs))).2 = s
  ∧ dense_fn <$> (lstm_call decoder_cell s0 (mjoin (call_target_seq <$> cs))).1
    = mjoin (call_output_tokens <$> cs).
Proof.
  intros Hdm. induction 1 as [|cs s c Hth [IHs IHo] Hin Hcall]; [done|].
  rewrite !fmap_app, !join_app. simpl. rewrite !app_nil_r.
  rewrite lstm_call_app. simpl. rewrite IHs, fmap_app, IHo.
  rewrite Hdm, Hin in Hcall. injection Hcall as Ho Hs. by rewrite Ho, Hs.
Qed.

Lemma threaded_sized dm units (s0 s : lstm_state F) cs :
  (∀ xs st, state_sized units st → state_sized units (dm xs st).2) →
  state_sized units s0 →
  threaded dm s0 cs s →
  state_sized units s
  ∧ ∀ c, c ∈ cs →
      state_sized units (call_states_in c) ∧ state_sized units (call_states_out c).
Proof.
  intros Hdm Hs0. induction 1 as [|cs s c Hth [IHs IHc] Hin Hcall].
  - split; [done|]. intros c Hc. by apply elem_of_nil in Hc.
  - assert (state_sized units (call_states_out c)) as Hout.
    { specialize (Hdm (call_target_seq c) (call_states_in c)).
      rewrite Hcall, Hin in Hdm. by apply Hdm. }
    split; [done|].
    intros c0 [Hc0|Hc0%list_elem_of_singleton]%elem_of_app; [by apply IHc|].
    subst c0. by rewrite Hin.
Qed.
(** Claim C7.  When the two recurrent cells keep the state vectors at
    length [latent_dim], the state is a pair of vectors (hidden, cell), each
    of length [latent_dim]: the encoder model returns such a pair, the
    training graph runs the decoder from it, and in a run of
    [decode_sequence] the first decoder step is fed the pair the encoder
    returned, every later step the pair the step before returned, all of
    them of that size. *)
Theorem state_is_two_latent_vectors em dm :
  (∀ x st, state_sized latent_dim st → state_sized latent_dim (encoder_cell x st)) →
  (∀ x st, state_sized latent_dim st → state_sized latent_dim (decoder_cell x st)) →
  sampling_models layers = Ok (em, dm) →
  (∀ encoder_inputs, state_sized latent_dim (em encoder_inputs))
  ∧ (∀ encoder_inputs decoder_inputs,
       training_model encoder_inputs decoder_inputs
       = (dm decoder_inputs (em encoder_inputs)).1)
  ∧ (∀ fuel input_seq st,
       decode_sequence_run d em dm fuel input_seq = Some (Ok st) →
       (∀ c, calls st !! 0 = Some c → call_states_in c = em (batch_rows input_seq))
       ∧ (∀ j c c', calls st !! j = Some c → calls st !! S j = Some c' →
            call_states_in c' = call_states_out c)
       ∧ (∀ c, c ∈ calls st →
            dm (call_target_seq c) (call_states_in c)
            = (call_output_tokens c, call_states_out c)
            ∧ state_sized latent_dim (call_states_in c)
            ∧ state_sized latent_dim (call_states_out c))
       ∧ states_value st
         = from_option call_states_out (em (batch_rows input_seq)) (last (calls st))).
Proof.
  intros Henc Hdec [Hem Hdm]%sampling_models_layers.
  assert (∀ encoder_inputs, state_sized latent_dim (em encoder_inputs)) as Hsized.
  { intros x. rewrite Hem. apply lstm_call_sized; [done|apply zero_state_sized]. }
  split; [done|]. split.
  - intros x y. by rewrite model_eq, Hdm, Hem.
  - intros fuel input_seq st Hrun. apply threaded_final in Hrun.
    destruct (threaded_lookup _ _ _ _ Hrun) as (Hlast & H0 & Hnext & Hcall).
    assert (∀ xs s, state_sized latent_dim s → state_sized latent_dim (dm xs s).2)
      as Hkeep.
    { intros xs s Hs. rewrite Hdm. simpl. by apply lstm_call_sized. }
    destruct (threaded_sized dm latent_dim _ _ _ Hkeep (Hsized _) Hrun) as [_ Hall].
    split; [done|]. split; [done|]. split; [|done].
    intros c Hc. split; [by apply Hcall|by apply Hall].
Qed.

(** Claim C8.  The inference models are built from the encoder LSTM, the
    decoder LSTM and the dense layer of the loaded model.  So running the
    decoder model on one more row from the state reached over a prefix
    yields the output rows the training graph has there; in a run of
    [decode_sequence], after any number of decoder steps, the output
    distributions of the steps made are exactly the outputs of the training
    graph on the same input sequence and the rows fed so far; and after the
    data-preparation cell those rows, with the one fed next, are the one-hot
    vectors of the start character and the decoded characters. *)
Theorem stepwise_decoder_matches_training_graph em dm :
  sampling_models layers = Ok (em, dm) →
  (∀ encoder_inputs prefix rows,
     (dm rows (dm prefix (em encoder_inputs)).2).1
     = drop (length prefix) (training_model encoder_inputs (prefix ++ rows)))
  ∧ (∀ fuel input_seq st k,
       decode_sequence_run d em dm fuel input_seq = Some (Ok st) →
       training_model (batch_rows input_seq)
                      (mjoin (call_target_seq <$> take k (calls st)))
       = mjoin (call_output_tokens <$> take k (calls st)))
  ∧ (∀ nsamples content fuel input_seq st,
       prepare_data nsamples content = Ok d →
       decode_sequence_run d em dm fuel input_seq = Some (Ok st) →
       mjoin (call_target_seq <$> calls st) ++ batch_rows (target_seq st)
       = (λ ch, one_hot (num_decoder_tokens d) (tok (target_token_index d) ch))
           <$> (TAB :: decoded_sentence st)).
Proof.
  intros [Hem Hdm]%sampling_models_layers. split; [|split].
  - intros x prefix rows. rewrite model_eq, !Hdm, Hem, lstm_call_app. simpl.
    rewrite fmap_app, drop_app_length'; [done|].
    by rewrite length_fmap, lstm_call_length.
  - intros fuel input_seq st k Hrun. apply threaded_final in Hrun.
    destruct (threaded_take _ _ _ _ k Hrun) as [s' Hk].
    destruct (threaded_model dm _ _ _ Hdm Hk) as [_ Hout].
    by rewrite model_eq, <- Hem.
  - intros nsamples content fuel input_seq st
      (c & _ & _ & Hd)%prepare_data_prepared Hrun.
    eapply fed_rows_final; [|done].
    intros k ch. by apply (prepared_reverse_sound c).
Qed.
End LayerFacts.

(** * The properties on the sample corpus *)

Section SampleFacts.
#[local] Existing Instance Q_scalar.

Example sample_vocabularies :
  input_characters sample_dataset = str " .GHIaimo"
  ∧ target_characters sample_dataset = [TAB; NL] ++ str " !.JSVaeilstu"
  ∧ max_encoder_seq_length sample_dataset = 5
  ∧ max_decoder_seq_length sample_dataset = 10.
Proof. vm_compute. repeat split. Qed.

Example sample_padding :
  slice2 (encoder_input_data sample_dataset) 0 2 = Some (one_hot 9 1)
  ∧ slice2 (encoder_input_data sample_dataset) 0 3 = Some (one_hot 9 0)
  ∧ slice2 (encoder_input_data sample_dataset) 0 5 = None.
Proof. vm_compute. repeat split. Qed.

(** A line with two fields, a corpus without a space, an empty input text
    and an empty file make the data-preparation cell raise. *)
Example two_fields_raise :
  prepare_data num_samples (tsv ["a"; "b"]%string) = Raise ValueError.
Proof. reflexivity. Qed.

Example no_space_raises :
  prepare_data num_samples (tsv ["a"; "b"; "c"]%string) = Raise KeyError.
Proof. vm_compute. reflexivity. Qed.

Example empty_input_text_raises :
  prepare_data num_samples (tsv [EmptyString; "b"; "c"]%string) = Raise NameError.
Proof. vm_compute. reflexivity. Qed.

Example empty_file_raises : prepare_data num_samples [] = Raise ValueError.
Proof. vm_compute. reflexivity. Qed.

Example toy_decode_eleven : toy_decode 12 = Some (Ok (replicate 11 33%N)).
Proof. vm_compute. reflexivity. Qed.

Example toy_decode_needs_fuel : toy_decode 11 = None.
Proof. vm_compute. reflexivity. Qed.

Lemma loader_first_lines_three_fields_witness :
  (0 ≤ num_samples)%Z
  ∧ ∃ c, load_corpus num_samples sample_file = Ok c
         ∧ input_texts c = [str "Go."; str "Hi."; str "I am."].
Proof.
  split; [unfold num_samples; lia|].
  destruct (loader_first_lines_three_fields num_samples sample_file)
    as (_ & _ & Hok & _); [unfold num_samples; lia|].
  destruct Hok as (c & Hload & Hin & _).
  - vm_compute. repeat constructor; by do 3 eexists.
  - exists c. split; [done|]. rewrite Hin. vm_compute. reflexivity.
Defined.

Lemma vocabularies_sorted_and_indexed_witness :
  prepare_data num_samples sample_file = Ok sample_dataset
  ∧ input_characters sample_dataset = str " .GHIaimo"
  ∧ StronglySorted N.lt (input_characters sample_dataset)
  ∧ ∀ ch k, input_token_index sample_dataset !! ch = Some k
            ↔ input_characters sample_dataset !! k = Some ch.
Proof.
  split; [vm_compute; reflexivity|].
  split; [vm_compute; reflexivity|].
  destruct (vocabularies_sorted_and_indexed num_samples sample_file sample_dataset)
    as ((Hsorted & _) & _ & (_ & Hindex) & _); [vm_compute; reflexivity|].
  split; [exact Hsorted|exact Hindex].
Defined.

Lemma teacher_forcing_offset_witness :
  prepare_data num_samples sample_file = Ok sample_dataset
  ∧ is_Some (slice2 (decoder_target_data sample_dataset) 0 0)
  ∧ slice2 (decoder_target_data sample_dataset) 0 0
    = slice2 (decoder_input_data sample_dataset) 0 1.
Proof.
  split; [vm_compute; reflexivity|].
  destruct (teacher_forcing_offset num_samples sample_file sample_dataset)
    with (i := 0) (txt := [TAB] ++ str "Va !" ++ [NL]) as (Hshift & _);
    [vm_compute; reflexivity..|].
  apply (Hshift 0). vm_compute. lia.
Defined.

Lemma tensors_are_one_hot_witness :
  load_corpus num_samples sample_file = Ok sample_corpus
  ∧ ∃ d : dataset Q,
      prepare_data num_samples sample_file = Ok d
      ∧ ∃ row, slice2 (encoder_input_data d) 0 4 = Some row
               ∧ is_one_hot (num_encoder_tokens d) row
               ∧ encodes (input_token_index d) (num_encoder_tokens d) SPACE row.
Proof.
  split; [vm_compute; reflexivity|].
  destruct (tensors_are_one_hot (F:=Q) num_samples sample_file sample_corpus)
    as (d & Hd & _ & _ & _ & Henc & _).
  - vm_compute. reflexivity.
  - apply (bool_decide_unpack _). vm_compute. exact I.
  - apply (bool_decide_unpack _). vm_compute. exact I.
  - apply (bool_decide_unpack _). vm_compute. exact I.
  - apply (bool_decide_unpack _). vm_compute. exact I.
  - exists d. split; [exact Hd|].
    apply (Henc 0 (str "Go.") 4); [reflexivity|].
    vm_compute in Hd. injection Hd as <-. vm_compute. lia.
Defined.

Lemma markers_and_lookups_defined_witness :
  prepare_data num_samples sample_file = Ok sample_dataset
  ∧ TAB ∈ target_characters sample_dataset ∧ NL ∈ target_characters sample_dataset
  ∧ ∃ k, getitem (target_token_index sample_dataset) TAB = Ok k
         ∧ k < num_decoder_tokens sample_dataset.
Proof.
  split; [vm_compute; reflexivity|].
  destruct (markers_and_lookups_defined num_samples sample_file sample_dataset)
    as (_ & Htab & Hnl & Hstart & _); [vm_compute; reflexivity|].
  split; [exact Htab|]. split; [exact Hnl|exact Hstart].
Defined.

(** On the sample corpus the longest target text has ten characters; the
    stand-in decoder never emits the end marker, and [decode_sequence]
    returns eleven characters, the last of which is not the end marker:
    the returned string neither ends with the end marker nor stays within
    [max_decoder_seq_length]. *)
Lemma decode_sequence_exceeds_max_length :
  prepare_data num_samples sample_file = Ok sample_dataset
  ∧ max_decoder_seq_length sample_dataset = 10
  ∧ toy_decode 12 = Some (Ok (replicate 11 33%N))
  ∧ ¬ (last (replicate 11 33%N) = Some NL
       ∨ length (replicate 11 33%N) ≤ max_decoder_seq_length sample_dataset).
Proof.
  split; [vm_compute; reflexivity|].
  split; [vm_compute; reflexivity|].
  split; [vm_compute; reflexivity|].
  vm_compute. intros [Hlast|Hlen]; [discriminate|lia].
Defined.

Lemma Q_above (x y : Q) : fgtb x y = true ↔ (y < x)%Q.
Proof.
  unfold fgtb, Q_scalar. rewrite negb_true_iff, <- not_true_iff_false, Qle_bool_iff.
  split; [apply Qnot_le_lt|apply Qlt_not_le].
Qed.

Lemma Q_strict_weak_order : strict_weak_order Q.
Proof.
  split; [|split].
  - intros a. apply not_true_iff_false. rewrite Q_above. apply Qlt_irrefl.
  - intros a b c. rewrite !Q_above. intros Hab Hbc. by eapply Qlt_trans.
  - intros a b c. rewrite !Q_above. intros Hba.
    destruct (Qlt_le_dec c a) as [Hca|Hac]; [by left|right].
    by eapply Qlt_le_trans.
Qed.

Lemma Q_one_above_zero : fgtb (F:=Q) fone fzero = true.
Proof. reflexivity. Qed.

Lemma toy_decoder_width x s :
  ∃ row, last (toy_decoder_model (num_decoder_tokens sample_dataset) [x] s).1 = Some row
         ∧ length row = num_decoder_tokens sample_dataset.
Proof. eexists. split; [reflexivity|]. apply one_hot_length. Defined.

Lemma sample_input_seq_one : cells sample_input_seq = [batch_rows sample_input_seq].
Proof. reflexivity. Qed.

Lemma decode_sequence_marker_or_cap_witness :
  prepare_data num_samples sample_file = Ok sample_dataset
  ∧ cells sample_input_seq = [batch_rows sample_input_seq]
  ∧ (∃ s, toy_decode (max_decoder_seq_length sample_dataset + 2 + 0) = Some (Ok s))
  ∧ toy_decode 12 = Some (Ok (replicate 11 33%N))
  ∧ replicate 11 33%N ≠ []
  ∧ length (replicate 11 33%N) ≤ max_decoder_seq_length sample_dataset + 1
  ∧ (last (replicate 11 33%N) = Some NL
     ∨ length (replicate 11 33%N) = max_decoder_seq_length sample_dataset + 1).
Proof.
  split; [vm_compute; reflexivity|].
  split; [exact sample_input_seq_one|].
  destruct (decode_sequence_marker_or_cap num_samples sample_file sample_dataset
              toy_encoder_model (toy_decoder_model (num_decoder_tokens sample_dataset)))
    with (input_seq := sample_input_seq) as (Hreturns & _ & Hshape).
  - vm_compute. reflexivity.
  - exact toy_decoder_width.
  - split; [exact (Hreturns _ sample_input_seq_one 0)|].
    split; [vm_compute; reflexivity|].
    apply (Hshape 12). vm_compute. reflexivity.
Defined.

Lemma decode_sequence_is_greedy_witness :
  strict_weak_order Q
  ∧ prepare_data num_samples sample_file = Ok sample_dataset
  ∧ cells sample_input_seq = [batch_rows sample_input_seq]
  ∧ toy_decode (max_decoder_seq_length sample_dataset + 2 + 0)
    = Some (Ok (greedy_decode
                  (one_token_step sample_dataset
                     (toy_decoder_model (num_decoder_tokens sample_dataset)))
                  (vocabulary_char sample_dataset)
                  (max_decoder_seq_length sample_dataset + 1)
                  (start_token sample_dataset)
                  (toy_encoder_model (batch_rows sample_input_seq)))).
Proof.
  split; [exact Q_strict_weak_order|].
  split; [vm_compute; reflexivity|].
  split; [exact sample_input_seq_one|].
  apply (decode_sequence_is_greedy num_samples sample_file sample_dataset
           toy_encoder_model (toy_decoder_model (num_decoder_tokens sample_dataset))).
  - exact Q_strict_weak_order.
  - vm_compute. reflexivity.
  - exact toy_decoder_width.
  - exact sample_input_seq_one.
Defined.

Lemma toy_cell_sized x (st : lstm_state Q) :
  state_sized latent_dim st → state_sized latent_dim (toy_cell x st).
Proof. intros [Hh Hc]. split; assumption. Defined.

Lemma state_is_two_latent_vectors_witness :
  (∀ encoder_inputs, state_sized latent_dim (toy_encoder_model encoder_inputs))
  ∧ toy_decode_run 12 = Some (Ok toy_final_state)
  ∧ length (calls toy_final_state) = 11
  ∧ ∀ j c c', calls toy_final_state !! j = Some c →
              calls toy_final_state !! S j = Some c' →
              call_states_in c' = call_states_out c.
Proof.
  destruct (state_is_two_latent_vectors
              (num_encoder_tokens sample_dataset) (num_decoder_tokens sample_dataset)
              toy_cell toy_cell (toy_dense (num_decoder_tokens sample_dataset))
              sample_dataset
              toy_encoder_model (toy_decoder_model (num_decoder_tokens sample_dataset))
              toy_cell_sized toy_cell_sized eq_refl)
    as (Hsized & _ & Hrun).
  split; [exact Hsized|].
  split; [vm_compute; reflexivity|].
  split; [vm_compute; reflexivity|].
  apply (Hrun 12 sample_input_seq toy_final_state). vm_compute. reflexivity.
Defined.

Lemma stepwise_decoder_matches_training_graph_witness :
  toy_decode_run 12 = Some (Ok toy_final_state)
  ∧ model toy_cell toy_cell (toy_dense (num_decoder_tokens sample_dataset))
          (batch_rows sample_input_seq)
          (mjoin (call_target_seq <$> take 3 (calls toy_final_state)))
    = mjoin (call_output_tokens <$> take 3 (calls toy_final_state))
  ∧ mjoin (call_target_seq <$> take 3 (calls toy_final_state))
    = [one_hot 15 0; one_hot 15 3; one_hot 15 3].
Proof.
  split; [vm_compute; reflexivity|].
  destruct (stepwise_decoder_matches_training_graph
              (num_encoder_tokens sample_dataset) (num_decoder_tokens sample_dataset)
              toy_cell toy_cell (toy_dense (num_decoder_tokens sample_dataset))
              sample_dataset
              toy_encoder_model (toy_decoder_model (num_decoder_tokens sample_dataset))
              eq_refl)
    as (_ & Hrun & _).
  split; [|vm_compute; reflexivity].
  apply (Hrun 12). vm_compute. reflexivity.
Defined.
End SampleFacts.

(** * Further properties of the notebook's code *)

(** ** Splitting and the loader *)

Lemma split_length sep s : length (split sep s) = S (occurrences sep s).
Proof.
  unfold occurrences. induction s as [|c s IH]; simpl; [done|].
  destruct (N.eqb_spec c sep) as [->|Hne].
  - rewrite filter_cons_True by done. simpl. by rewrite IH.
  - rewrite filter_cons_False by done.
    destruct (split sep s) as [|f fs] eqn:Hs; [by apply split_nonempty in Hs|].
    simpl in *. done.
Qed.

Lemma split_fields_no_sep sep s : Forall (λ f, sep ∉ f) (split sep s).
Proof.
  induction s as [|c s IH]; simpl.
  - repeat constructor. by intros ?%elem_of_nil.
  - destruct (N.eqb_spec c sep) as [->|Hne].
    + constructor; [by intros ?%elem_of_nil|done].
    + destruct (split sep s) as [|f fs]; [repeat constructor; set_solver|].
      apply Forall_cons in IH as [Hf Hfs]. constructor; [set_solver|done].
Qed.

Lemma split_join sep s : join sep (split sep s) = s.
Proof.
  induction s as [|c s IH]; simpl; [done|].
  destruct (N.eqb_spec c sep) as [->|Hne].
  - destruct (split sep s) as [|f fs] eqn:Hs; [by apply split_nonempty in Hs|].
    simpl in *. by rewrite IH.
  - destruct (split sep s) as [|f [|g fs]] eqn:Hs; [by apply split_nonempty in Hs|..];
      simpl in *; by rewrite <- IH.
Qed.

Lemma split_lines_no_newline content line :
  line ∈ split NL content → NL ∉ line.
Proof.
  intros Hin. pose proof (split_fields_no_sep NL content) as Hall.
  rewrite Forall_forall in Hall. by apply Hall.
Qed.

Lemma processed_lines_subset nsamples (lines : list text) line :
  line ∈ processed_lines nsamples lines → line ∈ lines.
Proof.
  unfold processed_lines, slice_to. destruct (_ <=? _)%Z; apply subseteq_take.
Qed.

(** X1.  Loading succeeds exactly when every line the loop visits contains
    exactly two tab characters. *)
Theorem load_corpus_iff_two_tabs (nsamples : Z) (content : text) :
  (∃ c, load_corpus nsamples content = Ok c)
  ↔ Forall (λ line, occurrences TAB line = 2)
           (processed_lines nsamples (split NL content)).
Proof.
  pose proof (load_corpus_spec nsamples content) as Hspec. simpl in Hspec.
  assert (∀ line, length (split TAB line) = 3 ↔ occurrences TAB line = 2) as Hcount.
  { intros line. rewrite split_length. lia. }
  split.
  - intros [c Hc]. rewrite Hc in Hspec. destruct Hspec as [Hall _].
    eapply Forall_impl; [exact Hall|]. intros line. apply Hcount.
  - intros Hall. destruct (load_corpus nsamples content) as [c|e]; [by eexists|].
    destruct Hspec as [_ Hex]. exfalso.
    apply Exists_exists in Hex as (line & Hin & Hne).
    rewrite Forall_forall in Hall. apply Hne, Hcount. by apply Hall.
Qed.

(** The parts of a line with three fields. *)
Lemma split_three_parts (line : text) :
  length (split TAB line) = 3 →
  ∃ a b n, split TAB line = [a; b; n]
           ∧ line = a ++ [TAB] ++ b ++ [TAB] ++ n
           ∧ TAB ∉ a ∧ TAB ∉ b ∧ TAB ∉ n.
Proof.
  intros Hlen.
  pose proof (split_join TAB line) as Hjoin.
  pose proof (split_fields_no_sep TAB line) as Hno.
  destruct (split TAB line) as [|a [|b [|n [|? ?]]]]; try done.
  apply Forall_cons in Hno as [Ha Hno]. apply Forall_cons in Hno as [Hb Hno].
  apply Forall_cons in Hno as [Hn _].
  exists a, b, n. simpl in *. repeat split; done.
Qed.

(** The texts of a loaded corpus hold the markers where the loader put them,
    and nowhere else. *)
Lemma loaded_texts_clean nsamples content c i :
  load_corpus nsamples content = Ok c →
  (∀ txt, input_texts c !! i = Some txt → TAB ∉ txt ∧ NL ∉ txt)
  ∧ (∀ txt, target_texts c !! i = Some txt →
       ∃ body, txt = [TAB] ++ body ++ [NL] ∧ TAB ∉ body ∧ NL ∉ body).
Proof.
  intros Hload.
  pose proof (load_corpus_spec nsamples content) as Hspec. simpl in Hspec.
  rewrite Hload in Hspec. destruct Hspec as (Hall & Hin & Htg & _).
  rewrite Forall_lookup in Hall. rewrite Hin, Htg, !list_lookup_fmap.
  destruct (processed_lines nsamples (split NL content) !! i) as [line|] eqn:Hline;
    [|done].
  destruct (split_three_parts line (Hall i line Hline))
    as (a & b & n & Hsplit & Hparts & Ha & Hb & Hn).
  assert (NL ∉ line) as Hnl.
  { apply (split_lines_no_newline content).
    eapply processed_lines_subset. by eapply list_elem_of_lookup_2. }
  simpl. unfold marked_target, field. rewrite Hsplit. simpl.
  rewrite Hparts in Hnl. split.
  - intros txt [= <-]. split; [done|set_solver].
  - intros txt [= <-]. exists b. split; [done|]. split; [done|set_solver].
Qed.

(** X2.  When loading succeeds, each visited line is
    [input_text TAB body TAB note] with no tab in any of the three parts and
    no newline in the line; the loader keeps [input_text] and makes the target
    text [TAB body NL], and drops [note]. *)
Theorem loaded_line_structure (nsamples : Z) (content : text) (c : corpus) :
  load_corpus nsamples content = Ok c →
  ∀ i line,
    processed_lines nsamples (split NL content) !! i = Some line →
    ∃ input_text body note,
      input_texts c !! i = Some input_text
      ∧ target_texts c !! i = Some ([TAB] ++ body ++ [NL])
      ∧ line = input_text ++ [TAB] ++ body ++ [TAB] ++ note
      ∧ (TAB ∉ input_text ∧ TAB ∉ body ∧ TAB ∉ note)
      ∧ NL ∉ line.
Proof.
  intros Hload i line Hline.
  pose proof (load_corpus_spec nsamples content) as Hspec. simpl in Hspec.
  rewrite Hload in Hspec. destruct Hspec as (Hall & Hin & Htg & _).
  rewrite Forall_lookup in Hall.
  destruct (split_three_parts line (Hall i line Hline))
    as (a & b & n & Hsplit & Hparts & Ha & Hb & Hn).
  assert (NL ∉ line) as Hnl.
  { apply (split_lines_no_newline content).
    eapply processed_lines_subset. by eapply list_elem_of_lookup_2. }
  rewrite Hin, Htg, !list_lookup_fmap, Hline. simpl. unfold marked_target, field.
  rewrite Hsplit. simpl. exists a, b, n. repeat split; done.
Qed.

(** X3.  In every target text of a loaded corpus the start marker occurs
    only as the first character and the end marker only as the last; no input
    text contains a tab or a newline. *)
Theorem markers_only_at_the_ends (nsamples : Z) (content : text) (c : corpus) :
  load_corpus nsamples content = Ok c →
  (∀ txt, txt ∈ target_texts c →
     ∀ j, (txt !! j = Some TAB ↔ j = 0) ∧ (txt !! j = Some NL ↔ S j = length txt))
  ∧ (∀ txt, txt ∈ input_texts c → TAB ∉ txt ∧ NL ∉ txt).
Proof.
  intros Hload. split.
  - intros txt [i Hi]%list_elem_of_lookup_1.
    destruct (loaded_texts_clean nsamples content c i Hload) as [_ Htgt].
    destruct (Htgt txt Hi) as (body & -> & Hb & Hbnl).
    intros j. simpl. rewrite length_app. simpl.
    destruct j as [|j]; simpl.
    + split; [split; [done|by intros _]|].
      split; [intros [= ?]; done|intros; lia].
    + destruct (decide (j < length body)) as [Hjb|Hjb].
      * rewrite lookup_app_l by done.
        split; (split; [intros Hj|intros; lia]).
        -- by apply list_elem_of_lookup_2 in Hj.
        -- by apply list_elem_of_lookup_2 in Hj.
      * rewrite lookup_app_r by lia.
        destruct (j - length body) as [|k] eqn:Hk; simpl.
        -- split; [split; [intros [= ?]; done|intros; lia]|].
           split; [intros _; lia|done].
        -- split; (split; [done|intros; lia]).
  - intros txt [i Hi]%list_elem_of_lookup_1.
    destruct (loaded_texts_clean nsamples content c i Hload) as [Hinp _].
    by apply Hinp.
Qed.

(** X4.  With a non-negative sample count, the number of sentence pairs
    loaded is the smaller of the sample count and the number of newline
    characters in the file: what follows the last newline is never read. *)
Theorem loaded_pairs_count (nsamples : Z) (content : text) (c : corpus) :
  (0 ≤ nsamples)%Z →
  load_corpus nsamples content = Ok c →
  length (input_texts c) = Z.to_nat nsamples `min` occurrences NL content
  ∧ length (target_texts c) = length (input_texts c).
Proof.
  intros Hn Hload.
  pose proof (load_corpus_spec nsamples content) as Hspec. simpl in Hspec.
  rewrite Hload in Hspec. destruct Hspec as (_ & -> & -> & _).
  rewrite !length_fmap. split; [|done].
  unfold processed_lines. rewrite slice_to_nonneg by (rewrite split_length; lia).
  rewrite length_take, split_length. lia.
Qed.

(** X5.  With a negative sample count the slice counts from the end of the
    file: the pieces of the split are the visited lines followed by the
    dropped ones, the dropped ones are the last [- num_samples] (all, when
    there are fewer), and the texts of the corpus are those of the visited
    lines, in their order.  So with [-1] every line that ends with a newline
    is loaded. *)
Theorem negative_sample_count (nsamples : Z) (content : text) (c : corpus) :
  (nsamples < 0)%Z →
  load_corpus nsamples content = Ok c →
  ∃ visited dropped,
    split NL content = visited ++ dropped
    ∧ length dropped = Z.to_nat (- nsamples) `min` length (split NL content)
    ∧ processed_lines nsamples (split NL content) = visited
    ∧ input_texts c = field 0 <$> visited
    ∧ target_texts c = marked_target <$> visited
    ∧ length (input_texts c)
      = Z.to_nat (Z.of_nat (S (occurrences NL content)) + nsamples).
Proof.
  intros Hn Hload.
  pose proof (load_corpus_spec nsamples content) as Hspec. simpl in Hspec.
  rewrite Hload in Hspec. destruct Hspec as (_ & -> & -> & _).
  assert (processed_lines nsamples (split NL content)
          = take (Z.to_nat (Z.of_nat (length (split NL content)) + nsamples))
                 (split NL content)) as ->.
  { unfold processed_lines, slice_to.
    destruct (Z.leb_spec 0 (nsamples `min` (Z.of_nat (length (split NL content)) - 1)));
      [lia|].
    f_equal. lia. }
  exists (take (Z.to_nat (Z.of_nat (length (split NL content)) + nsamples))
               (split NL content)),
         (drop (Z.to_nat (Z.of_nat (length (split NL content)) + nsamples))
               (split NL content)).
  split; [by rewrite take_drop|]. split; [rewrite length_drop; lia|].
  repeat split; try done.
  rewrite length_fmap, length_take, split_length. lia.
Qed.

Lemma Forall2_fmap_eq {A B} (f : A → B) (xs ys : list A) :
  Forall2 (λ x y, f x = f y) xs ys → f <$> xs = f <$> ys.
Proof. induction 1 as [|x y xs ys Hxy _ IH]; [done|]. rewrite !fmap_cons. by f_equal. Qed.

Lemma load_corpus_fields nsamples content :
  Forall (λ line, length (split TAB line) = 3)
         (processed_lines nsamples (split NL content)) →
  load_corpus nsamples content
  = Ok {| input_texts := field 0 <$> processed_lines nsamples (split NL content);
          target_texts := marked_target <$> processed_lines nsamples (split NL content);
          input_character_set :=
            list_to_set (mjoin (field 0 <$> processed_lines nsamples (split NL content)));
          target_character_set :=
            list_to_set
              (mjoin (marked_target <$> processed_lines nsamples (split NL content))) |}.
Proof.
  intros Hall. pose proof (load_corpus_spec nsamples content) as Hspec. simpl in Hspec.
  destruct (load_corpus nsamples content) as [c|e].
  - destruct Hspec as (_ & Hi & Ht & Hic & Htc). destruct c. simpl in *. by subst.
  - destruct Hspec as [_ Hex]. apply Exists_exists in Hex as (line & Hin & Hne).
    rewrite Forall_forall in Hall. by specialize (Hall line Hin).
Qed.

Section IgnoredFacts.
Context {F : Type} `{!Scalar F}.

(** X6.  Only the first two fields of the visited lines matter: two files
    whose visited lines have three fields each and agree, line by line, on
    the first and on the second field are loaded, and prepared, to the same
    result.  The third field, and every line after the visited ones, are
    never looked at. *)
Theorem only_two_fields_matter (nsamples : Z) (content1 content2 : text) :
  Forall2 (λ line1 line2,
             (length (split TAB line1) = 3 ∧ length (split TAB line2) = 3)
             ∧ field 0 line1 = field 0 line2 ∧ field 1 line1 = field 1 line2)
          (processed_lines nsamples (split NL content1))
          (processed_lines nsamples (split NL content2)) →
  load_corpus nsamples content1 = load_corpus nsamples content2
  ∧ prepare_data (F:=F) nsamples content1 = prepare_data nsamples content2.
Proof.
  intros Hall.
  assert (load_corpus nsamples content1 = load_corpus nsamples content2) as Heq.
  { rewrite !load_corpus_fields.
    - assert (field 0 <$> processed_lines nsamples (split NL content1)
              = field 0 <$> processed_lines nsamples (split NL content2)) as ->.
      { apply Forall2_fmap_eq. eapply Forall2_impl; [exact Hall|]. naive_solver. }
      assert (marked_target <$> processed_lines nsamples (split NL content1)
              = marked_target <$> processed_lines nsamples (split NL content2)) as ->.
      { apply Forall2_fmap_eq. eapply Forall2_impl; [exact Hall|].
        intros l1 l2 (_ & _ & H1). unfold marked_target. by rewrite H1. }
      done.
    - eapply Forall2_Forall_r; [exact Hall|]. apply Forall_true. naive_solver.
    - eapply Forall2_Forall_l; [exact Hall|]. apply Forall_true. naive_solver. }
  split; [done|]. unfold prepare_data. by rewrite Heq.
Qed.
End IgnoredFacts.

(** ** The reverse lookups and the maximal lengths *)

Lemma dict_lookup_elem_of `{Countable K} {V} (pairs : list (K * V)) k v :
  dict pairs !! k = Some v → (k, v) ∈ pairs.
Proof.
  induction pairs as [|[k' v'] pairs IH] using rev_ind.
  - unfold dict. simpl. by rewrite lookup_empty.
  - rewrite dict_snoc, elem_of_app, list_elem_of_singleton.
    destruct (decide (k' = k)) as [->|Hne].
    + rewrite lookup_insert_eq. intros [= ->]. by right.
    + rewrite lookup_insert_ne by done. intros Hk. left. by apply IH.
Qed.

Lemma dict_lookup_is_Some `{Countable K} {V} (pairs : list (K * V)) k :
  is_Some (dict pairs !! k) ↔ k ∈ pairs.*1.
Proof.
  induction pairs as [|[k' v'] pairs IH] using rev_ind.
  - unfold dict. simpl. rewrite lookup_empty. split; [by intros [? ?]|set_solver].
  - rewrite dict_snoc, fmap_app, elem_of_app. simpl. rewrite list_elem_of_singleton.
    destruct (decide (k' = k)) as [->|Hne].
    + rewrite lookup_insert_eq. split; [by right|by eexists].
    + rewrite lookup_insert_ne by done. rewrite IH. naive_solver.
Qed.

Lemma reverse_char_index_Some (index : gmap char nat) i c :
  reverse_char_index index !! i = Some c → index !! c = Some i.
Proof.
  unfold reverse_char_index. intros Hc%dict_lookup_elem_of.
  apply list_elem_of_fmap in Hc as ([c' i'] & [= -> ->] & Hin).
  by apply elem_of_map_to_list in Hin.
Qed.

(** X7.  Whatever the index, the reversed index only holds pairs of the
    index, and is defined exactly at the tokens the index uses: if
    [reverse[i]] is [c] then [index[c]] is [i]. *)
Theorem reverse_char_index_sound (index : gmap char nat) (i : nat) :
  (∀ c, reverse_char_index index !! i = Some c → index !! c = Some i)
  ∧ (is_Some (reverse_char_index index !! i) ↔ ∃ c, index !! c = Some i).
Proof.
  split; [intros c; apply reverse_char_index_Some|].
  unfold reverse_char_index.
  - rewrite dict_lookup_is_Some, <- list_fmap_compose, list_elem_of_fmap. split.
    + intros ([c i'] & -> & Hin). exists c. by apply elem_of_map_to_list in Hin.
    + intros [c Hc]. exists (c, i). split; [done|]. by apply elem_of_map_to_list.
Qed.

Lemma foldl_max_elem_of (l : list nat) (x : nat) : foldl Nat.max x l ∈ x :: l.
Proof.
  revert x. induction l as [|y l IH]; intros x; simpl; [by left|].
  specialize (IH (x `max` y)). apply elem_of_cons in IH as [Heq|Hin].
  - rewrite Heq. destruct (Nat.max_spec x y) as [[_ ->]|[_ ->]]; set_solver.
  - set_solver.
Qed.

Lemma py_max_elem_of (l : list nat) m : py_max l = Ok m → m ∈ l.
Proof. destruct l as [|x l]; simpl; [done|]. intros [= <-]. apply foldl_max_elem_of. Qed.

Section IndexFacts.
Context {F : Type} `{!Scalar F}.

(** X8.  After the data-preparation cell, each reverse lookup is the
    inverse of its token index: [reverse[k]] is [ch] exactly when
    [index[ch]] is [k], and it is defined exactly at the tokens below the
    vocabulary size. *)
Theorem reverse_lookups_invert nsamples content (d : dataset F) :
  prepare_data nsamples content = Ok d →
  (∀ k ch, reverse_input_char_index d !! k = Some ch
           ↔ input_token_index d !! ch = Some k)
  ∧ (∀ k, is_Some (reverse_input_char_index d !! k) ↔ k < num_encoder_tokens d)
  ∧ (∀ k ch, reverse_target_char_index d !! k = Some ch
             ↔ target_token_index d !! ch = Some k)
  ∧ (∀ k, is_Some (reverse_target_char_index d !! k) ↔ k < num_decoder_tokens d).
Proof.
  intros (c & Hload & Hc & Hd)%prepare_data_prepared. destruct Hd.
  unfold reverse_input_char_index, reverse_target_char_index.
  rewrite prep_num_encoder_tokens0, prep_num_decoder_tokens0.
  rewrite prep_input_index0, prep_target_index0.
  rewrite prep_input_characters0, prep_target_characters0.
  assert (∀ chars k ch,
            reverse_char_index (token_index (sorted chars)) !! k = Some ch
            ↔ token_index (sorted chars) !! ch = Some k) as Hinv.
  { intros chars k ch. apply reverse_char_index_lookup.
    intros c1 c2 j. apply token_index_inj, sorted_NoDup. }
  assert (∀ chars k,
            is_Some (reverse_char_index (token_index (sorted chars)) !! k)
            ↔ k < length (sorted chars)) as Hdom.
  { intros chars k. rewrite <- lookup_lt_is_Some. unfold is_Some.
    setoid_rewrite Hinv. setoid_rewrite token_index_lookup; [done|].
    apply sorted_NoDup. }
  repeat split; try apply Hinv; apply Hdom.
Qed.

(** X9.  After the data-preparation cell, each maximal length is the length
    of one of the texts of its side and no text of that side is longer, so
    no character falls outside the time axis; the decoder side has at least
    the two markers. *)
Theorem max_lengths_attained nsamples content (d : dataset F) :
  prepare_data nsamples content = Ok d →
  (∃ txt, txt ∈ input_texts (texts d) ∧ length txt = max_encoder_seq_length d)
  ∧ (∀ txt, txt ∈ input_texts (texts d) → length txt ≤ max_encoder_seq_length d)
  ∧ (∃ txt, txt ∈ target_texts (texts d) ∧ length txt = max_decoder_seq_length d)
  ∧ (∀ txt, txt ∈ target_texts (texts d) → length txt ≤ max_decoder_seq_length d)
  ∧ 2 ≤ max_decoder_seq_length d.
Proof.
  intros (c & Hload & Hc & Hd)%prepare_data_prepared. destruct Hd, Hc.
  rewrite prep_texts0.
  pose proof (py_max_spec (length <$> input_texts c)) as Hi.
  pose proof (py_max_spec (length <$> target_texts c)) as Ht.
  rewrite prep_max_encoder0 in Hi. rewrite prep_max_decoder0 in Ht.
  destruct Hi as [_ Hi], Ht as [_ Ht]. rewrite Forall_fmap, Forall_forall in Hi, Ht.
  apply py_max_elem_of, list_elem_of_fmap in prep_max_encoder0 as (ti & Hti & Hin_i).
  apply py_max_elem_of, list_elem_of_fmap in prep_max_decoder0 as (tt & Htt & Hin_t).
  split; [by exists ti|]. split; [exact Hi|].
  split; [by exists tt|]. split; [exact Ht|].
  rewrite Forall_forall in loaded_marks0.
  destruct (loaded_marks0 tt Hin_t) as [body ->].
  rewrite Htt, !length_app. simpl. lia.
Qed.
End IndexFacts.

(** ** The outcome of the data-preparation cell *)

Lemma token_index_None (chars : gset char) c :
  c ∉ chars → token_index (sorted chars) !! c = None.
Proof.
  intros Hc. destruct (token_index (sorted chars) !! c) as [k|] eqn:Hk; [|done].
  apply token_index_lookup in Hk; [|apply sorted_NoDup].
  apply list_elem_of_lookup_2, sorted_elem_of in Hk. done.
Qed.

Section OutcomeFacts.
Context {F : Type} `{!Scalar F}.

Lemma fits_all_ok index i txt (a : ndarray3 F) :
  fits index i txt a → all_ok (index_ok index (shape a) i) 0 txt = true.
Proof. intros (? & ? & ? & _). by apply all_ok_true. Qed.

(** Which exception one sentence pair raises. *)
Lemma vectorize_pair_outcome in_idx tgt_idx i inp tgt (st : vstate F) :
  shape (dec_tgt st) = shape (dec_in st) → tgt ≠ [] →
  fits in_idx i inp (enc st) → fits tgt_idx i tgt (dec_in st) →
  match vectorize_pair in_idx tgt_idx i inp tgt st with
  | Ok _ => True
  | Raise e =>
      (e = NameError ∧ last_index 0 inp (t_var st) = None)
      ∨ (e = KeyError ∧ is_Some (last_index 0 inp (t_var st))
         ∧ (in_idx !! SPACE = None ∨ tgt_idx !! SPACE = None))
  end.
Proof.
  intros Hshape Htgt Hfi Hft. unfold vectorize_pair.
  pose proof (encoder_loop_spec in_idx i inp 0 (enc st) (t_var st)) as He.
  rewrite (fits_all_ok _ _ _ _ Hfi) in He.
  destruct (for_enumerate _ 0 inp _ _) as [[e1 t1o]|err]; [|done].
  destruct He as (_ & -> & ->). cbn [mbind result_bind].
  destruct (last_index 0 inp (t_var st)) as [t1|] eqn:Hlast; simpl; [|by left].
  destruct (in_idx !! SPACE) as [sp|] eqn:Hsp;
    [rewrite (getitem_Some _ _ _ Hsp)|rewrite (getitem_None _ _ Hsp)]; simpl.
  2: { right. eauto. }
  destruct Hfi as (Hi & _ & _ & Hspb). specialize (Hspb sp Hsp).
  rewrite setslice3_eq. unfold dim0, dim2 in *. simpl.
  rewrite !(proj2 (Nat.ltb_lt _ _)) by done. simpl.
  pose proof (decoder_loop_spec tgt_idx i tgt (dec_in st) (dec_tgt st) (Some t1) Hshape)
    as Hd.
  rewrite (fits_all_ok _ _ _ _ Hft) in Hd.
  destruct (for_enumerate _ 0 tgt _ _) as [[dec' t2o]|err]; [|done].
  destruct Hd as (_ & Hdi & Hdt & ->). cbn [mbind result_bind].
  assert (last_index 0 tgt (Some t1) = Some (length tgt - 1)) as ->
    by (by destruct tgt).
  simpl. destruct (tgt_idx !! SPACE) as [sp'|] eqn:Hsp';
    [rewrite (getitem_Some _ _ _ Hsp')|rewrite (getitem_None _ _ Hsp')]; simpl.
  2: { right. eauto. }
  destruct Hft as (Hi' & _ & _ & Hspb'). specialize (Hspb' sp' Hsp').
  rewrite !setslice3_eq. unfold dim0, dim2 in *. rewrite Hdi, Hdt, Hshape. simpl.
  rewrite !(proj2 (Nat.ltb_lt _ _)) by done. simpl. done.
Qed.

(** Which exception the loop over the sentence pairs raises: only its
    first pair can. *)
Lemma vectorize_loop_outcome in_idx tgt_idx pairs i (st : vstate F) :
  shape (dec_tgt st) = shape (dec_in st) →
  Forall (λ p : text * text, p.2 ≠ []) pairs →
  (∀ j p, pairs !! j = Some p →
     fits in_idx (i + j) p.1 (enc st) ∧ fits tgt_idx (i + j) p.2 (dec_in st)) →
  match vectorize_loop in_idx tgt_idx i pairs st with
  | Ok _ =>
      ∀ p, pairs !! 0 = Some p →
        is_Some (last_index 0 p.1 (t_var st))
        ∧ is_Some (in_idx !! SPACE) ∧ is_Some (tgt_idx !! SPACE)
  | Raise e =>
      ∃ p, pairs !! 0 = Some p
        ∧ ((e = NameError ∧ last_index 0 p.1 (t_var st) = None)
           ∨ (e = KeyError ∧ is_Some (last_index 0 p.1 (t_var st))
              ∧ (in_idx !! SPACE = None ∨ tgt_idx !! SPACE = None)))
  end.
Proof.
  revert i st. induction pairs as [|[inp tgt] pairs IH]; intros i st Hshape Hne Hfits.
  - simpl. intros p. done.
  - apply Forall_cons in Hne as [Htgt Hne]. simpl in Htgt.
    destruct (Hfits 0 (inp, tgt) eq_refl) as [Hfi Hft]. simpl in Hfi, Hft.
    rewrite Nat.add_0_r in Hfi, Hft.
    pose proof (vectorize_pair_spec in_idx tgt_idx i inp tgt st Hshape Htgt) as Hp.
    pose proof (vectorize_pair_outcome in_idx tgt_idx i inp tgt st Hshape Htgt Hfi Hft)
      as Ho.
    cbn [vectorize_loop].
    destruct (vectorize_pair in_idx tgt_idx i inp tgt st) as [st1|e];
      cbn [mbind result_bind].
    2: { exists (inp, tgt). done. }
    destruct Hp as (t1 & Ht1 & Hsp1 & Hsp2 & He & Hdi & Hdt & Htv).
    specialize (IH (S i) st1).
    destruct (vectorize_loop in_idx tgt_idx (S i) pairs st1) as [st2|e].
    { intros p [= <-]. simpl. rewrite Ht1. eauto. }
    destruct IH as ([inp' tgt'] & Hp' & Hcase).
    + by rewrite Hdi, Hdt.
    + done.
    + intros j p Hj. specialize (Hfits (S j) p Hj).
      replace (i + S j) with (S i + j) in Hfits by lia.
      unfold fits, dim0, dim1, dim2 in *. by rewrite He, Hdi.
    + exfalso. simpl in Hcase. rewrite Htv in Hcase.
      destruct Hcase as [[_ Hnone]|(_ & _ & [Hnone|Hnone])].
      * by destruct inp'.
      * rewrite Hnone in Hsp1. by destruct Hsp1.
      * rewrite Hnone in Hsp2. by destruct Hsp2.
Qed.

(** X10.  The outcome of the data-preparation cell, case by case.  It raises
    [ValueError] when a visited line has not three fields or when no line
    is visited; [NameError] when the first input text is empty; [KeyError]
    when the first input text is not empty and one of the two corpora has
    no space; it never raises [IndexError]; in all other cases it
    completes. *)
Theorem prepare_data_outcome nsamples content :
  match load_corpus nsamples content with
  | Raise _ => prepare_data (F:=F) nsamples content = Raise ValueError
  | Ok c =>
      match prepare_data (F:=F) nsamples content with
      | Ok d =>
          texts d = c
          ∧ (∃ txt, input_texts c !! 0 = Some txt ∧ txt ≠ [])
          ∧ SPACE ∈ input_character_set c ∧ SPACE ∈ target_character_set c
      | Raise ValueError => input_texts c = []
      | Raise NameError => input_texts c !! 0 = Some []
      | Raise KeyError =>
          (∃ txt, input_texts c !! 0 = Some txt ∧ txt ≠ [])
          ∧ (SPACE ∉ input_character_set c ∨ SPACE ∉ target_character_set c)
      | Raise IndexError => False
      end
  end.
Proof.
  pose proof (load_corpus_spec nsamples content) as Hspec. simpl in Hspec.
  unfold prepare_data.
  destruct (load_corpus nsamples content) as [c|e] eqn:Hload; cbn [mbind result_bind].
  2: { by destruct Hspec as [-> _]. }
  clear Hspec. destruct (load_corpus_loaded _ _ _ Hload) as [Hlen Hmarks Hic Htc].
  unfold vectorize.
  pose proof (py_max_spec (length <$> input_texts c)) as Hme.
  destruct (py_max (length <$> input_texts c)) as [Te|e] eqn:HTe;
    cbn [mbind result_bind].
  2: { apply fmap_nil_inv in Hme. destruct e; try done.
       all: by destruct (input_texts c). }
  pose proof (py_max_spec (length <$> target_texts c)) as Hmd.
  destruct (py_max (length <$> target_texts c)) as [Td|e] eqn:HTd;
    cbn [mbind result_bind].
  2: { exfalso. apply fmap_nil_inv in Hmd. destruct Hme as [Hme _].
       apply Hme. rewrite Hmd in Hlen. by destruct (input_texts c). }
  destruct Hme as [Hne_i Hle_i], Hmd as [Hne_t Hle_t].
  rewrite Forall_fmap, Forall_forall in Hle_i, Hle_t.
  set (ichars := sorted (input_character_set c)).
  set (tchars := sorted (target_character_set c)).
  set (n := length (input_texts c)).
  set (st0 := {| enc := np_zeros (n, Te, length ichars);
                 dec_in := np_zeros (n, Td, length tchars);
                 dec_tgt := np_zeros (n, Td, length tchars);
                 t_var := None |}).
  assert (Forall (λ p : text * text, p.2 ≠ []) (zip (input_texts c) (target_texts c)))
    as Hnonempty.
  { apply Forall_forall. intros [inp tgt] Hin. apply elem_of_zip_r in Hin.
    rewrite Forall_forall in Hmarks. destruct (Hmarks _ Hin) as [body ->]. done. }
  pose proof (vectorize_loop_outcome (token_index ichars) (token_index tchars)
                (zip (input_texts c) (target_texts c)) 0 st0 eq_refl Hnonempty) as Hloop.
  lapply Hloop; clear Hloop.
  2: { intros j [inp tgt] Hj. apply lookup_zip_Some in Hj as [Hinp Htgt].
       unfold fits, dim0, dim1, dim2. simpl.
       pose proof (lookup_lt_Some _ _ _ Hinp).
       pose proof (list_elem_of_lookup_2 _ _ _ Hinp) as Hinp'.
       pose proof (list_elem_of_lookup_2 _ _ _ Htgt) as Htgt'.
       repeat split; try done; try (by apply Hle_i); try (by apply Hle_t).
       - apply Forall_forall. intros ch Hch. apply vocabulary_token.
         rewrite Hic. apply elem_of_list_to_set, list_elem_of_join. eauto.
       - intros k Hk. apply token_index_lookup in Hk; [|apply sorted_NoDup].
         by eapply lookup_lt_Some.
       - apply Forall_forall. intros ch Hch. apply vocabulary_token.
         rewrite Htc. apply elem_of_list_to_set, list_elem_of_join. eauto.
       - intros k Hk. apply token_index_lookup in Hk; [|apply sorted_NoDup].
         by eapply lookup_lt_Some. }
  intros Hloop.
  assert (∃ inp tgt, input_texts c !! 0 = Some inp
                     ∧ zip (input_texts c) (target_texts c) !! 0 = Some (inp, tgt))
    as (inp0 & tgt0 & Hinp0 & Hzip0).
  { destruct (input_texts c) as [|inp0 inps]; [done|].
    destruct (target_texts c) as [|tgt0 tgts]; [done|]. by exists inp0, tgt0. }
  assert (∀ chars, is_Some (token_index (sorted chars) !! SPACE) → SPACE ∈ chars)
    as Hsome.
  { intros chars [k Hk]. apply token_index_lookup in Hk; [|apply sorted_NoDup].
    by apply list_elem_of_lookup_2, sorted_elem_of in Hk. }
  assert (∀ chars, token_index (sorted chars) !! SPACE = None → SPACE ∉ chars)
    as Hnone.
  { intros chars Hk Hin. apply vocabulary_token in Hin as (k & Hk' & _). congruence. }
  destruct (vectorize_loop _ _ 0 _ st0) as [st'|e]; cbn [mbind result_bind texts].
  - destruct (Hloop _ Hzip0) as (Hlast & Hsp_i & Hsp_t). simpl in Hlast.
    split; [done|]. split; [|split; by apply Hsome].
    exists inp0. split; [done|]. intros ->. by destruct Hlast.
  - destruct Hloop as (p & Hp & Hcase). rewrite Hzip0 in Hp. injection Hp as <-.
    simpl in Hcase.
    destruct Hcase as [[-> Hlast]|(-> & Hlast & Hsp)].
    + destruct inp0; [done|]. done.
    + split.
      * exists inp0. split; [done|]. intros ->. by destruct Hlast.
      * destruct Hsp as [Hsp|Hsp]; [left|right]; by apply Hnone.
Qed.
End OutcomeFacts.

(** ** The encoder rows when an input text is empty *)

Section StaleFacts.
Context {F : Type} `{!Scalar F}.

Lemma entering_lookup t pairs j :
  entering t pairs !! j
  = p ← pairs !! j;
    Some (match j with
          | 0 => t
          | S j' => (λ q : text * text, length q.2 - 1) <$> pairs !! j'
          end, p.1).
Proof.
  revert t j. induction pairs as [|[inp tgt] pairs IH]; intros t j; [done|].
  destruct j as [|j]; [done|]. simpl. rewrite IH.
  destruct (pairs !! j) as [p|] eqn:Hp; [|done]. simpl.
  destruct j as [|j]; [done|]. simpl.
  destruct (pairs !! j) as [q|] eqn:Hq; [done|].
  apply lookup_ge_None in Hq. apply lookup_lt_Some in Hp. lia.
Qed.

(** The encoder array after the loop, whatever [t] was on entry to each
    input text. *)
Lemma vectorize_loop_encoder in_idx tgt_idx pairs i (st st' : vstate F) :
  shape (dec_tgt st) = shape (dec_in st) →
  Forall (λ p : text * text, p.2 ≠ []) pairs →
  vectorize_loop in_idx tgt_idx i pairs st = Ok st' →
  (∀ p, pairs !! 0 = Some p → is_Some (last_index 0 p.1 (t_var st)))
  ∧ ∀ j, cells (enc st') !! j
         = rewritten (λ x, encoder_rows_from in_idx x.1 x.2) i
                     (entering (t_var st) pairs) (cells (enc st)) j.
Proof.
  revert i st. induction pairs as [|[inp tgt] pairs IH]; intros i st Hshape Hne; simpl.
  - intros [= <-]. split; [done|]. intros j. unfold rewritten. by case_decide.
  - apply Forall_cons in Hne as [Htgt Hne]. simpl in Htgt.
    pose proof (vectorize_pair_spec in_idx tgt_idx i inp tgt st Hshape Htgt) as Hp.
    destruct (vectorize_pair in_idx tgt_idx i inp tgt st) as [st1|e]; simpl; [|done].
    destruct Hp as (t1 & Ht1 & _ & _ & He & Hdi & Hdt & Htv).
    intros Hloop. split; [intros p [= <-]; simpl; by rewrite Ht1|]. intros j.
    destruct (IH (S i) st1) as [_ ->]; [by rewrite Hdi, Hdt|done|done|].
    rewrite Htv, He. simpl.
    rewrite <- (rewritten_cons (λ x, encoder_rows_from in_idx x.1 x.2) i
                  (t_var st, inp)).
    do 2 f_equal. unfold encoder_rows_from. simpl. by rewrite Ht1.
Qed.

(** The encoder rows of every example, from the value [t] had on entry to
    its input text. *)
Lemma encoder_rows_entering nsamples content (d : dataset F) :
  prepare_data nsamples content = Ok d →
  ∀ i txt t,
    input_texts (texts d) !! i = Some txt → t < max_encoder_seq_length d →
    length txt ≤ max_encoder_seq_length d
    ∧ ∃ t0 : option nat,
        match i with
        | 0 => t0 = None ∧ txt ≠ []
        | S i' =>
            ∃ prev, target_texts (texts d) !! i' = Some prev
                    ∧ 2 ≤ length prev ∧ t0 = Some (length prev - 1)
        end
        ∧ slice2 (encoder_input_data d) i t
          = encoder_rows_from (input_token_index d) t0 txt
              (replicate (max_encoder_seq_length d)
                         (replicate (num_encoder_tokens d) fzero)) !! t.
Proof.
  unfold prepare_data. intros Hd.
  destruct (load_corpus nsamples content) as [c|e] eqn:Hload; [|done].
  cbn [mbind result_bind] in Hd.
  destruct (load_corpus_loaded _ _ _ Hload) as [Hlen Hmarks Hic Htc].
  unfold vectorize in Hd.
  pose proof (py_max_spec (length <$> input_texts c)) as Hme.
  destruct (py_max (length <$> input_texts c)) as [Te|e] eqn:HTe; [|done].
  destruct (py_max (length <$> target_texts c)) as [Td|e] eqn:HTd; [|done].
  cbn [mbind result_bind] in Hd.
  destruct Hme as [_ Hle_i]. rewrite Forall_fmap, Forall_forall in Hle_i.
  set (ichars := sorted (input_character_set c)) in *.
  set (tchars := sorted (target_character_set c)) in *.
  set (n := length (input_texts c)) in *.
  set (st0 := {| enc := np_zeros (n, Te, length ichars);
                 dec_in := np_zeros (n, Td, length tchars);
                 dec_tgt := np_zeros (n, Td, length tchars);
                 t_var := None |}) in *.
  assert (Forall (λ p : text * text, p.2 ≠ []) (zip (input_texts c) (target_texts c)))
    as Hnonempty.
  { apply Forall_forall. intros [inp tgt] Hin. apply elem_of_zip_r in Hin.
    rewrite Forall_forall in Hmarks. destruct (Hmarks _ Hin) as [body ->]. done. }
  pose proof (vectorize_loop_encoder (token_index ichars) (token_index tchars)
                (zip (input_texts c) (target_texts c)) 0 st0) as Henc.
  destruct (vectorize_loop _ _ 0 _ st0) as [st'|e]; [|done].
  cbn [mbind result_bind] in Hd. injection Hd as <-. simpl.
  destruct (Henc st' eq_refl Hnonempty eq_refl) as [Hfirst Hcells]. clear Henc.
  intros i txt t Htxt Ht.
  pose proof (lookup_lt_Some _ _ _ Htxt) as Hi. fold n in Hi.
  destruct (target_texts c !! i) as [tgt|] eqn:Htgt.
  2: { apply lookup_ge_None in Htgt. lia. }
  assert (zip (input_texts c) (target_texts c) !! i = Some (txt, tgt)) as Hzip
    by (by apply lookup_zip_Some).
  split; [apply Hle_i; by eapply list_elem_of_lookup_2|].
  unfold slice2. rewrite Hcells. unfold rewritten.
  rewrite decide_True by lia. replace (i - 0) with i by lia.
  rewrite entering_lookup, Hzip. simpl.
  rewrite lookup_replicate_2 by done. simpl.
  destruct i as [|i'].
  - exists None. split; [|done]. split; [done|].
    intros ->. destruct (Hfirst _ Hzip) as [? Hlast]. done.
  - destruct (target_texts c !! i') as [prev|] eqn:Hprev.
    2: { apply lookup_ge_None in Hprev. lia. }
    destruct (input_texts c !! i') as [inp'|] eqn:Hinp'.
    2: { apply lookup_ge_None in Hinp'. lia. }
    rewrite (proj2 (lookup_zip_Some _ _ _ _ _) (conj Hinp' Hprev)). simpl.
    exists (Some (length prev - 1)). split; [|done].
    exists prev. split; [done|]. split; [|done].
    rewrite Forall_forall in Hmarks.
    destruct (Hmarks prev (list_elem_of_lookup_2 _ _ _ Hprev)) as [body ->].
    rewrite !length_app. simpl. lia.
Qed.

(** A non-empty input text is encoded and padded whatever the other texts
    are. *)
Lemma encoder_rows_nonempty nsamples content (d : dataset F) i txt t :
  prepare_data nsamples content = Ok d →
  input_texts (texts d) !! i = Some txt → t < max_encoder_seq_length d →
  txt ≠ [] →
  slice2 (encoder_input_data d) i t
  = Some (padded_row (input_token_index d) (num_encoder_tokens d) txt t).
Proof.
  intros Hd Htxt Ht Hne.
  destruct (encoder_rows_entering _ _ _ Hd i txt t Htxt Ht) as (Hlen & t0 & _ & ->).
  unfold encoder_rows_from.
  replace (default 0 (last_index 0 txt t0) + 1) with (length txt)
    by (destruct txt; [done|simpl; lia]).
  by apply encoded_rows_lookup.
Qed.

(** X11.  After the data-preparation cell, the encoder rows of an example
    with a non-empty input text hold its characters and then the space,
    whatever the other texts are.  For an empty input text (which can only
    come after the first pair) the padding starts at the value [t] kept from
    the target text before: the rows below the length of that target text
    stay all zero, and only the rows from there on hold the space. *)
Theorem encoder_rows_with_empty_texts nsamples content (d : dataset F) :
  prepare_data nsamples content = Ok d →
  ∀ i txt t,
    input_texts (texts d) !! i = Some txt → t < max_encoder_seq_length d →
    (txt ≠ [] →
       slice2 (encoder_input_data d) i t
       = Some (padded_row (input_token_index d) (num_encoder_tokens d) txt t))
    ∧ (txt = [] →
         ∃ i' prev, i = S i' ∧ target_texts (texts d) !! i' = Some prev
           ∧ slice2 (encoder_input_data d) i t
             = Some (if decide (t < length prev)
                     then replicate (num_encoder_tokens d) fzero
                     else one_hot (num_encoder_tokens d)
                                  (tok (input_token_index d) SPACE))).
Proof.
  intros Hd i txt t Htxt Ht. split; [by apply (encoder_rows_nonempty nsamples content)|].
  intros ->.
  destruct (encoder_rows_entering _ _ _ Hd i [] t Htxt Ht) as (_ & t0 & Hentry & ->).
  destruct i as [|i']; [by destruct Hentry|].
  destruct Hentry as (prev & Hprev & Hlen & ->).
  exists i', prev. split; [done|]. split; [done|].
  unfold encoder_rows_from. simpl.
  rewrite fill_lookup, lookup_replicate_2 by done. simpl. unfold one_hot.
  repeat case_decide; (done || lia).
Qed.
End StaleFacts.

(** ** The arg-max *)

Section ArgmaxFacts.
Context {F : Type} `{!Scalar F}.
Hypothesis order : strict_weak_order F.

(** X12.  When the comparison of the scalars is a strict weak order,
    [np.argmax] returns the first position of a maximal entry: no entry of
    the row is greater than the one it selects, the selected entry is
    greater than every entry before it, and no other position has these
    two properties. *)
Theorem np_argmax_first_maximum (row : list F) (k : nat) :
  np_argmax row = Ok k →
  ∃ x, row !! k = Some x
       ∧ (∀ y, y ∈ row → fgtb y x = false)
       ∧ (∀ j y, j < k → row !! j = Some y → fgtb x y = true)
       ∧ (∀ k' x', row !! k' = Some x' →
            (∀ y, y ∈ row → fgtb y x' = false) →
            (∀ j y, j < k' → row !! j = Some y → fgtb x' y = true) →
            k' = k).
Proof.
  intros (x & Hx & Hmax & Hfirst)%(np_argmax_spec order).
  exists x. repeat split; try done.
  intros k' x' Hx' Hmax' Hfirst'.
  destruct (Nat.lt_trichotomy k' k) as [Hlt|[Heq|Hgt]]; [|done|].
  - specialize (Hfirst k' x' Hlt Hx').
    rewrite Hmax' in Hfirst; [done|]. by eapply list_elem_of_lookup_2.
  - specialize (Hfirst' k x Hgt Hx).
    rewrite Hmax in Hfirst'; [done|]. by eapply list_elem_of_lookup_2.
Qed.

Hypothesis one_above_zero : fgtb (F:=F) fone fzero = true.

(** The arg-max of a one-hot row is the position of its one. *)
Lemma np_argmax_one_hot V k : k < V → np_argmax (one_hot (F:=F) V k) = Ok k.
Proof.
  intros Hk.
  destruct (np_argmax_nonempty (one_hot V k)) as (k' & Hk' & Hlt).
  { rewrite one_hot_length. lia. }
  rewrite one_hot_length in Hlt. rewrite Hk'. f_equal.
  apply (np_argmax_spec order) in Hk' as (x & Hx & Hmax & _).
  destruct (decide (k' = k)) as [|Hne]; [done|]. exfalso.
  unfold one_hot in Hx, Hmax.
  rewrite list_lookup_insert_ne, lookup_replicate_2 in Hx by done.
  injection Hx as <-.
  rewrite Hmax in one_above_zero; [done|].
  apply (list_elem_of_lookup_2 _ k). apply list_lookup_insert_eq.
  by rewrite length_replicate.
Qed.
End ArgmaxFacts.

(** ** From the tensors back to the texts *)

Section RoundTripFacts.
Context {F : Type} `{!Scalar F}.
Hypothesis order : strict_weak_order F.
Hypothesis one_above_zero : fgtb (F:=F) fone fzero = true.

Lemma padded_row_char (chars : gset char) txt t :
  SPACE ∈ chars → (∀ ch, ch ∈ txt → ch ∈ chars) →
  row_char (reverse_char_index (token_index (sorted chars)))
           (padded_row (F:=F) (token_index (sorted chars)) (length (sorted chars)) txt t)
  = Ok (default SPACE (txt !! t)).
Proof.
  intros Hsp Htxt.
  destruct (padded_row_encodes (F:=F) _ _ txt t chars eq_refl eq_refl Hsp Htxt)
    as (k & Hk & HkV & ->).
  unfold row_char. rewrite (np_argmax_one_hot order one_above_zero) by done.
  cbn [mbind result_bind]. apply getitem_Some.
  apply reverse_char_index_lookup; [|done].
  intros c1 c2 j. apply token_index_inj, sorted_NoDup.
Qed.

(** The arg-max of a row of zeros is its first position. *)
Lemma np_argmax_zeros V : 0 < V → np_argmax (replicate V (fzero (F:=F))) = Ok 0.
Proof.
  destruct order as (Hirr & _). destruct V as [|V]; [lia|]. intros _. simpl. f_equal.
  generalize 1. induction V as [|V IH]; intros i; simpl; [done|].
  by rewrite Hirr.
Qed.

(** X13.  After the data-preparation cell, and with scalars under a strict
    weak order in which one is above zero, reading a row of a tensor back
    (arg-max, then the reverse lookup of its side) gives the following.
    For an input text that is not empty: its character at that timestep,
    or the space after its end.  For an empty input text, which can only
    follow another pair: the first character of the input vocabulary at
    the timesteps below the length of the target text before, where the
    row is all zero, and the space from there on.  For the decoder input
    rows: the character of the target text, or the space after its end;
    for the decoder target rows the same of the target text without its
    start character. *)
Theorem tensors_read_back nsamples content (d : dataset F) :
  prepare_data nsamples content = Ok d →
  ∀ i t,
    (∀ txt, input_texts (texts d) !! i = Some txt → txt ≠ [] →
            t < max_encoder_seq_length d →
       ∃ row, slice2 (encoder_input_data d) i t = Some row
              ∧ row_char (reverse_input_char_index d) row
                = Ok (default SPACE (txt !! t)))
    ∧ (∀ prev, input_texts (texts d) !! S i = Some [] →
               target_texts (texts d) !! i = Some prev →
               t < max_encoder_seq_length d →
         ∃ row first,
           slice2 (encoder_input_data d) (S i) t = Some row
           ∧ input_characters d !! 0 = Some first
           ∧ (t < length prev → row = replicate (num_encoder_tokens d) fzero)
           ∧ row_char (reverse_input_char_index d) row
             = Ok (if decide (t < length prev) then first else SPACE))
    ∧ (∀ txt, target_texts (texts d) !! i = Some txt →
              t < max_decoder_seq_length d →
         (∃ row, slice2 (decoder_input_data d) i t = Some row
                 ∧ row_char (reverse_target_char_index d) row
                   = Ok (default SPACE (txt !! t)))
         ∧ (∃ row, slice2 (decoder_target_data d) i t = Some row
                   ∧ row_char (reverse_target_char_index d) row
                     = Ok (default SPACE (tail txt !! t)))).
Proof.
  intros Hprep i t.
  pose proof (λ txt Htxt Ht Hne,
                encoder_rows_nonempty nsamples content d i txt t Hprep Htxt Ht Hne)
    as Henc.
  pose proof (λ Htxt Ht, encoder_rows_entering nsamples content d Hprep (S i) [] t Htxt Ht)
    as Hempty.
  destruct (prepare_data_prepared _ _ _ Hprep) as (c & Hload & Hc & Hd).
  destruct Hd, Hc. rewrite prep_texts0 in *.
  unfold reverse_input_char_index, reverse_target_char_index.
  assert (∀ chars, is_Some (token_index (sorted chars) !! SPACE) → SPACE ∈ chars)
    as Hsome.
  { intros chars [k Hk]. apply token_index_lookup in Hk; [|apply sorted_NoDup].
    by apply list_elem_of_lookup_2, sorted_elem_of in Hk. }
  rewrite prep_input_index0, prep_input_characters0 in prep_input_space0.
  rewrite prep_target_index0, prep_target_characters0 in prep_target_space0.
  apply Hsome in prep_input_space0, prep_target_space0.
  split; [|split].
  - intros txt Htxt Hne Ht.
    eexists. split; [by apply Henc|].
    rewrite prep_num_encoder_tokens0, prep_input_index0, prep_input_characters0.
    apply padded_row_char; [done|]. intros ch Hch.
    rewrite loaded_input_set0. apply elem_of_list_to_set, list_elem_of_join.
    exists txt. split; [done|]. by eapply list_elem_of_lookup_2.
  - intros prev Htxt Hprev Ht.
    destruct (Hempty Htxt Ht) as (_ & t0 & (prev' & Hprev' & Hlen & ->) & Hrow).
    assert (prev' = prev) as -> by congruence.
    destruct (vocabulary_token _ _ prep_input_space0) as (ksp & Hksp & HkspV).
    assert (0 < length (sorted (input_character_set c))) as Hpos by lia.
    apply lookup_lt_is_Some in Hpos as [first Hfirst].
    rewrite Hrow, prep_num_encoder_tokens0, prep_input_index0, prep_input_characters0.
    unfold encoder_rows_from. simpl.
    rewrite fill_lookup, lookup_replicate_2 by done. simpl.
    replace (length prev - 1 + 1) with (length prev) by lia.
    destruct (decide (length prev ≤ t)) as [Hle|Hlt].
    + eexists _, first. split; [done|]. split; [done|]. split; [intros; lia|].
      rewrite decide_False by lia.
      apply (padded_row_char (input_character_set c) [] t); [done|].
      by intros ch Hch%elem_of_nil.
    + eexists _, first. split; [done|]. split; [done|]. split; [done|].
      rewrite decide_True by lia.
      unfold row_char. rewrite np_argmax_zeros by (by eapply lookup_lt_Some).
      cbn [mbind result_bind]. apply getitem_Some.
      apply reverse_char_index_lookup.
      * intros c1 c2 j. apply token_index_inj, sorted_NoDup.
      * apply token_index_lookup; [apply sorted_NoDup|done].
  - intros txt Htxt Ht.
    assert (∀ ch, ch ∈ txt → ch ∈ target_character_set c) as Hchars.
    { intros ch Hch.
      rewrite loaded_target_set0. apply elem_of_list_to_set, list_elem_of_join.
      exists txt. split; [done|]. by eapply list_elem_of_lookup_2. }
    split.
    + eexists. split; [by apply prep_decoder_input0|].
      rewrite prep_num_decoder_tokens0, prep_target_index0, prep_target_characters0.
      by apply padded_row_char.
    + eexists. split; [by apply prep_decoder_target0|].
      rewrite prep_num_decoder_tokens0, prep_target_index0, prep_target_characters0.
      apply padded_row_char; [done|]. intros ch Hch. apply Hchars.
      destruct txt; [done|]. by right.
Qed.
End RoundTripFacts.

(** ** The input of the decoding demonstration *)

Section SliceFacts.
Context {F : Type} `{!Scalar F}.

Lemma slice_example_cells (a : ndarray3 F) i :
  cells (slice_example a i) = option_list (cells a !! i)
  ∧ shape (slice_example a i)
    = (length (option_list (cells a !! i)), dim1 a, dim2 a).
Proof.
  unfold slice_example, dim1, dim2. destruct (shape a) as [[n T] V]. simpl.
  assert (take 1 (drop i (cells a)) = option_list (cells a !! i)) as ->; [|done].
  replace (cells a !! i) with (drop i (cells a) !! 0)
    by (by rewrite lookup_drop, Nat.add_0_r).
  by destruct (drop i (cells a)) as [|m ms]; [|destruct ms].
Qed.

(** X14.  After the data-preparation cell, the slice
    [encoder_input_data[seq_index : seq_index + 1]] the demonstration feeds
    to [decode_sequence] is, for an index below the number of sentence
    pairs, a batch of one example holding the rows of that example; for any
    larger index it is an empty batch: the slice never raises. *)
Theorem demonstration_input_seq nsamples content (d : dataset F) :
  prepare_data nsamples content = Ok d →
  ∀ seq_index,
    (seq_index < length (input_texts (texts d)) →
       shape (slice_example (encoder_input_data d) seq_index)
       = (1, max_encoder_seq_length d, num_encoder_tokens d)
       ∧ length (batch_rows (slice_example (encoder_input_data d) seq_index))
         = max_encoder_seq_length d
       ∧ ∀ t, batch_rows (slice_example (encoder_input_data d) seq_index) !! t
              = slice2 (encoder_input_data d) seq_index t)
    ∧ (length (input_texts (texts d)) ≤ seq_index →
         shape (slice_example (encoder_input_data d) seq_index)
         = (0, max_encoder_seq_length d, num_encoder_tokens d)
         ∧ cells (slice_example (encoder_input_data d) seq_index) = []).
Proof.
  intros (c & Hload & Hc & Hd)%prepare_data_prepared seq_index. destruct Hd.
  rewrite prep_texts0.
  destruct (slice_example_cells (encoder_input_data d) seq_index) as [Hcells Hshape].
  destruct prep_encoder_well_shaped0 as [Hlen Hall].
  unfold batch_rows, slice2, dim0, dim1, dim2 in *.
  rewrite Hshape, Hcells. rewrite prep_encoder_shape0 in *. simpl in *.
  split.
  - intros Hi. rewrite <- Hlen in Hi. apply lookup_lt_is_Some in Hi as [m Hm].
    rewrite Hm. simpl. rewrite Forall_lookup in Hall.
    destruct (Hall _ _ Hm) as [Hrows _]. done.
  - intros Hi. rewrite <- Hlen in Hi. apply lookup_ge_None in Hi.
    by rewrite Hi.
Qed.
End SliceFacts.

(** ** What [decode_sequence] returns and raises *)

Lemma target_text_marks nsamples content c i txt :
  load_corpus nsamples content = Ok c →
  target_texts c !! i = Some txt →
  ∃ body, txt = [TAB] ++ body ++ [NL] ∧ TAB ∉ body ∧ NL ∉ body.
Proof.
  intros Hload Htxt.
  destruct (loaded_texts_clean nsamples content c i Hload) as [_ Htgt]. by apply Htgt.
Qed.

Section OutputFacts.
Context {F : Type} `{!Scalar F}.
Variable d : dataset F.
Variable encoder_model : encoder_model_t F.
Variable decoder_model : decoder_model_t F.

(** X15.  Whatever the models and the data, a string [decode_sequence]
    returns holds the end marker at most once, as its last character, and
    every character of it has a token, below [num_decoder_tokens], in
    [target_token_index]. *)
Theorem decoded_characters fuel input_seq (s : text) :
  decode_sequence d encoder_model decoder_model fuel input_seq = Some (Ok s) →
  (∀ j, s !! j = Some NL → S j = length s)
  ∧ (∀ ch, ch ∈ s →
       ∃ k, target_token_index d !! ch = Some k ∧ k < num_decoder_tokens d).
Proof.
  unfold decode_sequence.
  destruct (decode_sequence_run _ _ _ _ _) as [[st|e]|] eqn:Hrun; [|done..].
  intros [= <-]. unfold decode_sequence_run in Hrun.
  destruct (sampling_init d encoder_model input_seq) as [st0|e] eqn:Hinit; [|done].
  apply sampling_init_Ok in Hinit as (Hstop & Hdec & _).
  destruct (sampling_loop_invariant d decoder_model
    (λ st, (stop_condition st = false → NL ∉ decoded_sentence st)
           ∧ (∀ j, decoded_sentence st !! j = Some NL
                   → S j = length (decoded_sentence st))
           ∧ (∀ ch, ch ∈ decoded_sentence st →
                ∃ k, target_token_index d !! ch = Some k
                     ∧ k < num_decoder_tokens d))) with (3 := Hrun)
    as [(_ & Hnl & Hchars) _]; [| |done].
  - clear. intros st st' (Hno & Hlast & Hchars) Hstop
      (row & k & ch & _ & _ & Hch & Hk & _ & _ & Hstop' & Hdec & _)%sampling_step_Ok.
    specialize (Hno Hstop). rewrite Hstop', Hdec, Hstop. split; [|split].
    + destruct (N.eqb_spec ch NL) as [->|Hne]; simpl; [done|].
      destruct (_ <? _); [done|]. intros _. set_solver.
    + intros j Hj. rewrite length_app. simpl.
      destruct (decide (j < length (decoded_sentence st))) as [Hlt|Hge].
      * rewrite lookup_app_l in Hj by done.
        by apply list_elem_of_lookup_2 in Hj.
      * rewrite lookup_app_r in Hj by lia.
        destruct (j - length (decoded_sentence st)) eqn:Hjl; [lia|done].
    + intros ch' [Hin|Hin%list_elem_of_singleton]%elem_of_app; [by apply Hchars|].
      subst ch'. exists k. split; [|done]. by apply reverse_char_index_Some.
  - rewrite Hdec. split; [set_solver|]. split; [done|set_solver].
Qed.

Lemma sampling_loop_Raise fuel (st0 st : loop_state F) e :
  reaches d decoder_model st0 st →
  sampling_loop d decoder_model fuel st = Some (Raise e) →
  ∃ st1, reaches d decoder_model st0 st1 ∧ stop_condition st1 = false
         ∧ sampling_step d decoder_model st1 = Raise e.
Proof.
  revert st. induction fuel as [|fuel IH]; intros st Hreach; simpl; [done|].
  destruct (stop_condition st) eqn:Hstop; [done|].
  destruct (sampling_step d decoder_model st) as [st1|e1] eqn:Hstep.
  - apply IH. by eapply reaches_next.
  - intros [= <-]. by exists st.
Qed.

(** Every call of the decoder is on a one-token sequence. *)
Lemma reaches_one_token (st0 st : loop_state F) k0 :
  k0 < num_decoder_tokens d → target_seq st0 = one_token_seq d k0 →
  reaches d decoder_model st0 st →
  ∃ token, token < num_decoder_tokens d ∧ target_seq st = one_token_seq d token.
Proof.
  intros Hk0 Hseq0. induction 1 as [|st st' _ _ _ Hstep]; [eauto|].
  apply sampling_step_Ok in Hstep as (row & k & ch & _ & _ & _ & Hk & Hseq & _).
  eauto.
Qed.

(** X16.  After the data-preparation cell, [decode_sequence] raises in two
    cases only.  Either the input is not a batch of one example, and it
    raises [ValueError] before the decoder is called.  Or the loop, started
    on the batch, comes to a call of the decoder, on the one-hot row of a
    token and the state carried so far, whose output makes it raise:
    [IndexError] when the output has no timestep, [ValueError] when its
    last row is empty, [KeyError] when the arg-max of its last row is not
    below [num_decoder_tokens]. *)
Theorem decode_sequence_raises nsamples content fuel input_seq (e : exn) :
  prepare_data nsamples content = Ok d →
  decode_sequence d encoder_model decoder_model fuel input_seq = Some (Raise e) →
  (e = ValueError ∧ ∀ rows, cells input_seq ≠ [rows])
  ∨ ∃ st0 st token,
      sampling_init d encoder_model input_seq = Ok st0
      ∧ reaches d decoder_model st0 st
      ∧ stop_condition st = false
      ∧ token < num_decoder_tokens d
      ∧ target_seq st = one_token_seq d token
      ∧ sampling_step d decoder_model st = Raise e
      ∧ let outs :=
          (decoder_model [one_hot (num_decoder_tokens d) token] (states_value st)).1 in
        (e = IndexError ∧ last outs = None)
        ∨ (e = ValueError ∧ last outs = Some [])
        ∨ (e = KeyError
           ∧ ∃ row k, last outs = Some row
                      ∧ np_argmax row = Ok k ∧ num_decoder_tokens d ≤ k).
Proof.
  intros (c & Hload & Hc & Hd)%prepare_data_prepared.
  destruct (prepared_lookups c d Hc Hd) as (_ & _ & (k0 & Hk0 & Hk0V) & Hrev).
  unfold decode_sequence, decode_sequence_run.
  destruct (sampling_init d encoder_model input_seq) as [st0|e0] eqn:Hinit.
  2: { intros [= ->]. left.
       apply sampling_init_Raise in Hinit
         as [Hbatch|[[_ Hnone]|(_ & k' & Hk' & Hle)]]; [done|congruence|].
       assert (k' = k0) as -> by congruence. lia. }
  destruct (sampling_loop _ _ _ _) as [[st|e']|] eqn:Hloop; [done| |done].
  intros [= ->]. right.
  apply (sampling_loop_Raise fuel st0 st0) in Hloop as (st1 & Hreach & Hstop & Hstep);
    [|apply reaches_start].
  pose proof Hinit as Hinit'.
  apply sampling_init_Ok in Hinit' as (_ & _ & _ & _ & k & Hk & HkV & Hseq0 & _).
  destruct (reaches_one_token st0 st1 k HkV Hseq0 Hreach) as (token & Htoken & Hseq).
  exists st0, st1, token. repeat (split; [done|]).
  unfold sampling_step in Hstep. rewrite Hseq in Hstep.
  unfold batch_rows, one_token_seq in Hstep.
  cbn [cells lookup list_lookup default] in Hstep. unfold id in Hstep.
  destruct (decoder_model _ _) as [output_tokens hc]. cbn [fst].
  destruct (last output_tokens) as [row|]; cbn [mbind result_bind] in Hstep.
  2: { left. split; [congruence|done]. }
  destruct (np_argmax row) as [j|e'] eqn:Hj; cbn [mbind result_bind] in Hstep.
  2: { right; left. destruct row; [|done]. simpl in Hj. split; congruence. }
  destruct (reverse_target_char_index d !! j) as [ch|] eqn:Hch;
    [rewrite (getitem_Some _ _ _ Hch) in Hstep
    |rewrite (getitem_None _ _ Hch) in Hstep]; cbn [mbind result_bind] in Hstep.
  - exfalso. rewrite setitem3_one_token in Hstep.
    destruct (j <? num_decoder_tokens d) eqn:HjV; cbn [mbind result_bind] in Hstep; [done|].
    apply Nat.ltb_ge in HjV.
    apply (prepared_reverse_sound c) in Hch; [|done].
    rewrite (prep_target_index _ _ Hd), token_index_lookup in Hch.
    + apply lookup_lt_Some in Hch. rewrite (prep_num_decoder_tokens _ _ Hd) in HjV. lia.
    + rewrite (prep_target_characters _ _ Hd). apply sorted_NoDup.
  - right; right. split; [congruence|]. exists row, j. repeat split; try done.
    destruct (decide (j < num_decoder_tokens d)) as [Hlt|]; [|lia].
    destruct (Hrev j Hlt) as (ch & Hch' & _). congruence.
Qed.
End OutputFacts.

(** ** A model that fits a training example decodes it *)

Section FitFacts.
Context {F : Type} `{!Scalar F}.
Variables nE nD : nat.
Variables encoder_cell decoder_cell : list F → lstm_state F → lstm_state F.
Variable dense_fn : list F → list F.
Variable d : dataset F.

Notation layers := (model_layers nE nD encoder_cell decoder_cell dense_fn).
Notation training_model := (model encoder_cell decoder_cell dense_fn).
Notation V := (num_decoder_tokens d).
Notation token := (tok (target_token_index d)).

Lemma lstm_call_lookup cell (s : lstm_state F) xs j :
  j < length xs →
  (lstm_call cell s xs).1 !! j = Some (lstm_call cell s (take (S j) xs)).2.1.
Proof.
  revert s j. induction xs as [|x xs IH]; intros s j Hj; simpl in Hj; [lia|].
  destruct j as [|j].
  - simpl. by destruct (lstm_call cell (cell x s) xs).
  - specialize (IH (cell x s) j). change (take (S (S j)) (x :: xs)) with (x :: take (S j) xs).
    simpl. destruct (lstm_call cell (cell x s) xs) as [outs final]. simpl in *.
    rewrite IH by lia. by destruct (lstm_call cell (cell x s) (take (S j) xs)).
Qed.

Lemma lstm_call_snoc cell (s : lstm_state F) xs x :
  (lstm_call cell s (xs ++ [x])).2 = cell x (lstm_call cell s xs).2.
Proof. by rewrite lstm_call_app. Qed.

(** One iteration of the sampling loop, computed. *)
Lemma sampling_step_computed dm (st : loop_state F) outs hc row k ch :
  dm (batch_rows (target_seq st)) (states_value st) = (outs, hc) →
  last outs = Some row → np_argmax row = Ok k →
  reverse_target_char_index d !! k = Some ch → k < V →
  sampling_step d dm st
  = Ok {| target_seq := one_token_seq d k;
          states_value := hc;
          stop_condition :=
            if N.eqb ch NL
               || (max_decoder_seq_length d <? length (decoded_sentence st ++ [ch]))
            then true else stop_condition st;
          decoded_sentence := decoded_sentence st ++ [ch];
          calls := calls st ++
            [ {| call_target_seq := batch_rows (target_seq st);
                 call_states_in := states_value st;
                 call_output_tokens := outs;
                 call_states_out := hc |} ] |}.
Proof.
  intros Hdm Hrow Hk Hch HkV. unfold sampling_step. rewrite Hdm, Hrow.
  cbn [mbind result_bind]. rewrite Hk. cbn [mbind result_bind].
  rewrite (getitem_Some _ _ _ Hch). cbn [mbind result_bind].
  rewrite setitem3_one_token, (proj2 (Nat.ltb_lt _ _) HkV).
  cbn [mbind result_bind]. done.
Qed.

Section Loop.
Variable dm : decoder_model_t F.
Variable tgt : text.
Variable s0 : lstm_state F.
Hypothesis dm_layers :
  ∀ decoder_inputs states,
    dm decoder_inputs states
    = ((dense_fn <$> (lstm_call decoder_cell states decoder_inputs).1),
       (lstm_call decoder_cell states decoder_inputs).2).
Hypothesis within_cap : length tgt ≤ max_decoder_seq_length d.
Hypothesis in_vocabulary :
  ∀ ch, ch ∈ tgt →
    ∃ k, target_token_index d !! ch = Some k ∧ k < V
         ∧ reverse_target_char_index d !! k = Some ch.
Hypothesis end_marker : ∀ j, tgt !! j = Some NL ↔ S j = length tgt.
Hypothesis fit :
  ∀ t ch, tgt !! S t = Some ch →
    np_argmax (dense_fn (lstm_call decoder_cell s0
                           (one_hot V ∘ token <$> take (S t) tgt)).2.1)
    = Ok (token ch).

Lemma fitted_loop m :
  ∀ j cj (st : loop_state F) extra,
    S j + m + 1 = length tgt →
    tgt !! j = Some cj →
    target_seq st = one_token_seq d (token cj) →
    states_value st
    = (lstm_call decoder_cell s0 (one_hot V ∘ token <$> take j tgt)).2 →
    stop_condition st = false →
    decoded_sentence st = take j (tail tgt) →
    ∃ st', sampling_loop d dm (S (S m) + extra) st = Some (Ok st')
           ∧ decoded_sentence st' = tail tgt.
Proof.
  induction m as [|m IH]; intros j cj st extra Hlen Hcj Hseq Hstate Hstop Hdec.
  all: destruct (lookup_lt_is_Some_2 tgt (S j)) as [ch Hch]; [lia|].
  all: destruct (in_vocabulary ch (list_elem_of_lookup_2 _ _ _ Hch))
         as (k & Hk & HkV & Hrev).
  all: assert (token ch = k) as Htok by (unfold tok; by rewrite Hk).
  all: pose proof (fit j ch Hch) as Hfit; rewrite Htok in Hfit.
  all: assert (sampling_step d dm st
         = Ok {| target_seq := one_token_seq d k;
                 states_value :=
                   (lstm_call decoder_cell s0
                      (one_hot V ∘ token <$> take (S j) tgt)).2;
                 stop_condition :=
                   if N.eqb ch NL
                      || (max_decoder_seq_length d
                          <? length (decoded_sentence st ++ [ch]))
                   then true else stop_condition st;
                 decoded_sentence := decoded_sentence st ++ [ch];
                 calls := calls st ++
                   [ {| call_target_seq := batch_rows (target_seq st);
                        call_states_in := states_value st;
                        call_output_tokens :=
                          [dense_fn (lstm_call decoder_cell s0
                             (one_hot V ∘ token <$> take (S j) tgt)).2.1];
                        call_states_out :=
                          (lstm_call decoder_cell s0
                             (one_hot V ∘ token <$> take (S j) tgt)).2 |} ] |})
         as Hstep
    by (apply sampling_step_computed with (row :=
          dense_fn (lstm_call decoder_cell s0
                      (one_hot V ∘ token <$> take (S j) tgt)).2.1);
        try done;
        rewrite dm_layers, Hseq, Hstate;
        unfold batch_rows, one_token_seq; cbn [cells lookup list_lookup default];
        unfold id;
        rewrite (take_S_r _ _ _ Hcj), fmap_app;
        change (one_hot V ∘ token <$> [cj]) with [one_hot V (token cj)];
        rewrite lstm_call_snoc; simpl;
        done).
  all: change (S (S ?n) + extra) with (S (S (n + extra))).
  all: rewrite sampling_loop_S, Hstop, Hstep.
  all: assert (decoded_sentence st ++ [ch] = take (S j) (tail tgt)) as Hdec'
         by (rewrite Hdec; symmetry; apply take_S_r; by rewrite lookup_tail).
  - assert (tgt !! S j = Some NL) as Hnl by (apply end_marker; lia).
    assert (ch = NL) as -> by congruence.
    rewrite sampling_loop_S. cbn [stop_condition decoded_sentence]. simpl.
    eexists. split; [done|]. simpl. rewrite Hdec'.
    apply take_ge. destruct tgt; simpl in *; lia.
  - assert (ch ≠ NL) as Hne by (intros ->; apply end_marker in Hch; lia).
    apply N.eqb_neq in Hne.
    apply (IH (S j) ch); cbn [target_seq states_value stop_condition decoded_sentence].
    + lia.
    + done.
    + by rewrite Htok.
    + done.
    + rewrite Hne. cbn [orb]. rewrite (proj2 (Nat.ltb_ge _ _)); [done|].
      rewrite Hdec', length_take. lia.
    + done.
Qed.
End Loop.

Lemma marked_end_marker (body : text) :
  NL ∉ body →
  ∀ j, ([TAB] ++ body ++ [NL]) !! j = Some NL
       ↔ S j = length ([TAB] ++ body ++ [NL]).
Proof.
  intros Hnl j. simpl. rewrite length_app. simpl.
  destruct j as [|j]; simpl; [split; [done|lia]|].
  destruct (decide (j < length body)) as [Hjb|Hjb].
  - rewrite lookup_app_l by done. split; [|lia].
    intros Hj. by apply list_elem_of_lookup_2 in Hj.
  - rewrite lookup_app_r by lia.
    destruct (j - length body) as [|k] eqn:Hk; simpl; [split; [lia|done]|].
    split; [done|lia].
Qed.

(** X17.  The inference loop reproduces what the training graph has
    learnt.  After the data-preparation cell, take the inference models
    built from the layers of the model, and a training example on which
    the training graph is right at every timestep of the target text: fed
    the tensors of the example, its arg-max at timestep [t] is the token of
    character [t + 1] of the target text.  Then [decode_sequence], given
    the encoder rows of that example, returns the target text without its
    start character, end marker included. *)
Theorem fitted_model_decodes_target nsamples content em dm i (tgt : text) :
  prepare_data nsamples content = Ok d →
  sampling_models layers = Ok (em, dm) →
  target_texts (texts d) !! i = Some tgt →
  (∀ t ch, tgt !! S t = Some ch →
     ∃ row,
       training_model (batch_rows (slice_example (encoder_input_data d) i))
                      (batch_rows (slice_example (decoder_input_data d) i)) !! t
       = Some row
       ∧ np_argmax row = Ok (token ch)) →
  ∀ extra,
    decode_sequence d em dm (length tgt + extra)
      (slice_example (encoder_input_data d) i)
    = Some (Ok (tail tgt)).
Proof.
  intros Hprep [Hem Hdm]%sampling_models_layers Htgt Hfit extra.
  destruct (prepare_data_prepared _ _ _ Hprep) as (c & Hload & Hc & Hd).
  destruct (prepared_lookups c d Hc Hd) as (_ & _ & (k0 & Hk0 & Hk0V) & Hrev).
  rewrite (prep_texts _ _ Hd) in Htgt.
  destruct (target_text_marks _ _ _ _ _ Hload Htgt) as (body & Hbody & _ & Hnl).
  set (X := batch_rows (slice_example (encoder_input_data d) i)) in *.
  set (rows := batch_rows (slice_example (decoder_input_data d) i)) in *.
  assert (length tgt ≤ max_decoder_seq_length d) as Hcap.
  { pose proof (py_max_spec (length <$> target_texts c)) as Hmax.
    rewrite (prep_max_decoder _ _ Hd) in Hmax. destruct Hmax as [_ Hmax].
    rewrite Forall_fmap, Forall_forall in Hmax.
    apply (Hmax tgt). by eapply list_elem_of_lookup_2. }
  assert (∀ t, t < max_decoder_seq_length d →
            rows !! t = Some (padded_row (target_token_index d) V tgt t)) as Hrows.
  { intros t Ht. pose proof (prep_decoder_input _ _ Hd i tgt t Htgt Ht) as Hrow.
    subst rows. unfold batch_rows, slice2 in *.
    destruct (slice_example_cells (decoder_input_data d) i) as [-> _].
    destruct (cells (decoder_input_data d) !! i) as [m|]; [done|done]. }
  assert (∀ t, S t ≤ length tgt →
            take (S t) rows = one_hot V ∘ token <$> take (S t) tgt) as Htake.
  { intros t Ht. apply list_eq. intros j.
    rewrite list_lookup_fmap, !lookup_take. case_decide; [|done].
    rewrite Hrows by lia. unfold padded_row.
    destruct (tgt !! j) as [cj|] eqn:Hcj; [done|].
    apply lookup_ge_None in Hcj. lia. }
  assert (max_decoder_seq_length d ≤ length rows) as Hlen.
  { destruct (decide (max_decoder_seq_length d ≤ length rows)) as [|Hn]; [done|].
    assert (is_Some (rows !! length rows)) as Hs by (rewrite Hrows by lia; eauto).
    apply lookup_lt_is_Some in Hs. lia. }
  assert (cells (slice_example (encoder_input_data d) i) = [X]) as Hbatch.
  { subst X. unfold batch_rows.
    destruct (slice_example_cells (encoder_input_data d) i) as [-> _].
    destruct (lookup_lt_is_Some_2 (cells (encoder_input_data d)) i) as [m ->]; [|done].
    destruct (prep_encoder_well_shaped _ _ Hd) as [-> _].
    unfold dim0. rewrite (prep_encoder_shape _ _ Hd). simpl.
    rewrite (loaded_length _ Hc). by eapply lookup_lt_Some. }
  unfold decode_sequence, decode_sequence_run.
  rewrite (sampling_init_one _ _ _ _ Hbatch).
  rewrite (getitem_Some _ _ _ Hk0). cbn [mbind result_bind].
  rewrite setitem3_one_token, (proj2 (Nat.ltb_lt _ _) Hk0V). cbn [mbind result_bind].
  match goal with
  | |- context [sampling_loop d dm _ ?s] => set (st0 := s)
  end.
  destruct (fitted_loop dm tgt (em X) Hdm Hcap) with
    (m := length body) (j := 0) (cj := TAB) (st := st0) (extra := extra)
    as (st' & Hloop & Hdec).
  - intros ch Hch.
    assert (ch ∈ target_character_set c) as Hin.
    { destruct Hc. rewrite loaded_target_set0.
      apply elem_of_list_to_set, list_elem_of_join. exists tgt.
      split; [done|]. by eapply list_elem_of_lookup_2. }
    destruct (vocabulary_token _ _ Hin) as (k & Hk & HkV).
    rewrite <- (prep_target_characters _ _ Hd) in Hk, HkV.
    rewrite <- (prep_target_index _ _ Hd) in Hk.
    rewrite <- (prep_num_decoder_tokens _ _ Hd) in HkV.
    exists k. split; [done|]. split; [done|].
    destruct (Hrev k HkV) as (ch' & Hch' & _).
    pose proof (prepared_reverse_sound c d k ch' Hd Hch') as Hk'.
    rewrite (prep_target_index _ _ Hd), (prep_target_characters _ _ Hd) in Hk, Hk'.
    by rewrite (token_index_inj _ _ _ _ (sorted_NoDup _) Hk Hk').
  - rewrite Hbody. by apply marked_end_marker.
  - intros t ch Hch. destruct (Hfit t ch Hch) as (row & Hrow & Hmax).
    rewrite model_eq, list_lookup_fmap, lstm_call_lookup in Hrow.
    2: { apply lookup_lt_Some in Hch. lia. }
    rewrite Htake in Hrow by (apply lookup_lt_Some in Hch; lia).
    rewrite <- Hem in Hrow. simpl in Hrow. by injection Hrow as <-.
  - rewrite Hbody, length_app. simpl. rewrite length_app. simpl. lia.
  - by rewrite Hbody.
  - subst st0. simpl. unfold tok. by rewrite Hk0.
  - done.
  - done.
  - done.
  - replace (length tgt + extra) with (S (S (length body)) + extra).
    + by rewrite Hloop, Hdec.
    + rewrite Hbody. simpl. rewrite length_app. simpl. lia.
Qed.

(** X18.  The training graph is causal in the decoder input, which is
    what teacher forcing relies on: it returns one output row per decoder
    input row, and its output at timestep [t] is the same when the decoder
    input rows after [t] are cut off. *)
Theorem training_graph_is_causal (encoder_inputs decoder_inputs : list (list F))
    (t : nat) :
  length (model encoder_cell decoder_cell dense_fn encoder_inputs decoder_inputs)
  = length decoder_inputs
  ∧ model encoder_cell decoder_cell dense_fn encoder_inputs decoder_inputs !! t
    = model encoder_cell decoder_cell dense_fn encoder_inputs
            (take (S t) decoder_inputs) !! t.
Proof.
  rewrite !model_eq, length_fmap, lstm_call_length. split; [done|].
  rewrite !list_lookup_fmap.
  destruct (decide (t < length decoder_inputs)) as [Ht|Ht].
  - rewrite !lstm_call_lookup by (rewrite ?length_take; lia).
    by rewrite take_take, Nat.min_id.
  - by rewrite take_ge by lia.
Qed.
End FitFacts.

(** * The further properties on sample corpora *)

Section FurtherSampleFacts.
#[local] Existing Instance Q_scalar.

Lemma sample_file_loads : load_corpus num_samples sample_file = Ok sample_corpus.
Proof. vm_compute. reflexivity. Qed.

Lemma loaded_line_structure_witness :
  load_corpus num_samples sample_file = Ok sample_corpus
  ∧ ∃ line,
      processed_lines num_samples (split NL sample_file) !! 1 = Some line
      ∧ ∃ input_text body note,
          input_texts sample_corpus !! 1 = Some input_text
          ∧ target_texts sample_corpus !! 1 = Some ([TAB] ++ body ++ [NL])
          ∧ line = input_text ++ [TAB] ++ body ++ [TAB] ++ note
          ∧ (TAB ∉ input_text ∧ TAB ∉ body ∧ TAB ∉ note)
          ∧ NL ∉ line.
Proof.
  split; [exact sample_file_loads|].
  exists (str "Hi." ++ [TAB] ++ str "Salut !" ++ [TAB] ++ str "cc").
  split; [vm_compute; reflexivity|].
  apply (loaded_line_structure num_samples sample_file sample_corpus
           sample_file_loads 1).
  vm_compute. reflexivity.
Defined.

Lemma markers_only_at_the_ends_witness :
  load_corpus num_samples sample_file = Ok sample_corpus
  ∧ (∀ txt, txt ∈ target_texts sample_corpus →
       ∀ j, (txt !! j = Some TAB ↔ j = 0) ∧ (txt !! j = Some NL ↔ S j = length txt))
  ∧ (∀ txt, txt ∈ input_texts sample_corpus → TAB ∉ txt ∧ NL ∉ txt).
Proof.
  split; [exact sample_file_loads|].
  exact (markers_only_at_the_ends num_samples sample_file sample_corpus
           sample_file_loads).
Defined.

Lemma loaded_pairs_count_witness :
  (0 ≤ 2)%Z
  ∧ ∃ c, load_corpus 2 sample_file = Ok c
         ∧ length (input_texts c) = 2 `min` occurrences NL sample_file
         ∧ length (target_texts c) = length (input_texts c).
Proof.
  split; [lia|].
  destruct (load_corpus 2 sample_file) as [c|e] eqn:Hload.
  - exists c. split; [done|].
    apply (loaded_pairs_count 2 sample_file c); [lia|exact Hload].
  - vm_compute in Hload. discriminate Hload.
Defined.

Lemma sample_file_prepared : prepare_data num_samples sample_file = Ok sample_dataset.
Proof. vm_compute. reflexivity. Qed.

Lemma reverse_lookups_invert_witness :
  prepare_data num_samples sample_file = Ok sample_dataset
  ∧ (reverse_input_char_index sample_dataset !! 2 = Some 71%N
     ↔ input_token_index sample_dataset !! 71%N = Some 2)
  ∧ (is_Some (reverse_target_char_index sample_dataset !! 15)
     ↔ 15 < num_decoder_tokens sample_dataset).
Proof.
  split; [exact sample_file_prepared|].
  destruct (reverse_lookups_invert num_samples sample_file sample_dataset
              sample_file_prepared) as (Hi & _ & _ & Ht).
  split; [apply Hi|apply Ht].
Defined.

Lemma max_lengths_attained_witness :
  prepare_data num_samples sample_file = Ok sample_dataset
  ∧ (∃ txt, txt ∈ input_texts (texts sample_dataset)
            ∧ length txt = max_encoder_seq_length sample_dataset)
  ∧ 2 ≤ max_decoder_seq_length sample_dataset.
Proof.
  split; [exact sample_file_prepared|].
  destruct (max_lengths_attained num_samples sample_file sample_dataset
              sample_file_prepared) as (Hi & _ & _ & _ & Ht).
  split; [exact Hi|exact Ht].
Defined.

Lemma stale_file_prepared : prepare_data num_samples stale_file = Ok stale_dataset.
Proof. vm_compute. reflexivity. Qed.

(** In the corpus whose second input text is empty, the first rows of the
    second example are all zero. *)
Example stale_rows_not_one_hot :
  slice2 (encoder_input_data stale_dataset) 1 0
  = Some (replicate (num_encoder_tokens stale_dataset) 0%Q)
  ∧ slice2 (encoder_input_data stale_dataset) 1 5
    = Some (replicate (num_encoder_tokens stale_dataset) 0%Q)
  ∧ slice2 (encoder_input_data stale_dataset) 1 6
    = Some (one_hot (num_encoder_tokens stale_dataset) 0).
Proof. vm_compute. repeat split. Qed.

Lemma encoder_rows_with_empty_texts_witness :
  prepare_data num_samples stale_file = Ok stale_dataset
  ∧ input_texts (texts stale_dataset) !! 1 = Some []
  ∧ 7 < max_encoder_seq_length stale_dataset
  ∧ ∃ i' prev,
      1 = S i' ∧ target_texts (texts stale_dataset) !! i' = Some prev
      ∧ slice2 (encoder_input_data stale_dataset) 1 7
        = Some (if decide (7 < length prev)
                then replicate (num_encoder_tokens stale_dataset) fzero
                else one_hot (num_encoder_tokens stale_dataset)
                             (tok (input_token_index stale_dataset) SPACE)).
Proof.
  assert (input_texts (texts stale_dataset) !! 1 = Some []) as Htxt
    by (vm_compute; reflexivity).
  assert (7 < max_encoder_seq_length stale_dataset) as Ht by (vm_compute; lia).
  split; [exact stale_file_prepared|]. split; [exact Htxt|]. split; [exact Ht|].
  destruct (encoder_rows_with_empty_texts num_samples stale_file stale_dataset
              stale_file_prepared 1 [] 7 Htxt Ht) as [_ Hempty].
  exact (Hempty eq_refl).
Defined.

Lemma np_argmax_first_maximum_witness :
  strict_weak_order Q
  ∧ np_argmax [1 # 2; 3; 0; 3]%Q = Ok 1
  ∧ ∃ x, [1 # 2; 3; 0; 3]%Q !! 1 = Some x
         ∧ (∀ y, y ∈ [1 # 2; 3; 0; 3]%Q → fgtb y x = false)
         ∧ (∀ j y, j < 1 → [1 # 2; 3; 0; 3]%Q !! j = Some y → fgtb x y = true)
         ∧ (∀ k' x', [1 # 2; 3; 0; 3]%Q !! k' = Some x' →
              (∀ y, y ∈ [1 # 2; 3; 0; 3]%Q → fgtb y x' = false) →
              (∀ j y, j < k' → [1 # 2; 3; 0; 3]%Q !! j = Some y → fgtb x' y = true) →
              k' = 1).
Proof.
  split; [exact Q_strict_weak_order|]. split; [reflexivity|].
  apply (np_argmax_first_maximum Q_strict_weak_order). reflexivity.
Defined.

Lemma control_file_prepared :
  prepare_data num_samples control_file = Ok control_dataset.
Proof. vm_compute. reflexivity. Qed.

Lemma tensors_read_back_witness :
  strict_weak_order Q
  ∧ fgtb (F:=Q) fone fzero = true
  ∧ prepare_data num_samples control_file = Ok control_dataset
  ∧ (input_texts (texts control_dataset) !! 0 = Some ([1%N] ++ str " a")
     ∧ input_texts (texts control_dataset) !! 1 = Some []
     ∧ target_texts (texts control_dataset) !! 0 = Some ([TAB] ++ str "b c" ++ [NL])
     ∧ 0 < max_encoder_seq_length control_dataset
     ∧ 0 < max_decoder_seq_length control_dataset)
  ∧ (∃ row, slice2 (encoder_input_data control_dataset) 0 0 = Some row
            ∧ row_char (reverse_input_char_index control_dataset) row
              = Ok (default SPACE (([1%N] ++ str " a") !! 0)))
  ∧ (∃ row first,
       slice2 (encoder_input_data control_dataset) 1 0 = Some row
       ∧ input_characters control_dataset !! 0 = Some first
       ∧ (0 < length ([TAB] ++ str "b c" ++ [NL]) →
            row = replicate (num_encoder_tokens control_dataset) fzero)
       ∧ row_char (reverse_input_char_index control_dataset) row
         = Ok (if decide (0 < length ([TAB] ++ str "b c" ++ [NL]))
               then first else SPACE))
  ∧ (∃ row, slice2 (decoder_input_data control_dataset) 0 0 = Some row
            ∧ row_char (reverse_target_char_index control_dataset) row
              = Ok (default SPACE (([TAB] ++ str "b c" ++ [NL]) !! 0)))
  ∧ (∃ row, slice2 (decoder_target_data control_dataset) 0 0 = Some row
            ∧ row_char (reverse_target_char_index control_dataset) row
              = Ok (default SPACE (tail ([TAB] ++ str "b c" ++ [NL]) !! 0))).
Proof.
  assert (input_texts (texts control_dataset) !! 0 = Some ([1%N] ++ str " a"))
    as Hinp by (vm_compute; reflexivity).
  assert (input_texts (texts control_dataset) !! 1 = Some [])
    as Hempty by (vm_compute; reflexivity).
  assert (target_texts (texts control_dataset) !! 0
          = Some ([TAB] ++ str "b c" ++ [NL])) as Htgt by (vm_compute; reflexivity).
  assert (0 < max_encoder_seq_length control_dataset) as Hte by (vm_compute; lia).
  assert (0 < max_decoder_seq_length control_dataset) as Htd by (vm_compute; lia).
  split; [exact Q_strict_weak_order|]. split; [exact Q_one_above_zero|].
  split; [exact control_file_prepared|]. split; [done|].
  destruct (tensors_read_back Q_strict_weak_order Q_one_above_zero
              num_samples control_file control_dataset control_file_prepared 0 0)
    as (Hfull & Hstale & Hdec).
  split; [apply (Hfull _ Hinp); [done|exact Hte]|].
  split; [exact (Hstale _ Hempty Htgt Hte)|].
  exact (Hdec _ Htgt Htd).
Defined.

(** There the row of zeros reads back as the control character, not as
    the space. *)
Example zero_row_reads_first_character :
  slice2 (encoder_input_data control_dataset) 1 0
  = Some (replicate (num_encoder_tokens control_dataset) 0%Q)
  ∧ row_char (reverse_input_char_index control_dataset)
             (replicate (num_encoder_tokens control_dataset) 0%Q)
    = Ok 1%N.
Proof. vm_compute. split; reflexivity. Qed.

Lemma demonstration_input_seq_witness :
  prepare_data num_samples sample_file = Ok sample_dataset
  ∧ length (input_texts (texts sample_dataset)) ≤ 19
  ∧ shape (slice_example (encoder_input_data sample_dataset) 19)
    = (0, max_encoder_seq_length sample_dataset, num_encoder_tokens sample_dataset)
  ∧ cells (slice_example (encoder_input_data sample_dataset) 19) = [].
Proof.
  assert (length (input_texts (texts sample_dataset)) ≤ 19) as Hlen
    by (vm_compute; lia).
  split; [exact sample_file_prepared|]. split; [exact Hlen|].
  destruct (demonstration_input_seq num_samples sample_file sample_dataset
              sample_file_prepared 19) as [_ Hempty].
  exact (Hempty Hlen).
Defined.

Lemma fitted_decode :
  decode_sequence sample_dataset toy_encoder_model fitted_decoder_model 6
    sample_input_seq
  = Some (Ok (str "Va !" ++ [NL])).
Proof. vm_compute. reflexivity. Qed.

Lemma decoded_characters_witness :
  decode_sequence sample_dataset toy_encoder_model fitted_decoder_model 6
    sample_input_seq
  = Some (Ok (str "Va !" ++ [NL]))
  ∧ (∀ j, (str "Va !" ++ [NL]) !! j = Some NL → S j = length (str "Va !" ++ [NL]))
  ∧ (∀ ch, ch ∈ str "Va !" ++ [NL] →
       ∃ k, target_token_index sample_dataset !! ch = Some k
            ∧ k < num_decoder_tokens sample_dataset).
Proof.
  split; [exact fitted_decode|].
  exact (decoded_characters sample_dataset toy_encoder_model fitted_decoder_model
           6 sample_input_seq _ fitted_decode).
Defined.

Lemma wide_decode :
  decode_sequence sample_dataset toy_encoder_model wide_decoder_model 1
    sample_input_seq
  = Some (Raise KeyError).
Proof. vm_compute. reflexivity. Qed.

(** The batch the demonstration takes past the last sentence pair is
    empty, and [decode_sequence] raises on it. *)
Example empty_batch_raises :
  cells (slice_example (encoder_input_data sample_dataset) 19) = []
  ∧ decode_sequence sample_dataset toy_encoder_model
      (toy_decoder_model (num_decoder_tokens sample_dataset)) 12
      (slice_example (encoder_input_data sample_dataset) 19)
    = Some (Raise ValueError).
Proof. vm_compute. split; reflexivity. Qed.

Lemma decode_sequence_raises_witness :
  prepare_data num_samples sample_file = Ok sample_dataset
  ∧ decode_sequence sample_dataset toy_encoder_model wide_decoder_model 1
      sample_input_seq
    = Some (Raise KeyError)
  ∧ ((KeyError = ValueError ∧ ∀ rows, cells sample_input_seq ≠ [rows])
     ∨ ∃ st0 st token,
         sampling_init sample_dataset toy_encoder_model sample_input_seq = Ok st0
         ∧ reaches sample_dataset wide_decoder_model st0 st
         ∧ stop_condition st = false
         ∧ token < num_decoder_tokens sample_dataset
         ∧ target_seq st = one_token_seq sample_dataset token
         ∧ sampling_step sample_dataset wide_decoder_model st = Raise KeyError
         ∧ let outs :=
             (wide_decoder_model [one_hot (num_decoder_tokens sample_dataset) token]
                                 (states_value st)).1 in
           (KeyError = IndexError ∧ last outs = None)
           ∨ (KeyError = ValueError ∧ last outs = Some [])
           ∨ (KeyError = KeyError
              ∧ ∃ row k, last outs = Some row
                         ∧ np_argmax row = Ok k
                         ∧ num_decoder_tokens sample_dataset ≤ k)).
Proof.
  split; [exact sample_file_prepared|]. split; [exact wide_decode|].
  exact (decode_sequence_raises sample_dataset toy_encoder_model wide_decoder_model
           num_samples sample_file 1 sample_input_seq KeyError
           sample_file_prepared wide_decode).
Defined.

Lemma fitted_model_decodes_target_witness :
  prepare_data num_samples sample_file = Ok sample_dataset
  ∧ sampling_models (model_layers 9 15 toy_cell copy_cell (next_dense 15))
    = Ok (toy_encoder_model, fitted_decoder_model)
  ∧ target_texts (texts sample_dataset) !! 0 = Some ([TAB] ++ str "Va !" ++ [NL])
  ∧ decode_sequence sample_dataset toy_encoder_model fitted_decoder_model
      (length ([TAB] ++ str "Va !" ++ [NL]) + 0)
      (slice_example (encoder_input_data sample_dataset) 0)
    = Some (Ok (tail ([TAB] ++ str "Va !" ++ [NL]))).
Proof.
  assert (target_texts (texts sample_dataset) !! 0
          = Some ([TAB] ++ str "Va !" ++ [NL])) as Htgt by (vm_compute; reflexivity).
  split; [exact sample_file_prepared|]. split; [reflexivity|]. split; [exact Htgt|].
  apply (fitted_model_decodes_target 9 15 toy_cell copy_cell (next_dense 15)
           sample_dataset num_samples sample_file toy_encoder_model
           fitted_decoder_model 0 _ sample_file_prepared eq_refl Htgt).
  intros t ch Hch.
  destruct t as [|[|[|[|[|t]]]]]; [..|discriminate Hch];
    vm_compute in Hch; injection Hch as <-.
  - exists (one_hot 15 7). split; vm_compute; reflexivity.
  - exists (one_hot 15 8). split; vm_compute; reflexivity.
  - exists (one_hot 15 2). split; vm_compute; reflexivity.
  - exists (one_hot 15 3). split; vm_compute; reflexivity.
  - exists (one_hot 15 1). split; vm_compute; reflexivity.
Defined.

Lemma only_two_fields_matter_witness :
  Forall2 (λ line1 line2,
             (length (split TAB line1) = 3 ∧ length (split TAB line2) = 3)
             ∧ field 0 line1 = field 0 line2 ∧ field 1 line1 = field 1 line2)
          (processed_lines 2 (split NL sample_file))
          (processed_lines 2 (split NL annotated_file))
  ∧ load_corpus 2 sample_file = load_corpus 2 annotated_file
  ∧ prepare_data (F:=Q) 2 sample_file = prepare_data 2 annotated_file.
Proof.
  assert (Forall2 (λ line1 line2,
             (length (split TAB line1) = 3 ∧ length (split TAB line2) = 3)
             ∧ field 0 line1 = field 0 line2 ∧ field 1 line1 = field 1 line2)
          (processed_lines 2 (split NL sample_file))
          (processed_lines 2 (split NL annotated_file))) as Hlines.
  { vm_compute. repeat first [apply Forall2_cons | apply Forall2_nil | split]. }
  split; [exact Hlines|].
  exact (only_two_fields_matter 2 sample_file annotated_file Hlines).
Defined.

Lemma negative_sample_count_witness :
  (-2 < 0)%Z
  ∧ ∃ c, load_corpus (-2) sample_file = Ok c
         ∧ ∃ visited dropped,
             split NL sample_file = visited ++ dropped
             ∧ length dropped = Z.to_nat (- -2) `min` length (split NL sample_file)
             ∧ processed_lines (-2) (split NL sample_file) = visited
             ∧ input_texts c = field 0 <$> visited
             ∧ target_texts c = marked_target <$> visited
             ∧ length (input_texts c)
               = Z.to_nat (Z.of_nat (S (occurrences NL sample_file)) + -2).
Proof.
  split; [lia|].
  destruct (load_corpus (-2) sample_file) as [c|e] eqn:Hload.
  - exists c. split; [done|].
    apply (negative_sample_count (-2) sample_file c); [lia|exact Hload].
  - vm_compute in Hload. discriminate Hload.
Defined.

(** With a sample count of [-2] the loader keeps the first two lines of
    the sample file. *)
Example negative_count_keeps_the_first_lines :
  ∃ c, load_corpus (-2) sample_file = Ok c
       ∧ input_texts c = [str "Go."; str "Hi."].
Proof. eexists. split; [vm_compute; reflexivity|reflexivity]. Qed.
End FurtherSampleFacts.
